(** * CGClass: code generation for C++ classes

    A shallow embedding of clang's [CGClass.cpp]: the routines that lower
    construction, destruction, copy and vtable-pointer installation of a
    class into a sequence of target instructions, together with a small
    executable semantics of the emitted target code. *)

From Stdlib Require Import ZArith List Bool Lia String.
From stdpp Require Import base option list gmap.

Set Warnings "-register-all".
Local Open Scope Z_scope.

(* ===================================================================== *)
(** * The AST, as far as this file consults it                            *)
(* ===================================================================== *)

Inductive CXXCtorType := Ctor_Complete | Ctor_Base | Ctor_CompleteAllocating.
Inductive CXXDtorType := Dtor_Deleting | Dtor_Complete | Dtor_Base.

Definition CXXCtorType_eqb (a b : CXXCtorType) : bool :=
  match a, b with
  | Ctor_Complete, Ctor_Complete | Ctor_Base, Ctor_Base
  | Ctor_CompleteAllocating, Ctor_CompleteAllocating => true
  | _, _ => false
  end.

Definition CXXDtorType_eqb (a b : CXXDtorType) : bool :=
  match a, b with
  | Dtor_Deleting, Dtor_Deleting | Dtor_Complete, Dtor_Complete
  | Dtor_Base, Dtor_Base => true
  | _, _ => false
  end.

(** A declaration is identified by its address; the model uses a number. *)
Definition DeclID := nat.
Bind Scope nat_scope with DeclID.

(** What the code generator needs of a method declaration it only refers
    to (a callee): its identity, the identity of [getParent()], and whether
    [getParamDecl(0)->getType()] is a reference type. *)
Record CXXMethodDecl := {
  method_id : DeclID;
  method_parent : DeclID;
  method_param0_isReference : bool
}.

(** The triviality flags and special members of a class
    ([hasTrivial...], [getCopyConstructor], [hasConstCopyAssignment],
    [getDestructor]); a missing declaration is a null pointer. *)
Record DefinitionData := {
  hasTrivialCopyConstructor_ : bool;
  hasTrivialCopyAssignment_ : bool;
  hasTrivialDestructor_ : bool;
  isDynamicClass_ : bool;
  hasUserDeclaredCopyConstructor_ : bool;
  hasUserDeclaredCopyAssignment_ : bool;
  getCopyConstructor_ : option CXXMethodDecl;
  constCopyAssignment_ : option CXXMethodDecl;
  getDestructor_ : option CXXMethodDecl
}.

(** Classes, base specifiers, fields and types.  The inheritance graph is
    acyclic, so a class carries its bases as sub-terms; identity of classes
    is identity of [decl_id]. *)
Inductive CXXRecordDecl : Type :=
| mkCXXRecordDecl (id : DeclID)
                  (bases : list CXXBaseSpecifier)
                  (vbases : list CXXBaseSpecifier)
                  (fields : list FieldDecl)
                  (data : DefinitionData)
with CXXBaseSpecifier : Type :=
| mkCXXBaseSpecifier (virt : bool) (ty : CXXRecordDecl)
with FieldDecl : Type :=
| mkFieldDecl (id : DeclID) (ty : QualType)
with QualType : Type :=
| TBuiltin (kind : nat)
| TReference
| TComplex
| TRecord (D : CXXRecordDecl)
| TConstantArray (elem : QualType) (size : Z)
| TVariableArray (elem : QualType).

Definition decl_id (C : CXXRecordDecl) : DeclID :=
  match C with mkCXXRecordDecl i _ _ _ _ => i end.
Definition bases (C : CXXRecordDecl) : list CXXBaseSpecifier :=
  match C with mkCXXRecordDecl _ b _ _ _ => b end.
Definition vbases (C : CXXRecordDecl) : list CXXBaseSpecifier :=
  match C with mkCXXRecordDecl _ _ v _ _ => v end.
Definition fields (C : CXXRecordDecl) : list FieldDecl :=
  match C with mkCXXRecordDecl _ _ _ f _ => f end.
Definition data (C : CXXRecordDecl) : DefinitionData :=
  match C with mkCXXRecordDecl _ _ _ _ d => d end.

Definition isVirtual (B : CXXBaseSpecifier) : bool :=
  match B with mkCXXBaseSpecifier v _ => v end.
(** [Base->getType()->getAs<RecordType>()->getDecl()] *)
Definition getDecl (B : CXXBaseSpecifier) : CXXRecordDecl :=
  match B with mkCXXBaseSpecifier _ t => t end.

Definition field_id (F : FieldDecl) : DeclID :=
  match F with mkFieldDecl i _ => i end.
Definition getType (F : FieldDecl) : QualType :=
  match F with mkFieldDecl _ t => t end.

Definition hasTrivialCopyConstructor C := hasTrivialCopyConstructor_ (data C).
Definition hasTrivialCopyAssignment C := hasTrivialCopyAssignment_ (data C).
Definition hasTrivialDestructor C := hasTrivialDestructor_ (data C).
Definition isDynamicClass C := isDynamicClass_ (data C).
Definition hasUserDeclaredCopyConstructor C :=
  hasUserDeclaredCopyConstructor_ (data C).
Definition hasUserDeclaredCopyAssignment C :=
  hasUserDeclaredCopyAssignment_ (data C).
Definition getCopyConstructor C := getCopyConstructor_ (data C).
Definition hasConstCopyAssignment C := constCopyAssignment_ (data C).
Definition getDestructor C := getDestructor_ (data C).

(** [Class == BaseClass] on declaration pointers. *)
Definition same_decl (A B : CXXRecordDecl) : bool :=
  Nat.eqb (decl_id A) (decl_id B).

(** Induction over the inheritance tree: the property holds of a class
    when it holds of the class of each of its direct base specifiers. *)
Fixpoint CXXRecordDecl_bases_ind (P : CXXRecordDecl -> Prop)
    (step : forall C, Forall (fun B => P (getDecl B)) (bases C) -> P C)
    (C : CXXRecordDecl) {struct C} : P C :=
  step C
    (match C return Forall (fun B => P (getDecl B)) (bases C) with
     | mkCXXRecordDecl _ bs _ _ _ =>
         (fix go (l : list CXXBaseSpecifier) :
            Forall (fun B => P (getDecl B)) l :=
            match l with
            | [] => @List.Forall_nil _ _
            | B :: l' =>
                @List.Forall_cons _ _ B l'
                  (match B return P (getDecl B) with
                   | mkCXXBaseSpecifier _ D =>
                       CXXRecordDecl_bases_ind P step D
                   end)
                  (go l')
            end) bs
     end).

(** An expression of the AST: its identity and its type. *)
Record Expr := { expr_id : nat; expr_type : QualType }.

(** [CXXBaseOrMemberInitializer]: the target (a base class, or a member
    with its optional anonymous-union member) and the initializing
    expression, which may be absent. *)
Inductive InitTarget :=
| BaseTarget (BaseClass : CXXRecordDecl)
| MemberTarget (Member : FieldDecl) (AnonUnionMember : option FieldDecl).

Record CXXBaseOrMemberInitializer := {
  init_target : InitTarget;
  getInit : option Expr
}.

Definition isBaseInitializer (I : CXXBaseOrMemberInitializer) : bool :=
  match init_target I with BaseTarget _ => true | MemberTarget _ _ => false end.
Definition isMemberInitializer (I : CXXBaseOrMemberInitializer) : bool :=
  negb (isBaseInitializer I).

Record CXXConstructorDecl := {
  ctor_decl : CXXMethodDecl;
  ctor_parent : CXXRecordDecl;
  ctor_isTrivial : bool;
  ctor_isDefaultConstructor : bool;
  ctor_isCopyConstructor : bool;
  ctor_isImplicit : bool;
  ctor_inits : list CXXBaseOrMemberInitializer
}.

Record CXXDestructorDecl := {
  dtor_decl : CXXMethodDecl;
  dtor_parent : CXXRecordDecl;
  dtor_isTrivial : bool;
  dtor_OperatorDelete : option DeclID
}.

(** One step of an inheritance path: the base specifier followed and the
    class that has it. *)
Record CXXBasePathElement := {
  Element_Base : CXXBaseSpecifier;
  Element_Class : CXXRecordDecl
}.
Definition CXXBasePath := list CXXBasePathElement.

Inductive GlobalDecl :=
| GD_Ctor (D : CXXMethodDecl) (T : CXXCtorType)
| GD_Dtor (D : CXXMethodDecl) (T : CXXDtorType)
| GD_Function (D : CXXMethodDecl).

Definition GD_getDecl (GD : GlobalDecl) : CXXMethodDecl :=
  match GD with GD_Ctor D _ | GD_Dtor D _ | GD_Function D => D end.

(* --------------------------------------------------------------------- *)
(** ** Type queries of the AST context                                    *)

(** Modelled from the spec: [ASTContext::getBaseElementType], which is not
    part of the translated file; it strips every array level of a type
    (a field that is a possibly nested fixed-size array of class type). *)
Fixpoint getBaseElementType (T : QualType) : QualType :=
  match T with
  | TConstantArray e _ => getBaseElementType e
  | TVariableArray e => getBaseElementType e
  | _ => T
  end.

(** Modelled from the spec: [ASTContext::getAsConstantArrayType], which is
    not part of the translated file; the fixed-size array type of a type,
    null for any other type. *)
Definition getAsConstantArrayType (T : QualType) : option QualType :=
  match T with TConstantArray _ _ => Some T | _ => None end.

(** The [ArrayType] a caller hands over: any array type. *)
Definition isArrayType (T : QualType) : bool :=
  match T with TConstantArray _ _ | TVariableArray _ => true | _ => false end.

Definition isReferenceType (T : QualType) : bool :=
  match T with TReference => true | _ => false end.

Definition isAnyComplexType (T : QualType) : bool :=
  match T with TComplex => true | _ => false end.

(** [FieldType->getAs<RecordType>()] followed by [getDecl()]. *)
Definition getAsRecordDecl (T : QualType) : option CXXRecordDecl :=
  match T with TRecord D => Some D | _ => None end.

(** Modelled from the spec: [CodeGenFunction::hasAggregateLLVMType], which
    is not part of the translated file; scalar fields get a direct store,
    class-typed, complex or aggregate fields are evaluated into place. *)
Definition hasAggregateLLVMType (T : QualType) : bool :=
  match T with
  | TBuiltin _ | TReference => false
  | _ => true
  end.

Definition isSome {A} (o : option A) : bool :=
  match o with Some _ => true | None => false end.

Definition wrap (bits : Z) (z : Z) : Z := z mod 2 ^ bits.

(** Modelled from the spec: [ASTContext::getConstantArrayElementCount],
    which is not part of the translated file; the number N of elements of
    a fixed-size array, the product of the sizes of its nested fixed-size
    levels, as a [uint64_t]. *)
Fixpoint getConstantArrayElementCount (CA : QualType) : Z :=
  match CA with
  | TConstantArray e n =>
      match e with
      | TConstantArray _ _ => wrap 64 (wrap 64 n * getConstantArrayElementCount e)
      | _ => wrap 64 n
      end
  | _ => 1
  end.

(* ===================================================================== *)
(** * The target code                                                     *)
(* ===================================================================== *)

(** Addresses of module-level objects the code generator refers to. *)
Inductive GlobalRef :=
| GCtor (D : CXXMethodDecl) (T : CXXCtorType)   (* GetAddrOfCXXConstructor *)
| GDtor (D : CXXMethodDecl) (T : CXXDtorType)   (* GetAddrOfCXXDestructor *)
| GFunction (D : CXXMethodDecl)                 (* GetAddrOfFunction *)
| GOperatorDelete (D : DeclID)
| GVtable (Class : DeclID)                      (* getVtable *)
| GVTT (Class : DeclID).                        (* getVTT *)

(** An [llvm::Value]: a value the caller passes in, the result of an
    emitted instruction, an entry-block temporary, or a constant. *)
Inductive operand :=
| OArg (n : nat)
| OThis                                   (* LoadCXXThis *)
| OVTT                                    (* LoadCXXVTT *)
| OLocalVar (v : nat)                     (* GetAddrOfLocalVar *)
| OReg (r : nat)
| OAlloca (r : nat)                       (* CreateTempAlloca *)
| OInt (z : Z)                            (* ConstantInt::get *)
| ONull                                   (* Constant::getNullValue *)
| OConstGEP2 (g : GlobalRef) (i j : Z).   (* a folded GEP of a constant *)

(** What the pointer operand of a GEP points to, which fixes the stride:
    a byte, a pointer, or whatever the static type of the operand says. *)
Inductive Pointee :=
| PInt8
| PPointer
| PElementOf (p : operand).

Inductive Predicate := ICMP_EQ | ICMP_NE | ICMP_ULT.

(** An argument of a call: [RValue::get] or [RValue::getAggregate]. *)
Inductive RValue :=
| RV_get (v : operand)
| RV_getAggregate (v : operand).

Definition RValue_operand (a : RValue) : operand :=
  match a with RV_get v | RV_getAggregate v => v end.

(** Modelled from the spec: the low-level code emitter this file writes
    to, an abstract three-address control-flow-graph target.  One
    constructor per builder call of the translated file; the instructions
    of a function are kept in emission order, a block starting at its
    [ILabel].  The emission routines of other files ([EmitAggExpr],
    [EmitAggregateCopy], [EmitCall], ...) appear as single instructions
    that record their arguments. *)
Inductive instr :=
| IBitCast (r : nat) (v : operand)
| IGEP (r : nat) (p : operand) (idx : operand) (elt : Pointee)
| ILoad (r : nat) (p : operand)
| IStore (v : operand) (p : operand)
| IAdd (r : nat) (bits : Z) (a b : operand)
| ISub (r : nat) (bits : Z) (a b : operand)
| IPtrToInt (r : nat) (v : operand)
| IIntToPtr (r : nat) (v : operand)
| IICmp (r : nat) (p : Predicate) (bits : Z) (a b : operand)
| IPHI (r : nat) (incoming : list (operand * nat))
| ICondBr (c : operand) (ifTrue ifFalse : nat)
| IBr (target : nat)
| ILabel (bb : nat)
| ICall (callee : GlobalRef) (args : list RValue)
| IAggregateCopy (dest src : operand) (T : QualType)
| IAggExpr (e : option Expr) (dest : operand)
| IMemSetToZero (p : operand) (T : QualType)
| IScalarExpr (r : nat) (e : option Expr)
| IReferenceBindingToExpr (r : nat) (e : option Expr)
| IComplexExprIntoAddr (e : option Expr) (p : operand)
| ILoadComplexFromAddr (r : nat) (p : operand)
| IStoreComplexToAddr (v : operand) (p : operand)
| ILValueForField (r : nat) (base : operand) (F : DeclID)
| ILValueForFieldInitialization (r : nat) (base : operand) (F : DeclID)
| ILValue (r : nat) (e : Expr)
| ILoadOfLValue (r : nat) (lv : operand) (T : QualType)
| IStoreThroughLValue (v : operand) (lv : operand) (T : QualType)
| ICallArg (r : nat) (e : Expr)
| IDeleteCall (OperatorDelete : DeclID) (p : operand)
| IEHCleanupBlock (body : list instr).

(* ===================================================================== *)
(** * The code generator's state and the emission monad                   *)
(* ===================================================================== *)

(** The builder hands out fresh instruction names and fresh blocks. *)
Record Builder := { NextReg : nat; NextBlock : nat }.

(** An emission either aborts (a failed assertion, a null dereference) or
    returns a value, the new builder state and the instructions it
    appended, in order. *)
Inductive Res (A : Type) :=
| Ok (a : A) (s : Builder) (out : list instr)
| Abort (msg : string).
Arguments Ok {A} a s out.
Arguments Abort {A} msg.

Definition M (A : Type) := Builder -> Res A.

Definition ret {A} (a : A) : M A := fun s => Ok a s [].

Definition bind {A B} (m : M A) (f : A -> M B) : M B :=
  fun s =>
    match m s with
    | Ok a s1 o1 =>
        match f a s1 with
        | Ok b s2 o2 => Ok b s2 (o1 ++ o2)
        | Abort e => Abort e
        end
    | Abort e => Abort e
    end.

Declare Scope emit_scope.
Delimit Scope emit_scope with emit.
Notation "x <- m ;; k" := (bind m (fun x => k))
  (at level 100, m at next level, right associativity) : emit_scope.
Notation "m ;; k" := (bind m (fun _ => k))
  (at level 100, right associativity) : emit_scope.
Local Open Scope emit_scope.

Definition abort {A} (msg : string) : M A := fun _ => Abort msg.

(** [assert(cond && msg)] *)
Definition assert (cond : bool) (msg : string) : M unit :=
  if cond then ret tt else abort msg.

Definition emit (i : instr) : M unit := fun s => Ok tt s [i].

Definition fresh : M nat :=
  fun s => Ok (NextReg s) {| NextReg := S (NextReg s); NextBlock := NextBlock s |} [].

(** [createBasicBlock] *)
Definition createBasicBlock : M nat :=
  fun s => Ok (NextBlock s) {| NextReg := NextReg s; NextBlock := S (NextBlock s) |} [].

(** A [for] loop over a list, in order. *)
Fixpoint forM_ {A} (l : list A) (f : A -> M unit) : M unit :=
  match l with
  | [] => ret tt
  | x :: l' => f x ;; forM_ l' f
  end.

(** The instructions a computation emits go to an exception-cleanup block
    (the scope of a [CodeGenFunction::EHCleanupBlock] object). *)
Definition EHCleanupBlock {A} (m : M A) : M A :=
  fun s =>
    match m s with
    | Ok a s1 o => Ok a s1 [IEHCleanupBlock o]
    | Abort e => Abort e
    end.

(** Builder calls that name their result. *)
Definition CreateBitCast (v : operand) : M operand :=
  r <- fresh ;; emit (IBitCast r v) ;; ret (OReg r).
Definition CreateGEP (p idx : operand) (elt : Pointee) : M operand :=
  r <- fresh ;; emit (IGEP r p idx elt) ;; ret (OReg r).
Definition CreateLoad (p : operand) : M operand :=
  r <- fresh ;; emit (ILoad r p) ;; ret (OReg r).
Definition CreateStore (v p : operand) : M unit := emit (IStore v p).
Definition CreateAdd (bits : Z) (a b : operand) : M operand :=
  r <- fresh ;; emit (IAdd r bits a b) ;; ret (OReg r).
Definition CreateSub (bits : Z) (a b : operand) : M operand :=
  r <- fresh ;; emit (ISub r bits a b) ;; ret (OReg r).
Definition CreatePtrToInt (v : operand) : M operand :=
  r <- fresh ;; emit (IPtrToInt r v) ;; ret (OReg r).
Definition CreateIntToPtr (v : operand) : M operand :=
  r <- fresh ;; emit (IIntToPtr r v) ;; ret (OReg r).
Definition CreateICmp (p : Predicate) (bits : Z) (a b : operand) : M operand :=
  r <- fresh ;; emit (IICmp r p bits a b) ;; ret (OReg r).
Definition CreatePHI (incoming : list (operand * nat)) : M operand :=
  r <- fresh ;; emit (IPHI r incoming) ;; ret (OReg r).
Definition CreateCondBr (c : operand) (t f : nat) : M unit := emit (ICondBr c t f).
Definition CreateBr (t : nat) : M unit := emit (IBr t).
(** [EmitBlock]: the block starts here; control falls into it from an
    unterminated predecessor. *)
Definition EmitBlock (bb : nat) : M unit := emit (ILabel bb).
(** [EmitBranch] *)
Definition EmitBranch (bb : nat) : M unit := emit (IBr bb).
(** [CreateTempAlloca]: the slot lives in the entry block of the function,
    nothing is appended at the insertion point. *)
Definition CreateTempAlloca : M operand :=
  r <- fresh ;; ret (OAlloca r).

(** Emission routines of the other code-generation files. *)
Definition EmitAggregateCopy (Dest Src : operand) (T : QualType) : M unit :=
  emit (IAggregateCopy Dest Src T).
Definition EmitCall (Callee : GlobalRef) (CallArgs : list RValue) : M unit :=
  emit (ICall Callee CallArgs).
Definition EmitAggExpr (E : option Expr) (Dest : operand) : M unit :=
  emit (IAggExpr E Dest).
Definition EmitLValueForField (Base : operand) (F : FieldDecl) : M operand :=
  r <- fresh ;; emit (ILValueForField r Base (field_id F)) ;; ret (OReg r).
Definition EmitLValueForFieldInitialization (Base : operand) (F : FieldDecl)
  : M operand :=
  r <- fresh ;; emit (ILValueForFieldInitialization r Base (field_id F)) ;;
  ret (OReg r).
Definition EmitLoadOfLValue (LV : operand) (T : QualType) : M operand :=
  r <- fresh ;; emit (ILoadOfLValue r LV T) ;; ret (OReg r).
Definition EmitStoreThroughLValue (V LV : operand) (T : QualType) : M unit :=
  emit (IStoreThroughLValue V LV T).
Definition LoadComplexFromAddr (P : operand) : M operand :=
  r <- fresh ;; emit (ILoadComplexFromAddr r P) ;; ret (OReg r).
Definition StoreComplexToAddr (V P : operand) : M unit :=
  emit (IStoreComplexToAddr V P).
Definition EmitReferenceBindingToExpr (E : option Expr) : M operand :=
  r <- fresh ;; emit (IReferenceBindingToExpr r E) ;; ret (OReg r).
Definition EmitScalarExpr (E : option Expr) : M operand :=
  r <- fresh ;; emit (IScalarExpr r E) ;; ret (OReg r).
Definition EmitComplexExprIntoAddr (E : option Expr) (P : operand) : M unit :=
  emit (IComplexExprIntoAddr E P).
Definition EmitMemSetToZero (P : operand) (T : QualType) : M unit :=
  emit (IMemSetToZero P T).
Definition EmitLValue (E : Expr) : M operand :=
  r <- fresh ;; emit (ILValue r E) ;; ret (OReg r).
Definition EmitCallArg (E : Expr) : M RValue :=
  r <- fresh ;; emit (ICallArg r E) ;; ret (RV_get (OReg r)).
Definition EmitDeleteCall (OperatorDelete : DeclID) (P : operand) : M unit :=
  emit (IDeleteCall OperatorDelete P).
Definition LoadCXXThis : M operand := ret OThis.
Definition LoadCXXVTT : M operand := ret OVTT.

(** Evaluate the argument expressions of a call, in order. *)
Fixpoint EmitCallArgs (Args : list Expr) : M (list RValue) :=
  match Args with
  | [] => ret []
  | E :: rest => a <- EmitCallArg E ;; l <- EmitCallArgs rest ;; ret (a :: l)
  end.

(** [EmitCXXMemberCall]: the receiver, the VTT when there is one, then the
    declared arguments. *)
Definition EmitCXXMemberCall (Callee : GlobalRef) (This : operand)
    (VTT : option operand) (Args : list Expr) : M unit :=
  l <- EmitCallArgs Args ;;
  EmitCall Callee
    (RV_get This ::
     match VTT with Some v => [RV_get v] | None => [] end ++ l).

(* ===================================================================== *)
(** * External collaborators                                              *)
(* ===================================================================== *)

(** Record layout, inheritance paths and vtable information: the tables
    the translated file reads but does not compute. *)
Record CodeGenModule := {
  (** width in bits of a pointer, of [getPointerDiffType()] and of
      [getSizeType()] *)
  PointerWidth : Z;
  (** [ASTRecordLayout::getBaseClassOffset], in bits *)
  BaseClassOffset : DeclID -> DeclID -> Z;
  (** [ASTRecordLayout::getVBaseClassOffset], in bits *)
  VBaseClassOffset : DeclID -> DeclID -> Z;
  (** [isDerivedFrom] with recorded paths: [Paths.front()] when derived *)
  isDerivedFrom : CXXRecordDecl -> CXXRecordDecl -> option CXXBasePath;
  getVirtualBaseOffsetIndex : DeclID -> DeclID -> Z;
  needsVTTParameter : GlobalDecl -> bool;
  getSubVTTIndex : DeclID -> DeclID -> Z;
  (** the address points of the vtable of a class, keyed by
      (class, offset in bits) *)
  AddressPoints : DeclID -> gmap (DeclID * Z) Z
}.

(** The function being generated. *)
Record CodeGenFunction := {
  CurFuncDecl : CXXMethodDecl;
  CurGD : GlobalDecl;
  Exceptions : bool;
  (** the class an [llvm::Value] of the function points to by its static
      type ([getType()]), if it is a pointer to a class *)
  PointeeClass : operand -> option DeclID
}.

(* ===================================================================== *)
(** * CGClass.cpp                                                         *)
(* ===================================================================== *)

Section CGClass.

Variable CGM : CodeGenModule.
Variable CGF : CodeGenFunction.

(** The layout tables hold [uint64_t] values. *)
Definition getBaseClassOffset (Class Base : CXXRecordDecl) : Z :=
  wrap 64 (BaseClassOffset CGM (decl_id Class) (decl_id Base)).
Definition getVBaseClassOffset (Class Base : CXXRecordDecl) : Z :=
  wrap 64 (VBaseClassOffset CGM (decl_id Class) (decl_id Base)).

(** [ConstantInt::get(PtrDiffTy, V)] and [ConstantInt::get(SizeTy, V)]. *)
Definition ConstantInt_ptrdiff (V : Z) : operand := OInt (wrap (PointerWidth CGM) V).

(** The body of the loop of [ComputeNonVirtualBaseClassOffset]. *)
Fixpoint ComputeNonVirtualBaseClassOffset_from (Path : CXXBasePath)
    (Offset : Z) : M Z :=
  match Path with
  | [] => ret Offset
  | Element :: rest =>
      let BS := Element_Base Element in
      assert (negb (isVirtual BS)) "Should not see virtual bases here!" ;;
      let Base := getDecl BS in
      ComputeNonVirtualBaseClassOffset_from rest
        (wrap 64 (Offset + getBaseClassOffset (Element_Class Element) Base / 8))
  end.

Definition ComputeNonVirtualBaseClassOffset (Path : CXXBasePath)
    (Start : nat) : M Z :=
  ComputeNonVirtualBaseClassOffset_from (drop Start Path) 0.

Definition GetNonVirtualBaseClassOffset (Class BaseClass : CXXRecordDecl)
  : M (option operand) :=
  if same_decl Class BaseClass then ret None
  else
    match isDerivedFrom CGM Class BaseClass with
    | None => abort "Class must be derived from the passed in base class!"
    | Some Path =>
        Offset <- ComputeNonVirtualBaseClassOffset Path 0 ;;
        if Offset =? 0 then ret None
        else ret (Some (ConstantInt_ptrdiff Offset))
    end.

(** [This->getType()] is a pointer to the converted type of [D]. *)
Definition isPointerTo (V : operand) (D : CXXRecordDecl) : bool :=
  match PointeeClass CGF V with
  | Some C => Nat.eqb C (decl_id D)
  | None => false
  end.

Definition GetAddressOfBaseOfCompleteClass (This : operand)
    (isBaseVirtual : bool) (Derived Base : CXXRecordDecl) : M operand :=
  (* 'this' must be a pointer (in some address space) to Derived. *)
  assert (isPointerTo This Derived)
    "This->getType()->isPointerTy() && cast<llvm::PointerType>(This->getType())->getElementType() == ConvertType(Derived)" ;;
  (* Compute the offset of the virtual base. *)
  let Offset :=
    if isBaseVirtual then getVBaseClassOffset Derived Base
    else getBaseClassOffset Derived Base in
  V <- (if negb (Offset =? 0) then
          V <- CreateBitCast This ;;
          CreateGEP V (OInt (Offset / 8)) PInt8
        else ret This) ;;
  CreateBitCast V.

(** The loop of [GetAddressOfBaseClass] that finds the last virtual step
    of the path: [Start] is the index after it, [VBase] its class. *)
Fixpoint find_virtual_base (Path : CXXBasePath) (i Start : nat)
    (VBase : option CXXRecordDecl) : nat * option CXXRecordDecl :=
  match Path with
  | [] => (Start, VBase)
  | Element :: rest =>
      if isVirtual (Element_Base Element)
      then find_virtual_base rest (S i) (S i)
             (Some (getDecl (Element_Base Element)))
      else find_virtual_base rest (S i) Start VBase
  end.

Definition GetVirtualBaseClassOffset (This : operand)
    (ClassDecl BaseClassDecl : CXXRecordDecl) : M operand :=
  VTablePtr <- CreateBitCast This ;;
  VTablePtr <- CreateLoad VTablePtr ;;
  let VBaseOffsetIndex :=
    getVirtualBaseOffsetIndex CGM (decl_id ClassDecl) (decl_id BaseClassDecl) in
  VBaseOffsetPtr <- CreateGEP VTablePtr (OInt VBaseOffsetIndex) PInt8 ;;
  VBaseOffsetPtr <- CreateBitCast VBaseOffsetPtr ;;
  CreateLoad VBaseOffsetPtr.

Definition GetAddressOfBaseClass (Value : operand)
    (Class BaseClass : CXXRecordDecl) (NullCheckValue : bool) : M operand :=
  if same_decl Class BaseClass then
    (* Just cast back. *)
    CreateBitCast Value
  else
    match isDerivedFrom CGM Class BaseClass with
    | None => abort "Class must be derived from the passed in base class!"
    | Some Path =>
        let '(Start, VBase) := find_virtual_base Path 0 0 None in
        Offset <- ComputeNonVirtualBaseClassOffset Path Start ;;
        if (Offset =? 0) && negb (isSome VBase) then
          (* Just cast back. *)
          CreateBitCast Value
        else
          blocks <-
            (if NullCheckValue then
               CastNull <- createBasicBlock ;;
               CastNotNull <- createBasicBlock ;;
               CastEnd <- createBasicBlock ;;
               IsNull <- CreateICmp ICMP_EQ (PointerWidth CGM) Value ONull ;;
               CreateCondBr IsNull CastNull CastNotNull ;;
               EmitBlock CastNotNull ;;
               ret (CastNull, CastNotNull, CastEnd)
             else ret (0%nat, 0%nat, 0%nat)) ;;
          let '(CastNull, CastNotNull, CastEnd) := blocks in
          VirtualOffset <-
            match VBase with
            | Some VB => v <- GetVirtualBaseClassOffset Value Class VB ;; ret (Some v)
            | None => ret None
            end ;;
          let NonVirtualOffset :=
            if negb (Offset =? 0) then Some (ConstantInt_ptrdiff Offset)
            else None in
          BaseOffset <-
            match VirtualOffset with
            | Some VO =>
                match NonVirtualOffset with
                | Some NVO => CreateAdd (PointerWidth CGM) VO NVO
                | None => ret VO
                end
            | None =>
                match NonVirtualOffset with
                | Some NVO => ret NVO
                | None => abort "null base offset"
                end
            end ;;
          (* Apply the base offset. *)
          Value <- CreateBitCast Value ;;
          Value <- CreateGEP Value BaseOffset PInt8 ;;
          (* Cast back. *)
          Value <- CreateBitCast Value ;;
          if NullCheckValue then
            CreateBr CastEnd ;;
            EmitBlock CastNull ;;
            CreateBr CastEnd ;;
            EmitBlock CastEnd ;;
            CreatePHI [(Value, CastNotNull); (ONull, CastNull)]
          else ret Value
    end.

Definition GetAddressOfDerivedClass (Value : operand)
    (Class DerivedClass : CXXRecordDecl) (NullCheckValue : bool) : M operand :=
  if same_decl Class DerivedClass then
    (* Just cast back. *)
    CreateBitCast Value
  else
    NonVirtualOffset <- GetNonVirtualBaseClassOffset DerivedClass Class ;;
    match NonVirtualOffset with
    | None =>
        (* No offset, we can just cast back. *)
        CreateBitCast Value
    | Some NonVirtualOffset =>
        blocks <-
          (if NullCheckValue then
             CastNull <- createBasicBlock ;;
             CastNotNull <- createBasicBlock ;;
             CastEnd <- createBasicBlock ;;
             IsNull <- CreateICmp ICMP_EQ (PointerWidth CGM) Value ONull ;;
             CreateCondBr IsNull CastNull CastNotNull ;;
             EmitBlock CastNotNull ;;
             ret (CastNull, CastNotNull, CastEnd)
           else ret (0%nat, 0%nat, 0%nat)) ;;
        let '(CastNull, CastNotNull, CastEnd) := blocks in
        (* Apply the offset. *)
        Value <- CreatePtrToInt Value ;;
        Value <- CreateSub (PointerWidth CGM) Value NonVirtualOffset ;;
        Value <- CreateIntToPtr Value ;;
        (* Just cast. *)
        Value <- CreateBitCast Value ;;
        if NullCheckValue then
          CreateBr CastEnd ;;
          EmitBlock CastNull ;;
          CreateBr CastEnd ;;
          EmitBlock CastEnd ;;
          CreatePHI [(Value, CastNotNull); (ONull, CastNull)]
        else ret Value
    end.


(** [EmitClassAggrMemberwiseCopy]: copy an array of class objects, either
    bitwise or by a copy-constructor call per element. *)
Definition EmitClassAggrMemberwiseCopy (Dest Src : operand) (Array : QualType)
    (BaseClassDecl : CXXRecordDecl) (Ty : QualType) : M unit :=
  CA <- match Array with
        | TConstantArray _ _ => ret Array
        | _ => abort "VLA cannot be copied over"
        end ;;
  let BitwiseCopy := hasTrivialCopyConstructor BaseClassDecl in
  (* Create a temporary for the loop index and initialize it with 0. *)
  IndexPtr <- CreateTempAlloca ;;
  let zeroConstant := OInt 0 in
  CreateStore zeroConstant IndexPtr ;;
  (* Start the loop with a block that tests the condition. *)
  CondBlock <- createBasicBlock ;;
  AfterFor <- createBasicBlock ;;
  EmitBlock CondBlock ;;
  ForBody <- createBasicBlock ;;
  (* if loop-index < number-of-elements fall to the loop body,
     otherwise go to the block after the for-loop. *)
  let NumElements := getConstantArrayElementCount CA in
  let NumElementsPtr := OInt (wrap 64 NumElements) in
  Counter <- CreateLoad IndexPtr ;;
  IsLess <- CreateICmp ICMP_ULT 64 Counter NumElementsPtr ;;
  CreateCondBr IsLess ForBody AfterFor ;;
  EmitBlock ForBody ;;
  ContinueBlock <- createBasicBlock ;;
  (* Inside the loop body, emit the constructor call on the array element. *)
  Counter <- CreateLoad IndexPtr ;;
  Src' <- CreateGEP Src Counter (PElementOf Src) ;;
  Dest' <- CreateGEP Dest Counter (PElementOf Dest) ;;
  (if BitwiseCopy then EmitAggregateCopy Dest' Src' Ty
   else
     match getCopyConstructor BaseClassDecl with
     | Some BaseCopyCtor =>
         let Callee := GCtor BaseCopyCtor Ctor_Complete in
         EmitCall Callee [RV_get Dest'; RV_get Src']
     | None => ret tt
     end) ;;
  EmitBlock ContinueBlock ;;
  (* Emit the increment of the loop counter. *)
  let NextVal := OInt 1 in
  Counter <- CreateLoad IndexPtr ;;
  NextVal <- CreateAdd 64 Counter NextVal ;;
  CreateStore NextVal IndexPtr ;;
  (* Finally, branch back up to the condition for the next iteration. *)
  EmitBranch CondBlock ;;
  (* Emit the fall-through block. *)
  EmitBlock AfterFor.

(** [EmitClassAggrCopyAssignment]: assign an array of class objects,
    either bitwise or by a copy-assignment call per element. *)
Definition EmitClassAggrCopyAssignment (Dest Src : operand) (Array : QualType)
    (BaseClassDecl : CXXRecordDecl) (Ty : QualType) : M unit :=
  CA <- match Array with
        | TConstantArray _ _ => ret Array
        | _ => abort "VLA cannot be asssigned"
        end ;;
  let BitwiseAssign := hasTrivialCopyAssignment BaseClassDecl in
  IndexPtr <- CreateTempAlloca ;;
  let zeroConstant := OInt 0 in
  CreateStore zeroConstant IndexPtr ;;
  CondBlock <- createBasicBlock ;;
  AfterFor <- createBasicBlock ;;
  EmitBlock CondBlock ;;
  ForBody <- createBasicBlock ;;
  let NumElements := getConstantArrayElementCount CA in
  let NumElementsPtr := OInt (wrap 64 NumElements) in
  Counter <- CreateLoad IndexPtr ;;
  IsLess <- CreateICmp ICMP_ULT 64 Counter NumElementsPtr ;;
  CreateCondBr IsLess ForBody AfterFor ;;
  EmitBlock ForBody ;;
  ContinueBlock <- createBasicBlock ;;
  Counter <- CreateLoad IndexPtr ;;
  Src' <- CreateGEP Src Counter (PElementOf Src) ;;
  Dest' <- CreateGEP Dest Counter (PElementOf Dest) ;;
  (if BitwiseAssign then EmitAggregateCopy Dest' Src' Ty
   else
     match hasConstCopyAssignment BaseClassDecl with
     | None => abort "EmitClassAggrCopyAssignment - No user assign"
     | Some MD =>
         let Callee := GFunction MD in
         let SrcValue :=
           if method_param0_isReference MD then RV_get Src'
           else RV_getAggregate Src' in
         EmitCall Callee [RV_get Dest'; SrcValue]
     end) ;;
  EmitBlock ContinueBlock ;;
  let NextVal := OInt 1 in
  Counter <- CreateLoad IndexPtr ;;
  NextVal <- CreateAdd 64 Counter NextVal ;;
  CreateStore NextVal IndexPtr ;;
  EmitBranch CondBlock ;;
  EmitBlock AfterFor.

(** [GetVTTParameter]: the VTT parameter that should be passed to a base
    constructor/destructor with virtual bases; null when none is needed. *)
Definition GetVTTParameter (GD : GlobalDecl) : M (option operand) :=
  if negb (needsVTTParameter CGM GD) then
    (* This constructor/destructor does not need a VTT parameter. *)
    ret None
  else
    let RD := method_parent (CurFuncDecl CGF) in
    let Base := method_parent (GD_getDecl GD) in
    SubVTTIndex <-
      (if Nat.eqb RD Base then
         assert (negb (needsVTTParameter CGM (CurGD CGF)))
           "doing no-op VTT offset in base dtor/ctor?" ;;
         ret 0
       else
         let SubVTTIndex := wrap 64 (getSubVTTIndex CGM RD Base) in
         assert (negb (SubVTTIndex =? 0))
           "Sub-VTT index must be greater than zero!" ;;
         ret SubVTTIndex) ;;
    if needsVTTParameter CGM (CurGD CGF) then
      (* A VTT parameter was passed to the constructor, use it. *)
      VTT <- LoadCXXVTT ;;
      VTT <- CreateGEP VTT (OInt SubVTTIndex) PPointer ;;
      ret (Some VTT)
    else
      (* We're the complete constructor, so get the VTT by name. *)
      ret (Some (OConstGEP2 (GVTT RD) 0 SubVTTIndex)).

(** [EmitClassMemberwiseCopy]: copy a class object, either bitwise or by
    a copy-constructor call.  [ClassDecl] is null for a field. *)
Definition EmitClassMemberwiseCopy (Dest Src : operand)
    (ClassDecl : option CXXRecordDecl) (BaseClassDecl : CXXRecordDecl)
    (Ty : QualType) : M unit :=
  adj <-
    match ClassDecl with
    | Some ClassDecl =>
        Dest <- GetAddressOfBaseClass Dest ClassDecl BaseClassDecl false ;;
        Src <- GetAddressOfBaseClass Src ClassDecl BaseClassDecl false ;;
        (* We want to call the base constructor. *)
        ret (Dest, Src, Ctor_Base)
    | None => ret (Dest, Src, Ctor_Complete)
    end ;;
  let '(Dest, Src, CtorType) := adj in
  if hasTrivialCopyConstructor BaseClassDecl then
    EmitAggregateCopy Dest Src Ty
  else
    match getCopyConstructor BaseClassDecl with
    | Some BaseCopyCtor =>
        let Callee := GCtor BaseCopyCtor CtorType in
        (* Push the this (Dest) ptr, the VTT parameter if necessary,
           the Src ptr. *)
        VTT <- GetVTTParameter (GD_Ctor BaseCopyCtor CtorType) ;;
        EmitCall Callee
          (RV_get Dest ::
           match VTT with Some VTT => [RV_get VTT] | None => [] end ++
           [RV_get Src])
    | None => ret tt
    end.

(** [EmitClassCopyAssignment]: copy-assign a class object, either bitwise
    or by an assignment-operator call. *)
Definition EmitClassCopyAssignment (Dest Src : operand)
    (ClassDecl : option CXXRecordDecl) (BaseClassDecl : CXXRecordDecl)
    (Ty : QualType) : M unit :=
  adj <-
    match ClassDecl with
    | Some ClassDecl =>
        Dest <- GetAddressOfBaseClass Dest ClassDecl BaseClassDecl false ;;
        Src <- GetAddressOfBaseClass Src ClassDecl BaseClassDecl false ;;
        ret (Dest, Src)
    | None => ret (Dest, Src)
    end ;;
  let '(Dest, Src) := adj in
  if hasTrivialCopyAssignment BaseClassDecl then
    EmitAggregateCopy Dest Src Ty
  else
    match hasConstCopyAssignment BaseClassDecl with
    | None => abort "EmitClassCopyAssignment - missing copy assign"
    | Some MD =>
        let Callee := GFunction MD in
        (* Push the this (Dest) ptr and the Src ptr. *)
        let SrcValue :=
          if method_param0_isReference MD then RV_get Src
          else RV_getAggregate Src in
        EmitCall Callee [RV_get Dest; SrcValue]
    end.

(** [InitializeVtablePtrsRecursive] *)
Fixpoint InitializeVtablePtrsRecursive (ClassDecl : CXXRecordDecl)
    (Vtable : GlobalRef) (AddressPoints : gmap (DeclID * Z) Z)
    (ThisPtr : operand) (Offset : Z) {struct ClassDecl} : M unit :=
  if negb (isDynamicClass ClassDecl) then ret tt
  else
    (* Store address points for non-virtual bases *)
    (match ClassDecl with
     | mkCXXRecordDecl _ bs _ _ _ =>
         (fix loop (l : list CXXBaseSpecifier) : M unit :=
            match l with
            | [] => ret tt
            | Base :: l' =>
                match Base with
                | mkCXXBaseSpecifier virt BaseClassDecl =>
                    if virt then ret tt
                    else
                      let NewOffset :=
                        wrap 64 (Offset
                                 + getBaseClassOffset ClassDecl BaseClassDecl) in
                      InitializeVtablePtrsRecursive BaseClassDecl Vtable
                        AddressPoints ThisPtr NewOffset
                end ;;
                loop l'
            end) bs
     end) ;;
    (* Compute the address point *)
    match AddressPoints !! (decl_id ClassDecl, Offset) with
    | None => abort "Missing address point for class"
    | Some AddressPoint =>
        let VtableAddressPoint := OConstGEP2 Vtable 0 AddressPoint in
        (* Compute the address to store the address point *)
        VtableField <- CreateBitCast ThisPtr ;;
        VtableField <- CreateGEP VtableField (OInt (Offset / 8)) PInt8 ;;
        VtableField <- CreateBitCast VtableField ;;
        (* Store address point *)
        CreateStore VtableAddressPoint VtableField
    end.

(** [InitializeVtablePtrs] *)
Definition InitializeVtablePtrs (ClassDecl : CXXRecordDecl) : M unit :=
  if negb (isDynamicClass ClassDecl) then ret tt
  else
    let Vtable := GVtable (decl_id ClassDecl) in
    let AddressPoints := AddressPoints CGM (decl_id ClassDecl) in
    ThisPtr <- LoadCXXThis ;;
    (* Store address points for virtual bases *)
    forM_ (vbases ClassDecl) (fun Base =>
      let BaseClassDecl := getDecl Base in
      let Offset := getVBaseClassOffset ClassDecl BaseClassDecl in
      InitializeVtablePtrsRecursive BaseClassDecl Vtable AddressPoints
        ThisPtr Offset) ;;
    (* Store address points for non-virtual bases and current class *)
    InitializeVtablePtrsRecursive ClassDecl Vtable AddressPoints ThisPtr 0.

(** The body of the loop over the bases in [SynthesizeCXXCopyConstructor]. *)
Definition CopyConstructor_base (ClassDecl : CXXRecordDecl)
    (LoadOfThis LoadOfSrc : operand) (Base : CXXBaseSpecifier) : M unit :=
  (* FIXME. copy constrution of virtual base NYI *)
  if isVirtual Base then ret tt
  else
    let BaseClassDecl := getDecl Base in
    EmitClassMemberwiseCopy LoadOfThis LoadOfSrc (Some ClassDecl)
      BaseClassDecl (TRecord BaseClassDecl).

(** The body of the loop over the fields in [SynthesizeCXXCopyConstructor]. *)
Definition CopyConstructor_field (LoadOfThis LoadOfSrc : operand)
    (Field : FieldDecl) : M unit :=
  let FieldType := getType Field in
  let Array := getAsConstantArrayType FieldType in
  let FieldType :=
    if isSome Array then getBaseElementType FieldType else FieldType in
  match getAsRecordDecl FieldType with
  | Some FieldClassDecl =>
      LHS <- EmitLValueForField LoadOfThis Field ;;
      RHS <- EmitLValueForField LoadOfSrc Field ;;
      match Array with
      | Some Array =>
          DestBaseAddrPtr <- CreateBitCast LHS ;;
          SrcBaseAddrPtr <- CreateBitCast RHS ;;
          EmitClassAggrMemberwiseCopy DestBaseAddrPtr SrcBaseAddrPtr Array
            FieldClassDecl FieldType
      | None =>
          EmitClassMemberwiseCopy LHS RHS None FieldClassDecl FieldType
      end
  | None =>
      (* Do a built-in assignment of scalar data members. *)
      LHS <- EmitLValueForFieldInitialization LoadOfThis Field ;;
      RHS <- EmitLValueForFieldInitialization LoadOfSrc Field ;;
      if negb (hasAggregateLLVMType (getType Field)) then
        RVRHS <- EmitLoadOfLValue RHS (getType Field) ;;
        EmitStoreThroughLValue RVRHS LHS (getType Field)
      else if isAnyComplexType (getType Field) then
        Pair <- LoadComplexFromAddr RHS ;;
        StoreComplexToAddr Pair LHS
      else
        EmitAggregateCopy LHS RHS (getType Field)
  end.

(** [SynthesizeCXXCopyConstructor]: the body of an implicitly-defined copy
    constructor.  [Args] are the parameters of the function: [this], then
    the source. *)
Definition SynthesizeCXXCopyConstructor (Ctor : CXXConstructorDecl)
    (Type_ : CXXCtorType) (Args : list nat) : M unit :=
  let ClassDecl := ctor_parent Ctor in
  assert (negb (hasUserDeclaredCopyConstructor ClassDecl))
    "SynthesizeCXXCopyConstructor - copy constructor has definition already" ;;
  assert (negb (ctor_isTrivial Ctor)) "shouldn't need to generate trivial ctor" ;;
  match Args with
  | ThisArg :: SrcArg :: _ =>
      let ThisObj := OLocalVar ThisArg in
      LoadOfThis <- CreateLoad ThisObj ;;
      let SrcObj := OLocalVar SrcArg in
      LoadOfSrc <- CreateLoad SrcObj ;;
      forM_ (bases ClassDecl) (CopyConstructor_base ClassDecl LoadOfThis LoadOfSrc) ;;
      forM_ (fields ClassDecl) (CopyConstructor_field LoadOfThis LoadOfSrc) ;;
      InitializeVtablePtrs ClassDecl
  | _ => abort "missing function arguments"
  end.

(** The body of the loop over the bases in [SynthesizeCXXCopyAssignment]. *)
Definition CopyAssignment_base (ClassDecl : CXXRecordDecl)
    (LoadOfThis LoadOfSrc : operand) (Base : CXXBaseSpecifier) : M unit :=
  (* FIXME. copy assignment of virtual base NYI *)
  if isVirtual Base then ret tt
  else
    let BaseClassDecl := getDecl Base in
    EmitClassCopyAssignment LoadOfThis LoadOfSrc (Some ClassDecl)
      BaseClassDecl (TRecord BaseClassDecl).

(** The body of the loop over the fields in [SynthesizeCXXCopyAssignment]. *)
Definition CopyAssignment_field (LoadOfThis LoadOfSrc : operand)
    (Field : FieldDecl) : M unit :=
  let FieldType := getType Field in
  let Array := getAsConstantArrayType FieldType in
  let FieldType :=
    if isSome Array then getBaseElementType FieldType else FieldType in
  match getAsRecordDecl FieldType with
  | Some FieldClassDecl =>
      LHS <- EmitLValueForField LoadOfThis Field ;;
      RHS <- EmitLValueForField LoadOfSrc Field ;;
      match Array with
      | Some Array =>
          DestBaseAddrPtr <- CreateBitCast LHS ;;
          SrcBaseAddrPtr <- CreateBitCast RHS ;;
          EmitClassAggrCopyAssignment DestBaseAddrPtr SrcBaseAddrPtr Array
            FieldClassDecl FieldType
      | None =>
          EmitClassCopyAssignment LHS RHS None FieldClassDecl FieldType
      end
  | None =>
      (* Do a built-in assignment of scalar data members. *)
      LHS <- EmitLValueForField LoadOfThis Field ;;
      RHS <- EmitLValueForField LoadOfSrc Field ;;
      if negb (hasAggregateLLVMType (getType Field)) then
        RVRHS <- EmitLoadOfLValue RHS (getType Field) ;;
        EmitStoreThroughLValue RVRHS LHS (getType Field)
      else if isAnyComplexType (getType Field) then
        Pair <- LoadComplexFromAddr RHS ;;
        StoreComplexToAddr Pair LHS
      else
        EmitAggregateCopy LHS RHS (getType Field)
  end.

(** The result slot of the function being generated ([ReturnValue]). *)
Definition ReturnValue : operand := OLocalVar 0.

(** [SynthesizeCXXCopyAssignment]: the body of an implicitly-defined copy
    assignment operator of class [ClassDecl]. *)
Definition SynthesizeCXXCopyAssignment (ClassDecl : CXXRecordDecl)
    (Args : list nat) : M unit :=
  assert (negb (hasUserDeclaredCopyAssignment ClassDecl))
    "SynthesizeCXXCopyAssignment - copy assignment has user declaration" ;;
  match Args with
  | ThisArg :: SrcArg :: _ =>
      let ThisObj := OLocalVar ThisArg in
      LoadOfThis <- CreateLoad ThisObj ;;
      let SrcObj := OLocalVar SrcArg in
      LoadOfSrc <- CreateLoad SrcObj ;;
      forM_ (bases ClassDecl) (CopyAssignment_base ClassDecl LoadOfThis LoadOfSrc) ;;
      forM_ (fields ClassDecl) (CopyAssignment_field LoadOfThis LoadOfSrc) ;;
      (* return *this; *)
      CreateStore LoadOfThis ReturnValue
  | _ => abort "missing function arguments"
  end.

(** [EmitCXXDestructorCall] *)
Definition EmitCXXDestructorCall (DD : option CXXMethodDecl)
    (Type_ : CXXDtorType) (This : operand) : M unit :=
  match DD with
  | None => abort "null destructor declaration"
  | Some DD =>
      VTT <- GetVTTParameter (GD_Dtor DD Type_) ;;
      let Callee := GDtor DD Type_ in
      EmitCXXMemberCall Callee This VTT []
  end.

(** [EmitBaseInitializer] *)
Definition EmitBaseInitializer (ClassDecl : CXXRecordDecl)
    (BaseInit : CXXBaseOrMemberInitializer) (CtorType : CXXCtorType) : M unit :=
  match init_target BaseInit with
  | MemberTarget _ _ => abort "Must have base initializer!"
  | BaseTarget BaseClassDecl =>
      ThisPtr <- LoadCXXThis ;;
      (* FIXME: This method of determining whether a base is virtual is
         ridiculous; it should be part of BaseInit. *)
      let isBaseVirtual :=
        existsb (fun I => same_decl (getDecl I) BaseClassDecl)
          (vbases ClassDecl) in
      (* The base constructor doesn't construct virtual bases. *)
      if CXXCtorType_eqb CtorType Ctor_Base && isBaseVirtual then ret tt
      else
        (* We can pretend to be a complete class because it only matters
           for virtual bases, and we only do virtual bases for complete
           ctors. *)
        V <- GetAddressOfBaseOfCompleteClass ThisPtr isBaseVirtual
               ClassDecl BaseClassDecl ;;
        EmitAggExpr (getInit BaseInit) V ;;
        if Exceptions CGF && negb (hasTrivialDestructor BaseClassDecl) then
          EHCleanupBlock
            (let DD := getDestructor BaseClassDecl in
             EmitCXXDestructorCall DD Dtor_Base V)
        else ret tt
  end.

(** [EmitMemberInitializer] *)
Definition EmitMemberInitializer (ClassDecl : CXXRecordDecl)
    (MemberInit : CXXBaseOrMemberInitializer) : M unit :=
  match init_target MemberInit with
  | BaseTarget _ => abort "Must have member initializer!"
  | MemberTarget Field AnonUnionMember =>
      (* non-static data member initializers. *)
      let FieldType := getType Field in
      ThisPtr <- LoadCXXThis ;;
      LHS <- EmitLValueForFieldInitialization ThisPtr Field ;;
      (* If we are initializing an anonymous union field, drill down to
         the field. *)
      drill <-
        match AnonUnionMember with
        | Some AnonField =>
            LHS <- EmitLValueForField LHS AnonField ;;
            ret (AnonField, LHS, getType AnonField)
        | None => ret (Field, LHS, FieldType)
        end ;;
      let '(Field, LHS, FieldType) := drill in
      if isReferenceType FieldType then
        RHS <- EmitReferenceBindingToExpr (getInit MemberInit) ;;
        EmitStoreThroughLValue RHS LHS FieldType
      else if isArrayType FieldType && negb (isSome (getInit MemberInit)) then
        EmitMemSetToZero LHS (getType Field)
      else if negb (hasAggregateLLVMType (getType Field)) then
        RHS <- EmitScalarExpr (getInit MemberInit) ;;
        EmitStoreThroughLValue RHS LHS FieldType
      else
        match getInit MemberInit with
        | None => abort "null initializer expression"
        | Some Init =>
            if isAnyComplexType (expr_type Init) then
              EmitComplexExprIntoAddr (Some Init) LHS
            else
              EmitAggExpr (Some Init) LHS ;;
              if negb (Exceptions CGF) then ret tt
              else
                match getAsRecordDecl FieldType with
                | None => ret tt
                | Some RD =>
                    if negb (hasTrivialDestructor RD) then
                      EHCleanupBlock
                        (ThisPtr <- LoadCXXThis ;;
                         LHS <- EmitLValueForField ThisPtr Field ;;
                         let DD := getDestructor RD in
                         EmitCXXDestructorCall DD Dtor_Complete LHS)
                    else ret tt
                end
        end
  end.

(** [EmitCtorPrologue]: initialize the base classes and the non-static
    data members belonging to this constructor. *)
Definition EmitCtorPrologue (CD : CXXConstructorDecl)
    (CtorType : CXXCtorType) : M unit :=
  let ClassDecl := ctor_parent CD in
  (* FIXME: Add vbase initialization *)
  (* The assertions on LiveTemporaries are about expression emission,
     which is atomic here. *)
  MemberInitializers <-
    (fix loop (l : list CXXBaseOrMemberInitializer)
         (MemberInitializers : list CXXBaseOrMemberInitializer)
       : M (list CXXBaseOrMemberInitializer) :=
       match l with
       | [] => ret MemberInitializers
       | Member :: l' =>
           if isBaseInitializer Member then
             EmitBaseInitializer ClassDecl Member CtorType ;;
             loop l' MemberInitializers
           else
             loop l' (MemberInitializers ++ [Member])
       end) (ctor_inits CD) [] ;;
  InitializeVtablePtrs ClassDecl ;;
  forM_ MemberInitializers (EmitMemberInitializer ClassDecl).

(** [EmitCXXAggrDestructorCall] with a run-time element count: call the
    destructor on the elements in reverse order of construction. *)
Definition EmitCXXAggrDestructorCall_count (D : option CXXMethodDecl)
    (UpperCount : operand) (This : operand) : M unit :=
  let SizeLTy := PointerWidth CGM in
  let One := OInt (wrap SizeLTy 1) in
  (* Create a temporary for the loop index and initialize it with count
     of array elements. *)
  IndexPtr <- CreateTempAlloca ;;
  (* Store the number of elements in the index pointer. *)
  CreateStore UpperCount IndexPtr ;;
  (* Start the loop with a block that tests the condition. *)
  CondBlock <- createBasicBlock ;;
  AfterFor <- createBasicBlock ;;
  EmitBlock CondBlock ;;
  ForBody <- createBasicBlock ;;
  (* if loop-index != 0 fall to the loop body, otherwise go to the block
     after the for-loop. *)
  let zeroConstant := OInt 0 in
  Counter <- CreateLoad IndexPtr ;;
  IsNE <- CreateICmp ICMP_NE SizeLTy Counter zeroConstant ;;
  CreateCondBr IsNE ForBody AfterFor ;;
  EmitBlock ForBody ;;
  ContinueBlock <- createBasicBlock ;;
  (* Inside the loop body, emit the destructor call on the array element. *)
  Counter <- CreateLoad IndexPtr ;;
  Counter <- CreateSub SizeLTy Counter One ;;
  Address <- CreateGEP This Counter (PElementOf This) ;;
  EmitCXXDestructorCall D Dtor_Complete Address ;;
  EmitBlock ContinueBlock ;;
  (* Emit the decrement of the loop counter. *)
  Counter <- CreateLoad IndexPtr ;;
  Counter <- CreateSub SizeLTy Counter One ;;
  CreateStore Counter IndexPtr ;;
  (* Finally, branch back up to the condition for the next iteration. *)
  EmitBranch CondBlock ;;
  (* Emit the fall-through block. *)
  EmitBlock AfterFor.

(** [EmitCXXAggrDestructorCall] on an array type. *)
Definition EmitCXXAggrDestructorCall (D : option CXXMethodDecl)
    (Array : QualType) (This : operand) : M unit :=
  CA <- match Array with
        | TConstantArray _ _ => ret Array
        | _ => abort "Do we support VLA for destruction ?"
        end ;;
  let ElementCount := getConstantArrayElementCount CA in
  let ElementCountPtr := OInt (wrap (PointerWidth CGM) ElementCount) in
  EmitCXXAggrDestructorCall_count D ElementCountPtr This.

(** The fields [EmitDtorEpilogue] collects: those whose base element type
    is a class with a non-trivial destructor. *)
Definition DtorEpilogue_collects (Field : FieldDecl) : bool :=
  let FieldType := getBaseElementType (getType Field) in
  match getAsRecordDecl FieldType with
  | None => false
  | Some FieldClassDecl => negb (hasTrivialDestructor FieldClassDecl)
  end.

(** The body of the loop of [EmitDtorEpilogue] that destroys the fields. *)
Definition DtorEpilogue_field (Field : FieldDecl) : M unit :=
  let FieldType := getType Field in
  let Array := getAsConstantArrayType FieldType in
  let FieldType :=
    if isSome Array then getBaseElementType FieldType else FieldType in
  match getAsRecordDecl FieldType with
  | None => abort "null record type"
  | Some FieldClassDecl =>
      ThisPtr <- LoadCXXThis ;;
      LHS <- EmitLValueForField ThisPtr Field ;;
      match Array with
      | Some Array =>
          BaseAddrPtr <- CreateBitCast LHS ;;
          EmitCXXAggrDestructorCall (getDestructor FieldClassDecl) Array
            BaseAddrPtr
      | None =>
          EmitCXXDestructorCall (getDestructor FieldClassDecl) Dtor_Complete LHS
      end
  end.

(** The body of the loop of [EmitDtorEpilogue] over the non-virtual bases. *)
Definition DtorEpilogue_base (ClassDecl : CXXRecordDecl)
    (Base : CXXBaseSpecifier) : M unit :=
  (* Ignore virtual bases. *)
  if isVirtual Base then ret tt
  else
    let BaseClassDecl := getDecl Base in
    (* Ignore trivial destructors. *)
    if hasTrivialDestructor BaseClassDecl then ret tt
    else
      let D := getDestructor BaseClassDecl in
      ThisPtr <- LoadCXXThis ;;
      V <- GetAddressOfBaseClass ThisPtr ClassDecl BaseClassDecl false ;;
      EmitCXXDestructorCall D Dtor_Base V.

(** The body of the loop of [EmitDtorEpilogue] over the virtual bases. *)
Definition DtorEpilogue_vbase (ClassDecl : CXXRecordDecl)
    (Base : CXXBaseSpecifier) : M unit :=
  let BaseClassDecl := getDecl Base in
  (* Ignore trivial destructors. *)
  if hasTrivialDestructor BaseClassDecl then ret tt
  else
    let D := getDestructor BaseClassDecl in
    ThisPtr <- LoadCXXThis ;;
    V <- GetAddressOfBaseOfCompleteClass ThisPtr true ClassDecl BaseClassDecl ;;
    EmitCXXDestructorCall D Dtor_Base V.

(** [EmitDtorEpilogue]: all code that comes at the end of a class's
    destructor, calling destructors on members and base classes in
    reverse order of their construction. *)
Definition EmitDtorEpilogue (DD : CXXDestructorDecl)
    (DtorType : CXXDtorType) : M unit :=
  assert (negb (dtor_isTrivial DD))
    "Should not emit dtor epilogue for trivial dtor!" ;;
  let ClassDecl := dtor_parent DD in
  match DtorType with
  | Dtor_Deleting =>
      (* In a deleting destructor, we've already called the complete
         destructor as a subroutine, so we just have to delete the
         appropriate value. *)
      match dtor_OperatorDelete DD with
      | None => abort "operator delete missing - EmitDtorEpilogue"
      | Some OperatorDelete =>
          ThisPtr <- LoadCXXThis ;;
          EmitDeleteCall OperatorDelete ThisPtr
      end
  | Dtor_Complete =>
      (* For complete destructors, we've already called the base
         destructor, so we just need to destruct all the virtual bases. *)
      forM_ (rev (vbases ClassDecl)) (DtorEpilogue_vbase ClassDecl)
  | Dtor_Base =>
      (* Collect the fields. *)
      let FieldDecls := List.filter DtorEpilogue_collects (fields ClassDecl) in
      (* Now destroy the fields. *)
      forM_ (rev FieldDecls) DtorEpilogue_field ;;
      (* Destroy non-virtual bases. *)
      forM_ (rev (bases ClassDecl)) (DtorEpilogue_base ClassDecl)
  end.

(** [EmitCXXConstructorCall] *)
Definition EmitCXXConstructorCall (D : CXXConstructorDecl)
    (Type_ : CXXCtorType) (This : operand) (Args : list Expr) : M unit :=
  if ctor_isTrivial D then
    match Args with
    | [] =>
        (* Trivial default constructor, no codegen required. *)
        assert (ctor_isDefaultConstructor D)
          "trivial 0-arg ctor not a default ctor"
    | E :: rest =>
        assert (match rest with [] => true | _ => false end)
          "unexpected argcount for trivial ctor" ;;
        assert (ctor_isCopyConstructor D) "trivial 1-arg ctor not a copy ctor" ;;
        let Ty := expr_type E in
        Src <- EmitLValue E ;;
        EmitAggregateCopy This Src Ty
    end
  else
    VTT <- GetVTTParameter (GD_Ctor (ctor_decl D) Type_) ;;
    let Callee := GCtor (ctor_decl D) Type_ in
    EmitCXXMemberCall Callee This VTT Args.

End CGClass.

(* ===================================================================== *)
(** * Running the emitted code                                            *)
(* ===================================================================== *)

(** Modelled from the spec: the meaning of the abstract target code
    (address computations, calls with a receiver, conditional branches,
    loads, stores and loops), which the target defines and not the
    translated file.  Integers and pointers are machine words; an
    entry-block temporary is its own memory cell. *)
Inductive rtval :=
| RInt (z : Z)
| RSlot (r : nat)
| RAddrConst (g : GlobalRef) (i j : Z).

(** What the emitted code does to the outside world, in order. *)
Inductive event :=
| EvCall (callee : GlobalRef) (args : list rtval)
| EvAggregateCopy (dest src : rtval) (T : QualType)
| EvStore (addr : Z) (v : rtval).

(** The surroundings of a run: the width of a word, the values of the
    operands that are not computed by the code, the memory outside the
    temporaries (only read), the size of what a typed pointer points to
    and the offset of a field in its class. *)
Record RunEnv := {
  env_bits : Z;
  env_arg : nat -> rtval;
  env_this : rtval;
  env_vtt : rtval;
  env_local : nat -> rtval;
  env_load : Z -> rtval;
  env_stride : operand -> Z;
  env_field : DeclID -> Z
}.

Record machine := {
  pc : nat;
  cur_bb : nat;
  pred_bb : nat;
  regs : nat -> option rtval;
  slots : nat -> option rtval;
  trace : list event
}.

Definition upd {A} (f : nat -> option A) (k : nat) (v : A) : nat -> option A :=
  fun x => if Nat.eqb x k then Some v else f x.

Definition eval (E : RunEnv) (rs : nat -> option rtval) (o : operand)
  : option rtval :=
  match o with
  | OArg n => Some (env_arg E n)
  | OThis => Some (env_this E)
  | OVTT => Some (env_vtt E)
  | OLocalVar v => Some (env_local E v)
  | OReg r => rs r
  | OAlloca r => Some (RSlot r)
  | OInt z => Some (RInt z)
  | ONull => Some (RInt 0)
  | OConstGEP2 g i j => Some (RAddrConst g i j)
  end.

Fixpoint eval_args (E : RunEnv) (rs : nat -> option rtval) (l : list RValue)
  : option (list rtval) :=
  match l with
  | [] => Some []
  | a :: l' =>
      match eval E rs (RValue_operand a), eval_args E rs l' with
      | Some v, Some vs => Some (v :: vs)
      | _, _ => None
      end
  end.

Definition stride (E : RunEnv) (elt : Pointee) : Z :=
  match elt with
  | PInt8 => 1
  | PPointer => env_bits E / 8
  | PElementOf p => env_stride E p
  end.

(** The position of the instruction after [ILabel bb]. *)
Fixpoint find_label (bb : nat) (code : list instr) : option nat :=
  match code with
  | [] => None
  | i :: rest =>
      match i with
      | ILabel l => if Nat.eqb l bb then Some 1%nat
                    else option_map S (find_label bb rest)
      | _ => option_map S (find_label bb rest)
      end
  end.

Fixpoint find_incoming (bb : nat) (l : list (operand * nat)) : option operand :=
  match l with
  | [] => None
  | (v, b) :: l' => if Nat.eqb b bb then Some v else find_incoming bb l'
  end.

Definition set_reg (m : machine) (r : nat) (v : rtval) : machine :=
  {| pc := S (pc m); cur_bb := cur_bb m; pred_bb := pred_bb m;
     regs := upd (regs m) r v; slots := slots m; trace := trace m |}.

Definition set_slot (m : machine) (r : nat) (v : rtval) : machine :=
  {| pc := S (pc m); cur_bb := cur_bb m; pred_bb := pred_bb m;
     regs := regs m; slots := upd (slots m) r v; trace := trace m |}.

Definition add_event (m : machine) (e : event) : machine :=
  {| pc := S (pc m); cur_bb := cur_bb m; pred_bb := pred_bb m;
     regs := regs m; slots := slots m; trace := trace m ++ [e] |}.

Definition enter (m : machine) (bb : nat) (at_pc : nat) : machine :=
  {| pc := at_pc; cur_bb := bb; pred_bb := cur_bb m;
     regs := regs m; slots := slots m; trace := trace m |}.

Definition jump (code : list instr) (m : machine) (bb : nat) : option machine :=
  match find_label bb code with
  | Some k => Some (enter m bb k)
  | None => None
  end.

Definition icmp (p : Predicate) (bits : Z) (x y : Z) : bool :=
  match p with
  | ICMP_EQ => wrap bits x =? wrap bits y
  | ICMP_NE => negb (wrap bits x =? wrap bits y)
  | ICMP_ULT => wrap bits x <? wrap bits y
  end.

(** One instruction.  The expression-level routines of other files have no
    meaning here: the machine is stuck on them. *)
Definition step (E : RunEnv) (code : list instr) (m : machine)
  : option machine :=
  match nth_error code (pc m) with
  | None => None
  | Some i =>
      match i with
      | IBitCast r v | IPtrToInt r v | IIntToPtr r v =>
          match eval E (regs m) v with
          | Some x => Some (set_reg m r x)
          | None => None
          end
      | IGEP r p idx elt =>
          match eval E (regs m) p, eval E (regs m) idx with
          | Some (RInt a), Some (RInt k) =>
              Some (set_reg m r (RInt (wrap (env_bits E) (a + k * stride E elt))))
          | _, _ => None
          end
      | ILoad r p =>
          match eval E (regs m) p with
          | Some (RSlot s) =>
              match slots m s with
              | Some x => Some (set_reg m r x)
              | None => None
              end
          | Some (RInt a) => Some (set_reg m r (env_load E a))
          | _ => None
          end
      | IStore v p =>
          match eval E (regs m) v, eval E (regs m) p with
          | Some x, Some (RSlot s) => Some (set_slot m s x)
          | Some x, Some (RInt a) => Some (add_event m (EvStore a x))
          | _, _ => None
          end
      | IAdd r bits a b =>
          match eval E (regs m) a, eval E (regs m) b with
          | Some (RInt x), Some (RInt y) =>
              Some (set_reg m r (RInt (wrap bits (x + y))))
          | _, _ => None
          end
      | ISub r bits a b =>
          match eval E (regs m) a, eval E (regs m) b with
          | Some (RInt x), Some (RInt y) =>
              Some (set_reg m r (RInt (wrap bits (x - y))))
          | _, _ => None
          end
      | IICmp r p bits a b =>
          match eval E (regs m) a, eval E (regs m) b with
          | Some (RInt x), Some (RInt y) =>
              Some (set_reg m r (RInt (if icmp p bits x y then 1 else 0)))
          | _, _ => None
          end
      | IPHI r incoming =>
          match find_incoming (pred_bb m) incoming with
          | Some v =>
              match eval E (regs m) v with
              | Some x => Some (set_reg m r x)
              | None => None
              end
          | None => None
          end
      | ICondBr c t f =>
          match eval E (regs m) c with
          | Some (RInt z) => jump code m (if z =? 0 then f else t)
          | _ => None
          end
      | IBr t => jump code m t
      | ILabel bb => Some (enter m bb (S (pc m)))
      | ICall callee args =>
          match eval_args E (regs m) args with
          | Some vs => Some (add_event m (EvCall callee vs))
          | None => None
          end
      | IAggregateCopy d s T =>
          match eval E (regs m) d, eval E (regs m) s with
          | Some x, Some y => Some (add_event m (EvAggregateCopy x y T))
          | _, _ => None
          end
      | ILValueForField r base F | ILValueForFieldInitialization r base F =>
          match eval E (regs m) base with
          | Some (RInt a) =>
              Some (set_reg m r (RInt (wrap (env_bits E) (a + env_field E F))))
          | _ => None
          end
      | IEHCleanupBlock _ =>
          (* not on the normal path *)
          Some {| pc := S (pc m); cur_bb := cur_bb m; pred_bb := pred_bb m;
                  regs := regs m; slots := slots m; trace := trace m |}
      | _ => None
      end
  end.

(** Run until control falls off the end of the code. *)
Fixpoint exec (E : RunEnv) (fuel : nat) (code : list instr) (m : machine)
  : option machine :=
  if (length code <=? pc m)%nat then Some m
  else
    match fuel with
    | O => None
    | S k =>
        match step E code m with
        | Some m' => exec E k code m'
        | None => None
        end
    end.

(** A machine about to run a piece of code from its first instruction. *)
Definition start (bb : nat) (rs : nat -> option rtval) : machine :=
  {| pc := 0; cur_bb := bb; pred_bb := bb; regs := rs;
     slots := fun _ => None; trace := [] |}.

(* ===================================================================== *)
(** * Definitions used to state the properties                            *)
(* ===================================================================== *)

(** The non-virtual offset of a path, as a number: what the loop of
    [ComputeNonVirtualBaseClassOffset] accumulates. *)
Fixpoint path_offset_from (CGM : CodeGenModule) (Path : CXXBasePath)
    (Offset : Z) : Z :=
  match Path with
  | [] => Offset
  | Element :: rest =>
      path_offset_from CGM rest
        (wrap 64 (Offset
                  + getBaseClassOffset CGM (Element_Class Element)
                      (getDecl (Element_Base Element)) / 8))
  end.

Definition path_offset (CGM : CodeGenModule) (Path : CXXBasePath) : Z :=
  path_offset_from CGM Path 0.

(** No step of the path crosses a virtual inheritance edge. *)
Definition path_is_nonvirtual (Path : CXXBasePath) : bool :=
  forallb (fun Element => negb (isVirtual (Element_Base Element))) Path.

(** An operand that the instructions emitted from builder state [s] on do
    not redefine. *)
Definition fresh_for (s : Builder) (v : operand) : Prop :=
  match v with
  | OReg r => (r < NextReg s)%nat
  | _ => True
  end.

(** The constant a pointer to [Derived] is adjusted by to reach its
    [Base] sub-object when the inheritance path crosses no virtual edge:
    zero for the class itself, the non-virtual offset of the path found
    otherwise. *)
Definition adjustment_offset (CGM : CodeGenModule)
    (Derived Base : CXXRecordDecl) : option Z :=
  if same_decl Derived Base then Some 0
  else
    match isDerivedFrom CGM Derived Base with
    | Some Path =>
        if path_is_nonvirtual Path then Some (path_offset CGM Path) else None
    | None => None
    end.

(** The builder state after [k] more instruction names were handed out. *)
Definition advance (s : Builder) (k : nat) : Builder :=
  {| NextReg := (k + NextReg s)%nat; NextBlock := NextBlock s |}.

(** The operation the array copy loop performs on one element: a flat
    copy for a bitwise-copyable class, a call of the copy constructor
    otherwise, and nothing when no copy constructor is found. *)
Definition element_copy (BaseClassDecl : CXXRecordDecl) (Ty : QualType)
    (dest src : rtval) : option event :=
  if hasTrivialCopyConstructor BaseClassDecl then
    Some (EvAggregateCopy dest src Ty)
  else
    match getCopyConstructor BaseClassDecl with
    | Some BaseCopyCtor =>
        Some (EvCall (GCtor BaseCopyCtor Ctor_Complete) [dest; src])
    | None => None
    end.

(** The address of element [i] of an array at [base], for the stride of
    the typed pointer [p]. *)
Definition element_address (E : RunEnv) (p : operand) (base i : Z) : rtval :=
  RInt (wrap (env_bits E) (base + i * env_stride E p)).

(* --------------------------------------------------------------------- *)
(** ** Example inputs                                                     *)

Definition ex_method (id parent : DeclID) : CXXMethodDecl :=
  {| method_id := id; method_parent := parent;
     method_param0_isReference := true |}.

(** A class with non-trivial special members ([trivial = false]) or with
    trivial ones, dynamic or not; its special members are numbered after
    the class. *)
Definition ex_data (trivial dynamic : bool) (id : DeclID) : DefinitionData :=
  {| hasTrivialCopyConstructor_ := trivial;
     hasTrivialCopyAssignment_ := trivial;
     hasTrivialDestructor_ := trivial;
     isDynamicClass_ := dynamic;
     hasUserDeclaredCopyConstructor_ := false;
     hasUserDeclaredCopyAssignment_ := false;
     getCopyConstructor_ := Some (ex_method (10 * id + 1)%nat id);
     constCopyAssignment_ := Some (ex_method (10 * id + 2)%nat id);
     getDestructor_ := Some (ex_method (10 * id + 3)%nat id) |}.

(** [struct A { virtual ~A(); int a; };  struct B { virtual ~B(); int b; };] *)
Definition ex_A : CXXRecordDecl :=
  mkCXXRecordDecl 1 [] [] [mkFieldDecl 100 (TBuiltin 0)] (ex_data false true 1).
Definition ex_B : CXXRecordDecl :=
  mkCXXRecordDecl 2 [] [] [mkFieldDecl 101 (TBuiltin 0)] (ex_data false true 2).

Definition ex_fa : FieldDecl := mkFieldDecl 102 (TRecord ex_A).
Definition ex_fb : FieldDecl := mkFieldDecl 103 (TConstantArray (TRecord ex_B) 3).

(** [struct C : A, B { A fa; B fb[3]; };] *)
Definition ex_C : CXXRecordDecl :=
  mkCXXRecordDecl 3
    [mkCXXBaseSpecifier false ex_A; mkCXXBaseSpecifier false ex_B] []
    [ex_fa; ex_fb] (ex_data false true 3).

(** [struct V { int v; };  struct D : virtual V { virtual ~D(); };] *)
Definition ex_V : CXXRecordDecl :=
  mkCXXRecordDecl 4 [] [] [mkFieldDecl 104 (TBuiltin 0)] (ex_data true false 4).
Definition ex_D : CXXRecordDecl :=
  mkCXXRecordDecl 5 [mkCXXBaseSpecifier true ex_V]
    [mkCXXBaseSpecifier true ex_V] [] (ex_data false true 5).

(** [struct W { ~W(); };  struct F : virtual W { virtual ~F(); };] *)
Definition ex_W : CXXRecordDecl :=
  mkCXXRecordDecl 6 [] [] [] (ex_data false false 6).
Definition ex_F : CXXRecordDecl :=
  mkCXXRecordDecl 7 [mkCXXBaseSpecifier true ex_W]
    [mkCXXBaseSpecifier true ex_W] [] (ex_data false true 7).

(** A 64-bit target: [A] is at offset 0 of [C] and [B] at 128 bits; the
    virtual bases are at 64 bits; no variant takes a VTT. *)
Definition ex_CGM : CodeGenModule :=
  {| PointerWidth := 64;
     BaseClassOffset := fun Class Base =>
       if Nat.eqb Class 3 && Nat.eqb Base 2 then 128 else 0;
     VBaseClassOffset := fun _ _ => 64;
     isDerivedFrom := fun Class Base =>
       if Nat.eqb (decl_id Class) 3 && Nat.eqb (decl_id Base) 1 then
         Some [{| Element_Base := mkCXXBaseSpecifier false ex_A;
                  Element_Class := ex_C |}]
       else if Nat.eqb (decl_id Class) 3 && Nat.eqb (decl_id Base) 2 then
         Some [{| Element_Base := mkCXXBaseSpecifier false ex_B;
                  Element_Class := ex_C |}]
       else None;
     getVirtualBaseOffsetIndex := fun _ _ => -24;
     needsVTTParameter := fun _ => false;
     getSubVTTIndex := fun _ _ => 1;
     AddressPoints := fun _ =>
       {[ (1%nat, 0) := 2; (2%nat, 128) := 6; (3%nat, 0) := 2;
          (5%nat, 0) := 3; (7%nat, 0) := 3 ]} |}.

(** Generating the complete-object constructor of [C], with exceptions. *)
Definition ex_CGF : CodeGenFunction :=
  {| CurFuncDecl := ex_method 30 3;
     CurGD := GD_Ctor (ex_method 30 3) Ctor_Complete;
     Exceptions := true;
     PointeeClass := fun V => match V with OThis => Some 3%nat | _ => None end |}.

(** Generating a member function of the class [Class], in which [this]
    points to an object of that class. *)
Definition ex_CGF_in (Class : DeclID) : CodeGenFunction :=
  {| CurFuncDecl := ex_method (10 * Class) Class;
     CurGD := GD_Ctor (ex_method (10 * Class) Class) Ctor_Complete;
     Exceptions := true;
     PointeeClass := fun V => match V with OThis => Some Class | _ => None end |}.

Definition ex_s : Builder := {| NextReg := 0; NextBlock := 0 |}.

(** A run in which [this] is 4096, the first caller-supplied value is
    4096 and the others 8192, elements are 16 bytes apart. *)
Definition ex_E : RunEnv :=
  {| env_bits := 64;
     env_arg := fun n => match n with O => RInt 4096 | _ => RInt 8192 end;
     env_this := RInt 4096;
     env_vtt := RInt 0;
     env_local := fun _ => RInt 0;
     env_load := fun _ => RInt 0;
     env_stride := fun _ => 16;
     env_field := fun _ => 0 |}.

Definition ex_regs : nat -> option rtval := fun _ => None.

(* --------------------------------------------------------------------- *)
(** ** What is read off the emitted instructions                          *)

(** [chain f l s s' outs]: emitting [f x] for the elements [x] of [l], in
    order and starting in state [s], succeeds and ends in [s']; [outs]
    lists, element by element, the instructions emitted. *)
Inductive chain {A} (f : A -> M unit)
  : list A -> Builder -> Builder -> list (list instr) -> Prop :=
| chain_nil s : chain f [] s s []
| chain_cons x l s s1 s2 o os :
    f x s = Ok tt s1 o -> chain f l s1 s2 os ->
    chain f (x :: l) s s2 (o :: os).

(** A store of a vtable address point: the installation of a vtable
    pointer. *)
Definition is_vtable_store (i : instr) : bool :=
  match i with
  | IStore (OConstGEP2 (GVtable _) _ _) _ => true
  | _ => false
  end.

(** An instruction that belongs to the initialization of a base or of a
    member. *)
Definition is_initializer_instr (i : instr) : bool :=
  match i with
  | IAggExpr _ _ | IMemSetToZero _ _ | IScalarExpr _ _
  | IReferenceBindingToExpr _ _ | IComplexExprIntoAddr _ _
  | IStoreThroughLValue _ _ _ | ILValueForFieldInitialization _ _ _
  | ILValueForField _ _ _ | IEHCleanupBlock _ => true
  | _ => false
  end.

(** An instruction of an address computation. *)
Definition is_address_instr (i : instr) : bool :=
  match i with
  | IBitCast _ _ | IGEP _ _ _ _ | ILoad _ _ | IAdd _ _ _ _ | ISub _ _ _ _
  | IPtrToInt _ _ | IIntToPtr _ _ | IICmp _ _ _ _ _ | IPHI _ _
  | ICondBr _ _ _ | IBr _ | ILabel _ => true
  | _ => false
  end.

(** The fields whose initialization starts in a piece of code, in order:
    a member initializer first takes the address of its field in [this]. *)
Definition initialized_fields (out : list instr) : list DeclID :=
  omap (fun i => match i with
                 | ILValueForFieldInitialization _ OThis F => Some F
                 | _ => None
                 end) out.

(** The fields whose address in [this] is taken for destruction. *)
Definition destroyed_fields (out : list instr) : list DeclID :=
  omap (fun i => match i with
                 | ILValueForField _ OThis F => Some F
                 | _ => None
                 end) out.

(** The initializing expressions evaluated into a sub-object, in order. *)
Definition initializer_exprs (out : list instr) : list (option Expr) :=
  omap (fun i => match i with
                 | IAggExpr e _ => Some e
                 | _ => None
                 end) out.

(** The destructor calls of a piece of code, in order. *)
Definition destructor_calls (out : list instr)
  : list (CXXMethodDecl * CXXDtorType) :=
  omap (fun i => match i with
                 | ICall (GDtor D T) _ => Some (D, T)
                 | _ => None
                 end) out.

(** [EmitBaseInitializer] emits nothing for this initializer: it targets a
    virtual base and the constructor is the base-object variant. *)
Definition base_initializer_skipped (ClassDecl : CXXRecordDecl)
    (CtorType : CXXCtorType) (I : CXXBaseOrMemberInitializer) : bool :=
  match init_target I with
  | BaseTarget BaseClassDecl =>
      CXXCtorType_eqb CtorType Ctor_Base
      && existsb (fun V => same_decl (getDecl V) BaseClassDecl)
           (vbases ClassDecl)
  | MemberTarget _ _ => false
  end.

(** The field a member initializer names ([getMember]). *)
Definition initializer_field (I : CXXBaseOrMemberInitializer) : option DeclID :=
  match init_target I with
  | MemberTarget Member _ => Some (field_id Member)
  | BaseTarget _ => None
  end.

(** The class a base initializer names ([getBaseClass]). *)
Definition initializer_base (I : CXXBaseOrMemberInitializer) : option DeclID :=
  match init_target I with
  | BaseTarget BaseClassDecl => Some (decl_id BaseClassDecl)
  | MemberTarget _ _ => None
  end.

(* --------------------------------------------------------------------- *)
(** ** The vtable-pointer installer, as the design describes it           *)

(** The sub-objects visited from a class at a running offset (in bits):
    nothing for a class that is not dynamic; otherwise the non-virtual
    bases in declaration order, each at the running offset plus its offset
    in the class, virtual edges being skipped, and then the class itself. *)
Fixpoint vtable_visits (CGM : CodeGenModule) (ClassDecl : CXXRecordDecl)
    (Offset : Z) {struct ClassDecl} : list (DeclID * Z) :=
  if negb (isDynamicClass ClassDecl) then []
  else
    (match ClassDecl with
     | mkCXXRecordDecl _ bs _ _ _ =>
         (fix bases_visits (l : list CXXBaseSpecifier) : list (DeclID * Z) :=
            match l with
            | [] => []
            | Base :: l' =>
                match Base with
                | mkCXXBaseSpecifier virt BaseClassDecl =>
                    if virt then []
                    else
                      vtable_visits CGM BaseClassDecl
                        (wrap 64 (Offset
                                  + getBaseClassOffset CGM ClassDecl BaseClassDecl))
                end ++ bases_visits l'
            end) bs
     end) ++ [(decl_id ClassDecl, Offset)].

(** The whole walk: each virtual base once, at its offset in the complete
    object, then the class itself from offset 0. *)
Definition vtable_pointer_plan (CGM : CodeGenModule)
    (ClassDecl : CXXRecordDecl) : list (DeclID * Z) :=
  if negb (isDynamicClass ClassDecl) then []
  else
    concat (map (fun Base =>
                   vtable_visits CGM (getDecl Base)
                     (getVBaseClassOffset CGM ClassDecl (getDecl Base)))
                (vbases ClassDecl))
    ++ vtable_visits CGM ClassDecl 0.

(** The instructions that store [AddressPoint] of [Vtable] into the
    vtable-pointer field at [this + Offset / 8], named from [r] on. *)
Definition vtable_store_code (Vtable : GlobalRef) (r : nat)
    (Offset AddressPoint : Z) : list instr :=
  [IBitCast r OThis;
   IGEP (S r) (OReg r) (OInt (Offset / 8)) PInt8;
   IBitCast (S (S r)) (OReg (S r));
   IStore (OConstGEP2 Vtable 0 AddressPoint) (OReg (S (S r)))].

Fixpoint vtable_stores_code (Vtable : GlobalRef)
    (AddressPoints : gmap (DeclID * Z) Z) (r : nat)
    (plan : list (DeclID * Z)) : list instr :=
  match plan with
  | [] => []
  | key :: rest =>
      vtable_store_code Vtable r (snd key) (default 0 (AddressPoints !! key))
      ++ vtable_stores_code Vtable AddressPoints (3 + r) rest
  end.

(** What running these instructions does: one store per planned visit. *)
Definition vtable_store_event (E : RunEnv) (Vtable : GlobalRef)
    (AddressPoints : gmap (DeclID * Z) Z) (this : Z) (key : DeclID * Z)
  : event :=
  EvStore (wrap (env_bits E) (this + snd key / 8))
    (RAddrConst Vtable 0 (default 0 (AddressPoints !! key))).

(** Every planned visit has its address point in the table. *)
Definition address_points_present (AddressPoints : gmap (DeclID * Z) Z)
    (plan : list (DeclID * Z)) : bool :=
  forallb (fun key => isSome (AddressPoints !! key)) plan.

(* --------------------------------------------------------------------- *)
(** ** Orders of initialization, as the design describes them             *)

(** [ids] lists declarations in the order of [decls], possibly leaving
    some of them out. *)
Fixpoint in_declaration_order (ids decls : list DeclID) : bool :=
  match ids, decls with
  | [], _ => true
  | _ :: _, [] => false
  | i :: ids', d :: decls' =>
      if Nat.eqb i d then in_declaration_order ids' decls'
      else in_declaration_order ids decls'
  end.

(** The initializer targets the class of this base specifier. *)
Definition targets_base (Base : CXXBaseSpecifier)
    (I : CXXBaseOrMemberInitializer) : bool :=
  match init_target I with
  | BaseTarget BaseClassDecl => same_decl (getDecl Base) BaseClassDecl
  | MemberTarget _ _ => false
  end.



(** Initializers for the bases and the members of [C], and constructors
    of [C] that list them in declaration order and against it. *)
Definition ex_expr (n : nat) (T : QualType) : Expr :=
  {| expr_id := n; expr_type := T |}.
Definition ex_init_A : CXXBaseOrMemberInitializer :=
  {| init_target := BaseTarget ex_A;
     getInit := Some (ex_expr 1 (TRecord ex_A)) |}.
Definition ex_init_B : CXXBaseOrMemberInitializer :=
  {| init_target := BaseTarget ex_B;
     getInit := Some (ex_expr 2 (TRecord ex_B)) |}.
Definition ex_init_fa : CXXBaseOrMemberInitializer :=
  {| init_target := MemberTarget ex_fa None;
     getInit := Some (ex_expr 3 (TRecord ex_A)) |}.
Definition ex_init_fb : CXXBaseOrMemberInitializer :=
  {| init_target := MemberTarget ex_fb None; getInit := None |}.

Definition ex_ctor (inits : list CXXBaseOrMemberInitializer)
  : CXXConstructorDecl :=
  {| ctor_decl := ex_method 30 3;
     ctor_parent := ex_C;
     ctor_isTrivial := false;
     ctor_isDefaultConstructor := true;
     ctor_isCopyConstructor := false;
     ctor_isImplicit := false;
     ctor_inits := inits |}.

(* --------------------------------------------------------------------- *)
(** ** Calls and what they are given                                      *)

(** The calls of a piece of code with their arguments, in order. *)
Definition calls (out : list instr) : list (GlobalRef * list RValue) :=
  omap (fun i => match i with
                 | ICall Callee Args => Some (Callee, Args)
                 | _ => None
                 end) out.

(** The VTT parameter of the function being generated, or an entry of a
    VTT taken by name: the two values [GetVTTParameter] builds on. *)
Definition is_VTT_operand (o : operand) : bool :=
  match o with
  | OVTT | OConstGEP2 (GVTT _) _ _ => true
  | _ => false
  end.

(** An instruction that indexes the VTT parameter, or a call that is given
    an entry of a VTT. *)
Definition uses_VTT (i : instr) : bool :=
  match i with
  | IGEP _ p _ _ => is_VTT_operand p
  | ICall _ Args => existsb (fun a => is_VTT_operand (RValue_operand a)) Args
  | _ => false
  end.

(** An instruction of an address computation that does not touch a VTT. *)
Definition is_plain_address_instr (i : instr) : bool :=
  is_address_instr i && negb (uses_VTT i).

(** What an instruction of a copy assignment may be: not the store of a
    vtable pointer, not a use of a VTT, and if a call, a call with two
    arguments. *)
Definition is_assignment_instr (i : instr) : bool :=
  negb (is_vtable_store i) && negb (uses_VTT i) &&
  match i with
  | ICall _ Args => Nat.eqb (length Args) 2
  | _ => true
  end.

(** The flat copies of a piece of code, in order. *)
Definition aggregate_copies (out : list instr)
  : list (operand * operand * QualType) :=
  omap (fun i => match i with
                 | IAggregateCopy Dest Src T => Some (Dest, Src, T)
                 | _ => None
                 end) out.

(* --------------------------------------------------------------------- *)
(** ** The destructor calls of the epilogue                               *)

(** The destructor call for a collected field: the complete-object
    destructor of the class of the field or of its elements. *)
Definition field_destructor_call (Field : FieldDecl)
  : list (CXXMethodDecl * CXXDtorType) :=
  match getAsRecordDecl (getBaseElementType (getType Field)) with
  | Some FieldClassDecl =>
      match getDestructor FieldClassDecl with
      | Some D => [(D, Dtor_Complete)]
      | None => []
      end
  | None => []
  end.

(** The destructor call for a base specifier in the base-object
    destructor: none for a virtual base, none for a trivial destructor. *)
Definition base_destructor_call (Base : CXXBaseSpecifier)
  : list (CXXMethodDecl * CXXDtorType) :=
  if isVirtual Base then []
  else if hasTrivialDestructor (getDecl Base) then []
  else match getDestructor (getDecl Base) with
       | Some D => [(D, Dtor_Base)]
       | None => []
       end.

(** The destructor call for a virtual base in the complete-object
    destructor: none for a trivial destructor. *)
Definition vbase_destructor_call (Base : CXXBaseSpecifier)
  : list (CXXMethodDecl * CXXDtorType) :=
  if hasTrivialDestructor (getDecl Base) then []
  else match getDestructor (getDecl Base) with
       | Some D => [(D, Dtor_Base)]
       | None => []
       end.

(** The destructor of an example class. *)
Definition ex_dtor (ClassDecl : CXXRecordDecl) : CXXDestructorDecl :=
  {| dtor_decl := ex_method (10 * decl_id ClassDecl + 3)%nat (decl_id ClassDecl);
     dtor_parent := ClassDecl;
     dtor_isTrivial := false;
     dtor_OperatorDelete := Some 900%nat |}.

(** The initializer of the virtual base [W] of [F]. *)
Definition ex_init_W : CXXBaseOrMemberInitializer :=
  {| init_target := BaseTarget ex_W;
     getInit := Some (ex_expr 4 (TRecord ex_W)) |}.

(** The copy of a sub-object of class [BaseClassDecl] takes a VTT: its
    copy constructor is not trivial and the variant called (the
    base-object constructor for a base, the complete-object constructor
    for a field) needs a VTT parameter. *)
Definition copy_takes_VTT (CGM : CodeGenModule)
    (ClassDecl : option CXXRecordDecl) (BaseClassDecl : CXXRecordDecl) : bool :=
  negb (hasTrivialCopyConstructor BaseClassDecl) &&
  match getCopyConstructor BaseClassDecl with
  | Some BaseCopyCtor =>
      needsVTTParameter CGM
        (GD_Ctor BaseCopyCtor
           (if isSome ClassDecl then Ctor_Base else Ctor_Complete))
  | None => false
  end.

(** A module in which the base-object constructors of [B] take a VTT. *)
Definition ex_CGM_VTT : CodeGenModule :=
  {| PointerWidth := PointerWidth ex_CGM;
     BaseClassOffset := BaseClassOffset ex_CGM;
     VBaseClassOffset := VBaseClassOffset ex_CGM;
     isDerivedFrom := isDerivedFrom ex_CGM;
     getVirtualBaseOffsetIndex := getVirtualBaseOffsetIndex ex_CGM;
     needsVTTParameter := fun GD =>
       match GD with
       | GD_Ctor D Ctor_Base => Nat.eqb (method_parent D) 2
       | _ => false
       end;
     getSubVTTIndex := getSubVTTIndex ex_CGM;
     AddressPoints := AddressPoints ex_CGM |}.

(** The implicit copy constructor of [C]. *)
Definition ex_copy_ctor : CXXConstructorDecl :=
  {| ctor_decl := ex_method 31 3;
     ctor_parent := ex_C;
     ctor_isTrivial := false;
     ctor_isDefaultConstructor := false;
     ctor_isCopyConstructor := true;
     ctor_isImplicit := true;
     ctor_inits := [] |}.

(** Generating the complete-object copy constructor of [C]. *)
Definition ex_CGF_copy : CodeGenFunction :=
  {| CurFuncDecl := ex_method 31 3;
     CurGD := GD_Ctor (ex_method 31 3) Ctor_Complete;
     Exceptions := true;
     PointeeClass := fun V => match V with OThis => Some 3%nat | _ => None end |}.

(* --------------------------------------------------------------------- *)
(** ** Flat copies and copies sub-object by sub-object                    *)

(** Modelled from the spec: the memory a copy acts on, one byte per
    address, and the flat copy of [EmitAggregateCopy], which is not part
    of the translated file: "a flat byte-range copy of sizeof(type)
    bytes" from the source to the destination. *)
Definition memory := Z -> Byte.byte.

(** Modelled from the spec: the flat byte-range copy of [size] bytes from
    [src] to [dest], all bytes being read before any is written. *)
Definition copy_bytes (mem : memory) (dest src size : Z) : memory :=
  fun a =>
    if (dest <=? a) && (a <? dest + size) then mem (src + (a - dest))
    else mem a.

(** Modelled from the spec: a sub-object (a base or a field) of an
    object, by its offset and its size in bytes; the layout of a class is
    computed outside the translated file. *)
Record SubObject := { sub_offset : Z; sub_size : Z }.

(** Modelled from the spec: "copying each sub-object individually", one
    flat copy per sub-object, one after the other. *)
Definition copy_subobjects (mem : memory) (dest src : Z)
    (subs : list SubObject) : memory :=
  fold_left (fun m o => copy_bytes m (dest + sub_offset o)
                          (src + sub_offset o) (sub_size o))
    subs mem.

(** The byte at this offset of the object belongs to a sub-object. *)
Definition in_subobject (subs : list SubObject) (off : Z) : bool :=
  existsb (fun o => (sub_offset o <=? off) && (off <? sub_offset o + sub_size o))
    subs.

(** The sub-objects lie inside an object of [size] bytes. *)
Definition subobjects_in_range (subs : list SubObject) (size : Z) : bool :=
  forallb (fun o => (0 <=? sub_offset o) && (0 <=? sub_size o)
                    && (sub_offset o + sub_size o <=? size)) subs.

(** The source and the destination objects do not overlap. *)
Definition disjoint_objects (dest src size : Z) : bool :=
  (dest + size <=? src) || (src + size <=? dest).

(** The address is observable in the destination: it is not a padding
    byte of the destination object. *)
Definition observable (subs : list SubObject) (dest size a : Z) : bool :=
  in_subobject subs (a - dest) || negb ((dest <=? a) && (a <? dest + size)).

(** What the events of a run do to the memory: a flat copy copies
    [size_of T] bytes; calls and stores are not interpreted. *)
Definition apply_event (size_of : QualType -> Z) (mem : memory) (e : event)
  : memory :=
  match e with
  | EvAggregateCopy (RInt d) (RInt s) T => copy_bytes mem d s (size_of T)
  | _ => mem
  end.

Definition apply_trace (size_of : QualType -> Z) (mem : memory)
    (t : list event) : memory :=
  fold_left (apply_event size_of) t mem.

(** The trivial copy constructor of [V]. *)
Definition ex_trivial_copy_ctor : CXXConstructorDecl :=
  {| ctor_decl := ex_method 41 4;
     ctor_parent := ex_V;
     ctor_isTrivial := true;
     ctor_isDefaultConstructor := false;
     ctor_isCopyConstructor := true;
     ctor_isImplicit := true;
     ctor_inits := [] |}.

(** [struct L : virtual W {};  struct R : virtual W {};
     struct Diamond : L, R {};]: [W] is reached through the two
    non-virtual bases and is the one virtual base of [Diamond]. *)
Definition ex_L : CXXRecordDecl :=
  mkCXXRecordDecl 8 [mkCXXBaseSpecifier true ex_W]
    [mkCXXBaseSpecifier true ex_W] [] (ex_data false true 8).
Definition ex_R : CXXRecordDecl :=
  mkCXXRecordDecl 9 [mkCXXBaseSpecifier true ex_W]
    [mkCXXBaseSpecifier true ex_W] [] (ex_data false true 9).
Definition ex_Diamond : CXXRecordDecl :=
  mkCXXRecordDecl 10
    [mkCXXBaseSpecifier false ex_L; mkCXXBaseSpecifier false ex_R]
    [mkCXXBaseSpecifier true ex_W] [] (ex_data false true 10).

(* --------------------------------------------------------------------- *)
(** ** The initializer list handed over by semantic analysis              *)

(** The numbers of the list are pairwise different. *)
Fixpoint distinct (l : list DeclID) : bool :=
  match l with
  | [] => true
  | x :: l' => negb (existsb (Nat.eqb x) l') && distinct l'
  end.

(** The declarations of the direct bases and of the fields of a class,
    in declaration order. *)
Definition base_ids (ClassDecl : CXXRecordDecl) : list DeclID :=
  map (fun Base => decl_id (getDecl Base)) (bases ClassDecl).
Definition field_ids (ClassDecl : CXXRecordDecl) : list DeclID :=
  map field_id (fields ClassDecl).

(** The initializer targets a virtual base of the class. *)
Definition initializer_of_virtual_base (ClassDecl : CXXRecordDecl)
    (I : CXXBaseOrMemberInitializer) : bool :=
  match init_target I with
  | BaseTarget BaseClassDecl =>
      existsb (fun V => same_decl (getDecl V) BaseClassDecl) (vbases ClassDecl)
  | MemberTarget _ _ => false
  end.

(** The code, among the pieces emitted one after the other for the
    elements of [l], of the elements that [sel] selects. *)
Definition pieces_of {A} (sel : A -> bool) (l : list A)
    (os : list (list instr)) : list instr :=
  concat (map snd (List.filter (fun p => sel (fst p)) (combine l os))).

(** The bases for which the base-object destructor calls a destructor,
    in the order of the calls: from the last base to the first, the
    non-virtual bases whose destructor is not trivial. *)
Definition destroyed_bases (ClassDecl : CXXRecordDecl) : list DeclID :=
  map (fun Base => decl_id (getDecl Base))
    (List.filter (fun Base => negb (isVirtual Base)
                              && negb (hasTrivialDestructor (getDecl Base)))
       (rev (bases ClassDecl))).

(** [destroyed] is the reverse of [constructed], as far as the two lists
    have the same declarations: the declarations of [destroyed] that are
    constructed are those of [constructed] that are destroyed, in the
    reverse order. *)
Definition occurs (x : DeclID) (l : list DeclID) : bool :=
  existsb (Nat.eqb x) l.
Definition reverse_order (constructed destroyed : list DeclID) : Prop :=
  List.filter (fun x => occurs x constructed) destroyed
  = rev (List.filter (fun x => occurs x destroyed) constructed).

(** The initializers of [Diamond] as semantic analysis lists them for the
    complete object: the virtual base [W], then [L] and [R]. *)
Definition ex_init_L : CXXBaseOrMemberInitializer :=
  {| init_target := BaseTarget ex_L;
     getInit := Some (ex_expr 6 (TRecord ex_L)) |}.
Definition ex_init_R : CXXBaseOrMemberInitializer :=
  {| init_target := BaseTarget ex_R;
     getInit := Some (ex_expr 7 (TRecord ex_R)) |}.
(** The layout of [Diamond]: [L] at offset 0, [R] at 64 bits, the
    virtual base [W] at 128 bits; no variant takes a VTT. *)
Definition ex_CGM_Diamond : CodeGenModule :=
  {| PointerWidth := 64;
     BaseClassOffset := fun Class Base =>
       if Nat.eqb Class 10 && Nat.eqb Base 9 then 64 else 0;
     VBaseClassOffset := fun _ _ => 128;
     isDerivedFrom := fun _ _ => None;
     getVirtualBaseOffsetIndex := fun _ _ => -24;
     needsVTTParameter := fun _ => false;
     getSubVTTIndex := fun _ _ => 1;
     AddressPoints := fun _ =>
       {[ (8%nat, 0) := 3; (9%nat, 64) := 7; (10%nat, 0) := 3 ]} |}.
Definition ex_ctor_Diamond : CXXConstructorDecl :=
  {| ctor_decl := ex_method 100 10;
     ctor_parent := ex_Diamond;
     ctor_isTrivial := false;
     ctor_isDefaultConstructor := true;
     ctor_isCopyConstructor := false;
     ctor_isImplicit := false;
     ctor_inits := [ex_init_W; ex_init_L; ex_init_R] |}.

(* ===================================================================== *)
(** * More of CGClass.cpp                                                 *)
(* ===================================================================== *)

(** A [uint64_t] read as an [int64_t]. *)
Definition to_int64 (z : Z) : Z :=
  let w := wrap 64 z in if w <? 2 ^ 63 then w else w - 2 ^ 64.

(** [ThunkAdjustment], declared outside the translated file: the
    non-virtual adjustment and the offset of the virtual-base-offset slot,
    both [int64_t]. *)
Record ThunkAdjustment := { NonVirtual : Z; Virtual : Z }.

Section CGClassMore.

Variable CGM : CodeGenModule.
Variable CGF : CodeGenFunction.

(** [CodeGenModule::ComputeThunkAdjustment] *)
Definition ComputeThunkAdjustment (ClassDecl BaseClassDecl : CXXRecordDecl)
  : M ThunkAdjustment :=
  match isDerivedFrom CGM ClassDecl BaseClassDecl with
  | None => abort "Class must be derived from the passed in base class!"
  | Some Path =>
      let '(Start, VBase) := find_virtual_base Path 0 0 None in
      let VirtualOffset :=
        if isSome VBase then
          wrap 64 (getVirtualBaseOffsetIndex CGM (decl_id ClassDecl)
                     (decl_id BaseClassDecl))
        else 0 in
      Offset <- ComputeNonVirtualBaseClassOffset CGM Path Start ;;
      ret {| NonVirtual := to_int64 Offset; Virtual := to_int64 VirtualOffset |}
  end.

(** [EmitCXXAggrConstructorCall] with a run-time element count: a loop
    that calls the constructor on the elements of the array, first to
    last.  (The temporaries of the argument expressions are popped after
    each call; expression emission is atomic here and leaves none.) *)
Definition EmitCXXAggrConstructorCall_count (D : CXXConstructorDecl)
    (NumElements ArrayPtr : operand) (Args : list Expr) : M unit :=
  let SizeTy := PointerWidth CGM in
  (* Create a temporary for the loop index and initialize it with 0. *)
  IndexPtr <- CreateTempAlloca ;;
  let Zero := OInt 0 in
  CreateStore Zero IndexPtr ;;
  (* Start the loop with a block that tests the condition. *)
  CondBlock <- createBasicBlock ;;
  AfterFor <- createBasicBlock ;;
  EmitBlock CondBlock ;;
  ForBody <- createBasicBlock ;;
  (* if loop-index < number-of-elements fall to the loop body,
     otherwise go to the block after the for-loop. *)
  Counter <- CreateLoad IndexPtr ;;
  IsLess <- CreateICmp ICMP_ULT SizeTy Counter NumElements ;;
  CreateCondBr IsLess ForBody AfterFor ;;
  EmitBlock ForBody ;;
  ContinueBlock <- createBasicBlock ;;
  (* Inside the loop body, emit the constructor call on the array element. *)
  Counter <- CreateLoad IndexPtr ;;
  Address <- CreateGEP ArrayPtr Counter (PElementOf ArrayPtr) ;;
  EmitCXXConstructorCall CGM CGF D Ctor_Complete Address Args ;;
  EmitBlock ContinueBlock ;;
  (* Emit the increment of the loop counter. *)
  let NextVal := OInt (wrap SizeTy 1) in
  Counter <- CreateLoad IndexPtr ;;
  NextVal <- CreateAdd SizeTy Counter NextVal ;;
  CreateStore NextVal IndexPtr ;;
  (* Finally, branch back up to the condition for the next iteration. *)
  EmitBranch CondBlock ;;
  (* Emit the fall-through block. *)
  EmitBlock AfterFor.

(** [EmitCXXAggrConstructorCall] on a fixed-size array type. *)
Definition EmitCXXAggrConstructorCall (D : CXXConstructorDecl)
    (ArrayTy : QualType) (ArrayPtr : operand) (Args : list Expr) : M unit :=
  let SizeTy := PointerWidth CGM in
  let NumElements :=
    OInt (wrap SizeTy (getConstantArrayElementCount ArrayTy)) in
  EmitCXXAggrConstructorCall_count D NumElements ArrayPtr Args.

End CGClassMore.

(* --------------------------------------------------------------------- *)
(** ** Paths with virtual steps                                           *)

(** The steps of a path that come after its last virtual step; the whole
    path when it has no virtual step. *)
Fixpoint after_last_virtual (Path : CXXBasePath) : CXXBasePath :=
  match Path with
  | [] => []
  | Element :: rest =>
      if path_is_nonvirtual rest then
        if isVirtual (Element_Base Element) then rest else Element :: rest
      else after_last_virtual rest
  end.

(** [struct E1 : virtual V { virtual ~E1(); };  struct G : E1, A {};]
    and a module in which [V] is reached from [G] through [E1], and [A]
    from [G] directly, 64 bits into [G]. *)
Definition ex_E1 : CXXRecordDecl :=
  mkCXXRecordDecl 11 [mkCXXBaseSpecifier true ex_V]
    [mkCXXBaseSpecifier true ex_V] [] (ex_data false true 11).
Definition ex_G : CXXRecordDecl :=
  mkCXXRecordDecl 12
    [mkCXXBaseSpecifier false ex_E1; mkCXXBaseSpecifier false ex_A]
    [mkCXXBaseSpecifier true ex_V] [] (ex_data false true 12).
Definition ex_path_G_V : CXXBasePath :=
  [{| Element_Base := mkCXXBaseSpecifier false ex_E1; Element_Class := ex_G |};
   {| Element_Base := mkCXXBaseSpecifier true ex_V; Element_Class := ex_E1 |}].
Definition ex_path_G_A : CXXBasePath :=
  [{| Element_Base := mkCXXBaseSpecifier false ex_A; Element_Class := ex_G |}].
Definition ex_CGM_G : CodeGenModule :=
  {| PointerWidth := 64;
     BaseClassOffset := fun Class Base =>
       if Nat.eqb Class 12 && Nat.eqb Base 1 then 64 else 0;
     VBaseClassOffset := fun _ _ => 128;
     isDerivedFrom := fun Class Base =>
       if Nat.eqb (decl_id Class) 12 && Nat.eqb (decl_id Base) 4 then
         Some ex_path_G_V
       else if Nat.eqb (decl_id Class) 12 && Nat.eqb (decl_id Base) 1 then
         Some ex_path_G_A
       else None;
     getVirtualBaseOffsetIndex := fun _ _ => -24;
     needsVTTParameter := fun _ => false;
     getSubVTTIndex := fun _ _ => 1;
     AddressPoints := fun _ => ∅ |}.

(** The class of the last virtual step of a path, if it has one. *)
Fixpoint last_virtual_base (Path : CXXBasePath) : option CXXRecordDecl :=
  match Path with
  | [] => None
  | Element :: rest =>
      match last_virtual_base rest with
      | Some VBase => Some VBase
      | None =>
          if isVirtual (Element_Base Element)
          then Some (getDecl (Element_Base Element))
          else None
      end
  end.

(** A run in which the object at 4096 has its vtable at 20480 and the
    virtual-base-offset slot 24 bytes before the vtable's address point
    holds 32. *)
Definition ex_E_vbase : RunEnv :=
  {| env_bits := 64;
     env_arg := fun _ => RInt 4096;
     env_this := RInt 4096;
     env_vtt := RInt 0;
     env_local := fun _ => RInt 0;
     env_load := fun a =>
       if a =? 4096 then RInt 20480
       else if a =? 20456 then RInt 32 else RInt 0;
     env_stride := fun _ => 16;
     env_field := fun _ => 0 |}.

(* --------------------------------------------------------------------- *)
(** ** What the array loops do to one element                             *)

(** The operation the array assignment loop performs on one element: a
    flat copy for a class with a trivial copy assignment, a call of the
    copy-assignment operator otherwise. *)
Definition element_assign (BaseClassDecl : CXXRecordDecl) (Ty : QualType)
    (dest src : rtval) : option event :=
  if hasTrivialCopyAssignment BaseClassDecl then
    Some (EvAggregateCopy dest src Ty)
  else
    match hasConstCopyAssignment BaseClassDecl with
    | Some MD => Some (EvCall (GFunction MD) [dest; src])
    | None => None
    end.

(** The operation the array construction loop performs on one element
    with no arguments: nothing for a trivial constructor, a call of the
    complete-object constructor otherwise. *)
Definition element_construct (D : CXXConstructorDecl) (addr : rtval)
  : option event :=
  if ctor_isTrivial D then None
  else Some (EvCall (GCtor (ctor_decl D) Ctor_Complete) [addr]).

(** The default constructor of [B]. *)
Definition ex_default_ctor : CXXConstructorDecl :=
  {| ctor_decl := ex_method 20 2;
     ctor_parent := ex_B;
     ctor_isTrivial := false;
     ctor_isDefaultConstructor := true;
     ctor_isCopyConstructor := false;
     ctor_isImplicit := false;
     ctor_inits := [] |}.

(** Generating the base-object constructor of [C] in a module in which it
    is handed a VTT, as are the base-object constructors of [B]. *)
Definition ex_CGM_VTT_param : CodeGenModule :=
  {| PointerWidth := PointerWidth ex_CGM;
     BaseClassOffset := BaseClassOffset ex_CGM;
     VBaseClassOffset := VBaseClassOffset ex_CGM;
     isDerivedFrom := isDerivedFrom ex_CGM;
     getVirtualBaseOffsetIndex := getVirtualBaseOffsetIndex ex_CGM;
     needsVTTParameter := fun GD =>
       match GD with
       | GD_Ctor D Ctor_Base => true
       | _ => false
       end;
     getSubVTTIndex := fun _ _ => 2;
     AddressPoints := AddressPoints ex_CGM |}.
Definition ex_CGF_base : CodeGenFunction :=
  {| CurFuncDecl := ex_method 30 3;
     CurGD := GD_Ctor (ex_method 30 3) Ctor_Base;
     Exceptions := true;
     PointeeClass := fun V => match V with OThis => Some 3%nat | _ => None end |}.

(** The module of [C] with the address point of the [B] sub-object
    missing from the table. *)
Definition ex_CGM_missing : CodeGenModule :=
  {| PointerWidth := PointerWidth ex_CGM;
     BaseClassOffset := BaseClassOffset ex_CGM;
     VBaseClassOffset := VBaseClassOffset ex_CGM;
     isDerivedFrom := isDerivedFrom ex_CGM;
     getVirtualBaseOffsetIndex := getVirtualBaseOffsetIndex ex_CGM;
     needsVTTParameter := needsVTTParameter ex_CGM;
     getSubVTTIndex := getSubVTTIndex ex_CGM;
     AddressPoints := fun _ => {[ (1%nat, 0) := 2; (3%nat, 0) := 2 ]} |}.

(** The trivial default constructor of [V]. *)
Definition ex_trivial_default_ctor : CXXConstructorDecl :=
  {| ctor_decl := ex_method 40 4;
     ctor_parent := ex_V;
     ctor_isTrivial := true;
     ctor_isDefaultConstructor := true;
     ctor_isCopyConstructor := false;
     ctor_isImplicit := true;
     ctor_inits := [] |}.

(* --------------------------------------------------------------------- *)
(** ** Exception cleanups                                                 *)

Definition is_cleanup (i : instr) : bool :=
  match i with IEHCleanupBlock _ => true | _ => false end.

(** The destructor calls a piece of code registers as exception
    cleanups, in order. *)
Definition cleanup_destructor_calls (out : list instr)
  : list (CXXMethodDecl * CXXDtorType) :=
  concat (omap (fun i => match i with
                         | IEHCleanupBlock body => Some (destructor_calls body)
                         | _ => None
                         end) out).

(** The cleanup a base initializer registers: the base-object destructor
    of the base, when exceptions are enabled, the initializer is not
    skipped and the destructor of the base is not trivial. *)
Definition base_initializer_cleanup (CGF : CodeGenFunction)
    (ClassDecl : CXXRecordDecl) (CtorType : CXXCtorType)
    (I : CXXBaseOrMemberInitializer) : list (CXXMethodDecl * CXXDtorType) :=
  match init_target I with
  | BaseTarget BaseClassDecl =>
      if Exceptions CGF
         && negb (base_initializer_skipped ClassDecl CtorType I)
         && negb (hasTrivialDestructor BaseClassDecl)
      then match getDestructor BaseClassDecl with
           | Some D => [(D, Dtor_Base)]
           | None => []
           end
      else []
  | MemberTarget _ _ => []
  end.

(** Code generation with exceptions disabled. *)
Definition ex_CGF_noexc : CodeGenFunction :=
  {| CurFuncDecl := ex_method 30 3;
     CurGD := GD_Ctor (ex_method 30 3) Ctor_Complete;
     Exceptions := false;
     PointeeClass := fun V => match V with OThis => Some 3%nat | _ => None end |}.

(** [struct N] whose copy constructor and copy assignment operator are
    not trivial and are not found by the lookup. *)
Definition ex_N : CXXRecordDecl :=
  mkCXXRecordDecl 14 [] [] [mkFieldDecl 140 (TBuiltin 0)]
    {| hasTrivialCopyConstructor_ := false;
       hasTrivialCopyAssignment_ := false;
       hasTrivialDestructor_ := true;
       isDynamicClass_ := false;
       hasUserDeclaredCopyConstructor_ := false;
       hasUserDeclaredCopyAssignment_ := false;
       getCopyConstructor_ := None;
       constCopyAssignment_ := None;
       getDestructor_ := None |}.

(** [struct H : N { };] *)
Definition ex_H : CXXRecordDecl :=
  mkCXXRecordDecl 15 [mkCXXBaseSpecifier false ex_N] [] [] (ex_data false false 15).

Definition ex_CGM_H : CodeGenModule :=
  {| PointerWidth := 64;
     BaseClassOffset := fun _ _ => 64;
     VBaseClassOffset := fun _ _ => 0;
     isDerivedFrom := fun Class Base =>
       if Nat.eqb (decl_id Class) 15 && Nat.eqb (decl_id Base) 14 then
         Some [{| Element_Base := mkCXXBaseSpecifier false ex_N;
                  Element_Class := ex_H |}]
       else None;
     getVirtualBaseOffsetIndex := fun _ _ => 0;
     needsVTTParameter := fun _ => false;
     getSubVTTIndex := fun _ _ => 0;
     AddressPoints := fun _ => ∅ |}.

(** The copy operations of a piece of code, in order: the callee of each
    call, and [None] for each bitwise copy. *)
Definition copy_operations (out : list instr) : list (option GlobalRef) :=
  omap (fun i => match i with
                 | ICall Callee _ => Some (Some Callee)
                 | IAggregateCopy _ _ _ => Some None
                 | _ => None
                 end) out.

(** The operation that copy-constructs an object of class [C] with the
    constructor variant [CtorType]. *)
Definition class_copy_operation (CtorType : CXXCtorType) (C : CXXRecordDecl)
  : list (option GlobalRef) :=
  if hasTrivialCopyConstructor C then [None]
  else
    match getCopyConstructor C with
    | Some BaseCopyCtor => [Some (GCtor BaseCopyCtor CtorType)]
    | None => []
    end.

(** The operation that assigns an object of class [C]. *)
Definition class_assignment_operation (C : CXXRecordDecl)
  : list (option GlobalRef) :=
  if hasTrivialCopyAssignment C then [None]
  else
    match hasConstCopyAssignment C with
    | Some MD => [Some (GFunction MD)]
    | None => []
    end.

(** The class of a field or of the elements of an array field. *)
Definition field_class (F : FieldDecl) : option CXXRecordDecl :=
  let FieldType := getType F in
  getAsRecordDecl
    (if isSome (getAsConstantArrayType FieldType)
     then getBaseElementType FieldType else FieldType).

(** The copy operations in the code of a direct base and of a field, for
    [class_operation] the operation on an object of a class: none for a
    virtual base, a bitwise copy for a field that is an aggregate but
    neither a class, an array of classes nor a complex number, none for a
    scalar or complex field. *)
Definition base_operations
    (class_operation : CXXRecordDecl -> list (option GlobalRef))
    (B : CXXBaseSpecifier) : list (option GlobalRef) :=
  if isVirtual B then [] else class_operation (getDecl B).

Definition field_operations
    (class_operation : CXXRecordDecl -> list (option GlobalRef))
    (F : FieldDecl) : list (option GlobalRef) :=
  match field_class F with
  | Some C => class_operation C
  | None =>
      if hasAggregateLLVMType (getType F) && negb (isAnyComplexType (getType F))
      then [None] else []
  end.

(** [struct K : A, virtual V { A fa; B fb[3]; int n; };] *)
Definition ex_K : CXXRecordDecl :=
  mkCXXRecordDecl 16
    [mkCXXBaseSpecifier false ex_A; mkCXXBaseSpecifier true ex_V]
    [mkCXXBaseSpecifier true ex_V]
    [ex_fa; ex_fb; mkFieldDecl 160 (TBuiltin 0)] (ex_data false false 16).

Definition ex_CGM_K : CodeGenModule :=
  {| PointerWidth := 64;
     BaseClassOffset := fun _ _ => 0;
     VBaseClassOffset := fun _ _ => 0;
     isDerivedFrom := fun Class Base =>
       if Nat.eqb (decl_id Class) 16 && Nat.eqb (decl_id Base) 1 then
         Some [{| Element_Base := mkCXXBaseSpecifier false ex_A;
                  Element_Class := ex_K |}]
       else None;
     getVirtualBaseOffsetIndex := fun _ _ => 0;
     needsVTTParameter := fun _ => false;
     getSubVTTIndex := fun _ _ => 0;
     AddressPoints := fun _ => ∅ |}.

Definition ex_copy_ctor_K : CXXConstructorDecl :=
  {| ctor_decl := ex_method 161 16;
     ctor_parent := ex_K;
     ctor_isTrivial := false;
     ctor_isDefaultConstructor := false;
     ctor_isCopyConstructor := true;
     ctor_isImplicit := true;
     ctor_inits := [] |}.

(* --------------------------------------------------------------------- *)
(** ** The sub-objects a copy acts on                                     *)

(** Where running the address adjustments of a copy leaves the pointer
    [p] to an object: at [p] itself for a field ([ClassDecl] null), at
    [p] plus the non-virtual offset for a base reached without virtual
    step, and for a base reached through a virtual step at [p] plus the
    offset of the virtual base, loaded from the vtable of the object,
    plus the non-virtual offset of the steps after it. *)
Definition subobject_address (CGM : CodeGenModule) (E : RunEnv)
    (ClassDecl : option CXXRecordDecl) (BaseClassDecl : CXXRecordDecl)
    (p : Z) : option Z :=
  match ClassDecl with
  | None => Some p
  | Some Class =>
      match adjustment_offset CGM Class BaseClassDecl with
      | Some Off => Some (wrap (PointerWidth CGM) (p + Off))
      | None =>
          match isDerivedFrom CGM Class BaseClassDecl with
          | None => None
          | Some Path =>
              match last_virtual_base Path with
              | None => None
              | Some VBase =>
                  match env_load E p with
                  | RInt vtable =>
                      match env_load E
                              (wrap (PointerWidth CGM)
                                 (vtable
                                  + getVirtualBaseOffsetIndex CGM
                                      (decl_id Class) (decl_id VBase))) with
                      | RInt voff =>
                          Some (wrap (PointerWidth CGM)
                                  (p + voff
                                   + path_offset CGM (after_last_virtual Path)))
                      | _ => None
                      end
                  | _ => None
                  end
              end
          end
      end
  end.

(** Modelled from the spec: the sub-objects of an object of a class that
    a copy "of each sub-object individually" walks, as the implicitly
    defined copy constructor does: the non-virtual direct bases, then the
    fields, each at its offset in the layout of the class and of the size
    of its type.  The record layout and the sizes of the types are
    computed outside the translated file. *)
Definition class_subobjects (CGM : CodeGenModule) (E : RunEnv)
    (size_of : QualType -> Z) (ClassDecl : CXXRecordDecl) : list SubObject :=
  map (fun Base =>
         {| sub_offset := getBaseClassOffset CGM ClassDecl (getDecl Base) / 8;
            sub_size := size_of (TRecord (getDecl Base)) |})
    (List.filter (fun Base => negb (isVirtual Base)) (bases ClassDecl))
  ++ map (fun Field =>
            {| sub_offset := env_field E (field_id Field);
               sub_size := size_of (getType Field) |})
       (fields ClassDecl).

(** [struct P { int x; int y; };  struct Q : A, P { };]: [P] is copied
    bitwise and lies 16 bytes into [Q]; an object of [P] has 12 bytes,
    [x] in the first four and [y] in the last four. *)
Definition ex_P : CXXRecordDecl :=
  mkCXXRecordDecl 17 [] []
    [mkFieldDecl 170 (TBuiltin 0); mkFieldDecl 171 (TBuiltin 0)]
    (ex_data true false 17).
Definition ex_Q : CXXRecordDecl :=
  mkCXXRecordDecl 18
    [mkCXXBaseSpecifier false ex_A; mkCXXBaseSpecifier false ex_P] [] []
    (ex_data false true 18).
Definition ex_CGM_Q : CodeGenModule :=
  {| PointerWidth := 64;
     BaseClassOffset := fun Class Base =>
       if Nat.eqb Class 18 && Nat.eqb Base 17 then 128 else 0;
     VBaseClassOffset := fun _ _ => 0;
     isDerivedFrom := fun Class Base =>
       if Nat.eqb (decl_id Class) 18 && Nat.eqb (decl_id Base) 17 then
         Some [{| Element_Base := mkCXXBaseSpecifier false ex_P;
                  Element_Class := ex_Q |}]
       else None;
     getVirtualBaseOffsetIndex := fun _ _ => 0;
     needsVTTParameter := fun _ => false;
     getSubVTTIndex := fun _ _ => 0;
     AddressPoints := fun _ => ∅ |}.
Definition ex_E_Q : RunEnv :=
  {| env_bits := 64;
     env_arg := fun n => match n with O => RInt 4096 | _ => RInt 8192 end;
     env_this := RInt 4096;
     env_vtt := RInt 0;
     env_local := fun _ => RInt 0;
     env_load := fun _ => RInt 0;
     env_stride := fun _ => 16;
     env_field := fun F => if Nat.eqb F 171 then 8 else 0 |}.
Definition ex_size_of_Q (T : QualType) : Z :=
  match T with TBuiltin _ => 4 | _ => 12 end.

(** A memory in which the source object holds other bytes than the
    destination: [2a] in the first byte of [y], [ff] elsewhere from
    address 8192 on, and [00] below. *)
Definition ex_memory_Q : memory :=
  fun a => if a =? 8216 then Byte.x2a
           else if a <? 8192 then Byte.x00 else Byte.xff.

(* ===================================================================== *)
(** * Reasoning about emission                                            *)
(* ===================================================================== *)

Local Open Scope emit_scope.
Arguments wrap : simpl never.

Lemma bind_unfold {A B} (m : M A) (f : A -> M B) s :
  bind m f s =
  match m s with
  | Ok a s1 o1 =>
      match f a s1 with
      | Ok b s2 o2 => Ok b s2 (o1 ++ o2)
      | Abort e => Abort e
      end
  | Abort e => Abort e
  end.
Proof. reflexivity. Qed.

Lemma bind_Ok {A B} (m : M A) (f : A -> M B) s b s' out :
  bind m f s = Ok b s' out ->
  exists a s1 o1 o2,
    m s = Ok a s1 o1 /\ f a s1 = Ok b s' o2 /\ out = o1 ++ o2.
Proof.
  rewrite bind_unfold. destruct (m s) as [a s1 o1|e]; [|discriminate].
  destruct (f a s1) as [b' s2 o2|e] eqn:Hf; [|discriminate].
  intros H. inversion H; subst. exists a, s1, o1, o2. auto.
Qed.

Lemma bind_Ok_intro {A B} (m : M A) (f : A -> M B) s a s1 o1 b s' o2 :
  m s = Ok a s1 o1 -> f a s1 = Ok b s' o2 ->
  bind m f s = Ok b s' (o1 ++ o2).
Proof. intros H1 H2. rewrite bind_unfold, H1, H2. reflexivity. Qed.

Lemma wrap_small bits z : 0 <= z < 2 ^ bits -> wrap bits z = z.
Proof. intros H. unfold wrap. apply Z.mod_small. exact H. Qed.

Lemma wrap_range bits z : 0 <= bits -> 0 <= wrap bits z < 2 ^ bits.
Proof.
  intros H. unfold wrap. apply Z.mod_pos_bound. apply Z.pow_pos_nonneg; lia.
Qed.

Lemma wrap64_nonneg z : 0 <= wrap 64 z.
Proof. apply wrap_range. lia. Qed.

(* --------------------------------------------------------------------- *)
(** ** Inheritance paths                                                  *)

Lemma Compute_from_nonvirtual CGM Path : forall Offset s,
  path_is_nonvirtual Path = true ->
  ComputeNonVirtualBaseClassOffset_from CGM Path Offset s
  = Ok (path_offset_from CGM Path Offset) s [].
Proof.
  induction Path as [|Element rest IH]; intros Offset s H; simpl in *.
  - reflexivity.
  - apply andb_true_iff in H as [H1 H2].
    rewrite bind_unfold, H1. simpl. rewrite IH by assumption. reflexivity.
Qed.

Lemma find_virtual_base_nonvirtual Path : forall i Start VBase,
  path_is_nonvirtual Path = true ->
  find_virtual_base Path i Start VBase = (Start, VBase).
Proof.
  induction Path as [|Element rest IH]; intros i Start VBase H; simpl in *.
  - reflexivity.
  - apply andb_true_iff in H as [H1 H2]. apply negb_true_iff in H1.
    rewrite H1. apply IH; assumption.
Qed.

Lemma path_offset_from_nonneg CGM Path : forall Offset,
  0 <= Offset -> 0 <= path_offset_from CGM Path Offset.
Proof.
  induction Path as [|Element rest IH]; intros Offset H; simpl.
  - exact H.
  - apply IH. apply wrap64_nonneg.
Qed.

Lemma adjustment_offset_nonneg CGM Derived Base Off :
  adjustment_offset CGM Derived Base = Some Off -> 0 <= Off.
Proof.
  unfold adjustment_offset. destruct (same_decl Derived Base).
  - intros H; inversion H; lia.
  - destruct (isDerivedFrom CGM Derived Base) as [Path|]; [|discriminate].
    destruct (path_is_nonvirtual Path); [|discriminate].
    intros H; inversion H. apply path_offset_from_nonneg. lia.
Qed.

Lemma same_decl_sym A B : same_decl A B = same_decl B A.
Proof. unfold same_decl. apply Nat.eqb_sym. Qed.

(** What [GetAddressOfBaseClass] emits on a path without virtual edge. *)
Lemma GetAddressOfBaseClass_nonvirtual CGM Value Derived Base nc s Off :
  adjustment_offset CGM Derived Base = Some Off ->
  GetAddressOfBaseClass CGM Value Derived Base nc s =
  if Off =? 0 then CreateBitCast Value s
  else
    (blocks <-
       (if nc then
          CastNull <- createBasicBlock ;;
          CastNotNull <- createBasicBlock ;;
          CastEnd <- createBasicBlock ;;
          IsNull <- CreateICmp ICMP_EQ (PointerWidth CGM) Value ONull ;;
          CreateCondBr IsNull CastNull CastNotNull ;;
          EmitBlock CastNotNull ;;
          ret (CastNull, CastNotNull, CastEnd)
        else ret (0%nat, 0%nat, 0%nat)) ;;
     let '(CastNull, CastNotNull, CastEnd) := blocks in
     Value <- CreateBitCast Value ;;
     Value <- CreateGEP Value (ConstantInt_ptrdiff CGM Off) PInt8 ;;
     Value <- CreateBitCast Value ;;
     if nc then
       CreateBr CastEnd ;;
       EmitBlock CastNull ;;
       CreateBr CastEnd ;;
       EmitBlock CastEnd ;;
       CreatePHI [(Value, CastNotNull); (ONull, CastNull)]
     else ret Value) s.
Proof.
  unfold adjustment_offset, GetAddressOfBaseClass.
  destruct (same_decl Derived Base).
  - intros H; inversion H; subst. reflexivity.
  - destruct (isDerivedFrom CGM Derived Base) as [Path|]; [|discriminate].
    destruct (path_is_nonvirtual Path) eqn:Hnv; [|discriminate].
    intros H; inversion H; subst. clear H.
    rewrite find_virtual_base_nonvirtual by assumption.
    rewrite bind_unfold. unfold ComputeNonVirtualBaseClassOffset.
    rewrite drop_0, Compute_from_nonvirtual by assumption.
    fold (path_offset CGM Path).
    destruct (path_offset CGM Path =? 0) eqn:Hz; simpl.
    + reflexivity.
    + destruct nc; reflexivity.
Qed.

(** What [GetAddressOfDerivedClass] emits on a path without virtual edge. *)
Lemma GetAddressOfDerivedClass_nonvirtual CGM Value Derived Base nc s Off :
  adjustment_offset CGM Derived Base = Some Off ->
  GetAddressOfDerivedClass CGM Value Base Derived nc s =
  if Off =? 0 then CreateBitCast Value s
  else
    (blocks <-
       (if nc then
          CastNull <- createBasicBlock ;;
          CastNotNull <- createBasicBlock ;;
          CastEnd <- createBasicBlock ;;
          IsNull <- CreateICmp ICMP_EQ (PointerWidth CGM) Value ONull ;;
          CreateCondBr IsNull CastNull CastNotNull ;;
          EmitBlock CastNotNull ;;
          ret (CastNull, CastNotNull, CastEnd)
        else ret (0%nat, 0%nat, 0%nat)) ;;
     let '(CastNull, CastNotNull, CastEnd) := blocks in
     Value <- CreatePtrToInt Value ;;
     Value <- CreateSub (PointerWidth CGM) Value (ConstantInt_ptrdiff CGM Off) ;;
     Value <- CreateIntToPtr Value ;;
     Value <- CreateBitCast Value ;;
     if nc then
       CreateBr CastEnd ;;
       EmitBlock CastNull ;;
       CreateBr CastEnd ;;
       EmitBlock CastEnd ;;
       CreatePHI [(Value, CastNotNull); (ONull, CastNull)]
     else ret Value) s.
Proof.
  unfold adjustment_offset, GetAddressOfDerivedClass.
  rewrite (same_decl_sym Base Derived).
  destruct (same_decl Derived Base) eqn:Hsame.
  - intros H; inversion H; subst. reflexivity.
  - destruct (isDerivedFrom CGM Derived Base) as [Path|] eqn:Hpath; [|discriminate].
    destruct (path_is_nonvirtual Path) eqn:Hnv; [|discriminate].
    intros H; inversion H; subst. clear H.
    rewrite bind_unfold. unfold GetNonVirtualBaseClassOffset.
    rewrite Hsame, Hpath, bind_unfold.
    unfold ComputeNonVirtualBaseClassOffset.
    rewrite drop_0, Compute_from_nonvirtual by assumption.
    fold (path_offset CGM Path).
    destruct (path_offset CGM Path =? 0) eqn:Hz; simpl.
    + reflexivity.
    + destruct nc; reflexivity.
Qed.

(* ===================================================================== *)
(** * Reasoning about runs of the emitted code                            *)
(* ===================================================================== *)

Lemma upd_same {A} (f : nat -> option A) k v : upd f k v k = Some v.
Proof. unfold upd. rewrite Nat.eqb_refl. reflexivity. Qed.

Lemma upd_other {A} (f : nat -> option A) k v k' :
  k' <> k -> upd f k v k' = f k'.
Proof. unfold upd. intros H. apply Nat.eqb_neq in H. rewrite H. reflexivity. Qed.

Lemma eval_upd_fresh E rs r x s v :
  fresh_for s v -> (NextReg s <= r)%nat -> eval E (upd rs r x) v = eval E rs v.
Proof.
  destruct v; simpl; try reflexivity. intros. apply upd_other. lia.
Qed.

Lemma exec_step E k code m m1 r :
  (length code <=? pc m)%nat = false -> step E code m = Some m1 ->
  exec E k code m1 = r -> exec E (S k) code m = r.
Proof. intros H1 H2 H3. simpl. rewrite H1, H2. exact H3. Qed.

Lemma exec_done E k code m :
  (length code <=? pc m)%nat = true -> exec E k code m = Some m.
Proof. intros H. destruct k; simpl; rewrite H; reflexivity. Qed.

Ltac nat_eqb :=
  repeat match goal with
  | |- context [Nat.eqb ?a ?a] => rewrite (Nat.eqb_refl a)
  | |- context [Nat.eqb ?a ?b] =>
      first [ replace (Nat.eqb a b) with false
                by (symmetry; apply Nat.eqb_neq; lia)
            | replace (Nat.eqb a b) with true
                by (symmetry; apply Nat.eqb_eq; lia) ]
  end.

Ltac machine_red :=
  cbv beta iota zeta delta
      [step nth_error pc regs slots trace cur_bb pred_bb set_reg set_slot
       add_event enter jump find_label find_incoming option_map stride icmp
       negb
       start];
  unfold ConstantInt_ptrdiff;
  cbn [eval eval_args RValue_operand NextReg NextBlock advance Nat.add].

(** Normalise a machine state; [tac] rewrites with the facts at hand. *)
Ltac machine_simpl tac :=
  machine_red;
  repeat first
    [ rewrite upd_same
    | rewrite upd_other by lia
    | progress nat_eqb
    | progress change (0 =? 0) with true
    | progress change (1 =? 0) with false
    | progress tac
    | progress machine_red ].

(** Execute one instruction, then all that remain. *)
Ltac run1 tac :=
  eapply exec_step;
  [ reflexivity | unfold step; machine_simpl tac; reflexivity | ].

Ltac run_all tac :=
  repeat (run1 tac); apply (exec_done _ 0%nat); reflexivity.

Lemma getConstantArrayElementCount_range elem size :
  0 <= getConstantArrayElementCount (TConstantArray elem size) < 2 ^ 64.
Proof.
  simpl. destruct elem; apply wrap_range; lia.
Qed.

Lemma seqZ_S_cons i k : seqZ i (Z.of_nat (S k)) = i :: seqZ (i + 1) (Z.of_nat k).
Proof.
  rewrite Nat2Z.inj_succ. rewrite seqZ_cons by lia.
  f_equal. f_equal; lia.
 Qed.

(** The shape of the proofs about the emitted loops: one iteration, proved
    by running [steps] instructions, then induction on the iterations that
    remain. *)
Tactic Notation "loop_iteration" constr(s) integer(steps) tactic3(tac) :=
  match goal with
  | |- exists m1, (forall fuel r, _) /\ _ =>
      eexists; split;
      [ let fuel := fresh "fuel" in
        let r := fresh "r" in
        let H := fresh "H" in
        intros fuel r H;
        do steps (run1 ltac:(rewrite ?(eval_upd_fresh _ _ _ _ s) by (auto; lia); tac));
        exact H
      | cbn [pc slots regs trace];
        rewrite ?(eval_upd_fresh _ _ _ _ s) by (auto; lia);
        rewrite ?upd_same, ?app_nil_r; repeat split; auto ]
  end.

Lemma array_copy_loop_runs Dest Src elem size BaseClassDecl Ty s E bb rs d0 s0 :
  let Array := TConstantArray elem size in
  let N := getConstantArrayElementCount Array in
  fresh_for s Dest -> fresh_for s Src ->
  eval E rs Dest = Some (RInt d0) -> eval E rs Src = Some (RInt s0) ->
  exists s' out fuel m,
    EmitClassAggrMemberwiseCopy Dest Src Array BaseClassDecl Ty s = Ok tt s' out /\
    exec E fuel out (start bb rs) = Some m /\
    trace m =
      omap (fun i => element_copy BaseClassDecl Ty
                       (element_address E Dest d0 i) (element_address E Src s0 i))
           (seqZ 0 N).
Proof.
  intros Array N HfD HfS HD HS.
  pose proof (getConstantArrayElementCount_range elem size) as HN.
  fold Array in HN. fold N in HN.
  assert (HwN : wrap 64 N = N) by (apply wrap_small; exact HN).
  pose (ev := fun i => element_copy BaseClassDecl Ty
                       (element_address E Dest d0 i) (element_address E Src s0 i)).
  fold ev.
  assert (Hgen : forall (code : list instr) (c : nat),
    (forall m i,
      pc m = 2%nat -> slots m (NextReg s) = Some (RInt i) ->
      eval E (regs m) Dest = Some (RInt d0) -> eval E (regs m) Src = Some (RInt s0) ->
      0 <= i < N ->
      exists m1,
        (forall fuel r, exec E fuel code m1 = r -> exec E (c + fuel) code m = r) /\
        pc m1 = 2%nat /\ slots m1 (NextReg s) = Some (RInt (i + 1)) /\
        eval E (regs m1) Dest = Some (RInt d0) /\ eval E (regs m1) Src = Some (RInt s0) /\
        trace m1 = trace m ++ match ev i with Some e => [e] | None => [] end) ->
    (forall m,
      pc m = 2%nat -> slots m (NextReg s) = Some (RInt N) ->
      exists fuel m', exec E fuel code m = Some m' /\ trace m' = trace m) ->
    forall k m i,
      pc m = 2%nat -> slots m (NextReg s) = Some (RInt i) ->
      eval E (regs m) Dest = Some (RInt d0) -> eval E (regs m) Src = Some (RInt s0) ->
      Z.of_nat k = N - i -> 0 <= i ->
      exists fuel m', exec E fuel code m = Some m' /\
        trace m' = trace m ++ omap ev (seqZ i (Z.of_nat k))).
  { intros code c Hiter Hexit.
    induction k as [|k IH]; intros m i Hpc Hsl HmD HmS Hi Hi0.
    - assert (i = N) by lia. clear Hi. subst i.
      destruct (Hexit m Hpc Hsl) as (fuel & m' & Hf & Ht). exists fuel, m'.
      split; [exact Hf|]. cbn. rewrite app_nil_r. exact Ht.
    - destruct (Hiter m i Hpc Hsl HmD HmS ltac:(lia))
        as (m1 & Hrun & Hpc1 & Hsl1 & HD1 & HS1 & Ht1).
      destruct (IH m1 (i + 1) Hpc1 Hsl1 HD1 HS1 ltac:(lia) ltac:(lia))
        as (fuel & m' & Hexec & Htrace).
      exists (c + fuel)%nat, m'. split.
      + apply Hrun. exact Hexec.
      + rewrite Htrace, Ht1, seqZ_S_cons.
        change (omap ev (i :: seqZ (i + 1) (Z.of_nat k)))
          with (match ev i with
                | Some e => e :: omap ev (seqZ (i + 1) (Z.of_nat k))
                | None => omap ev (seqZ (i + 1) (Z.of_nat k))
                end).
        rewrite <- app_assoc. destruct (ev i); reflexivity. }
  unfold EmitClassAggrMemberwiseCopy.
  unfold ev, element_copy in *. clear ev.
  destruct (hasTrivialCopyConstructor BaseClassDecl) eqn:Htriv;
    [|destruct (getCopyConstructor BaseClassDecl) as [BaseCopyCtor|] eqn:Hctor].
  1,2:
    cbn -[getConstantArrayElementCount]; fold N; rewrite HwN;
    match goal with
    | |- exists s1 out fuel m, Ok tt _ ?c = _ /\ _ => set (code := c)
    end;
    (edestruct (Hgen code 12%nat) with (k := Z.to_nat N) (i := 0)
        (m := {| pc := 2; cur_bb := NextBlock s; pred_bb := bb; regs := rs;
                 slots := upd (fun _ => None) (NextReg s) (RInt 0); trace := [] |})
      as (fuel & m' & Hexec & Htrace);
     [ intros m i Hpc Hsl HmD HmS Hi;
       destruct m as [pc0 cb pb rs1 sl t]; cbn [pc slots regs trace] in *; subst pc0;
       assert (Hwi : wrap 64 i = i) by (apply wrap_small; lia);
       assert (Hlt : (wrap 64 i <? wrap 64 N) = true)
         by (rewrite Hwi, HwN; apply Z.ltb_lt; lia);
       assert (Hwi1 : wrap 64 (i + 1) = i + 1) by (apply wrap_small; lia);
       subst code;
       loop_iteration s 12 ltac:(rewrite ?Hsl, ?Hlt, ?HmD, ?HmS, ?Hwi1)
     | intros m Hpc Hsl;
       destruct m as [pc0 cb pb rs1 sl t]; cbn [pc slots regs trace] in *; subst pc0;
       assert (Hlt : (wrap 64 N <? wrap 64 N) = false) by (apply Z.ltb_irrefl);
       do 2 eexists; split;
       [ subst code; run_all ltac:(rewrite ?Hsl, ?Hlt) | reflexivity ]
     | reflexivity | apply upd_same | exact HD | exact HS | lia | lia
     | do 2 eexists; exists (2 + fuel)%nat, m';
       split; [ reflexivity
              | split; [ subst code; do 2 (run1 idtac); exact Hexec
                       | rewrite Htrace, Z2Nat.id by lia; reflexivity ] ] ]).
    cbn -[getConstantArrayElementCount]; fold N; rewrite HwN;
    match goal with
    | |- exists s1 out fuel m, Ok tt _ ?c = _ /\ _ => set (code := c)
    end;
    (edestruct (Hgen code 11%nat) with (k := Z.to_nat N) (i := 0)
        (m := {| pc := 2; cur_bb := NextBlock s; pred_bb := bb; regs := rs;
                 slots := upd (fun _ => None) (NextReg s) (RInt 0); trace := [] |})
      as (fuel & m' & Hexec & Htrace);
     [ intros m i Hpc Hsl HmD HmS Hi;
       destruct m as [pc0 cb pb rs1 sl t]; cbn [pc slots regs trace] in *; subst pc0;
       assert (Hwi : wrap 64 i = i) by (apply wrap_small; lia);
       assert (Hlt : (wrap 64 i <? wrap 64 N) = true)
         by (rewrite Hwi, HwN; apply Z.ltb_lt; lia);
       assert (Hwi1 : wrap 64 (i + 1) = i + 1) by (apply wrap_small; lia);
       subst code;
       loop_iteration s 11 ltac:(rewrite ?Hsl, ?Hlt, ?HmD, ?HmS, ?Hwi1)
     | intros m Hpc Hsl;
       destruct m as [pc0 cb pb rs1 sl t]; cbn [pc slots regs trace] in *; subst pc0;
       assert (Hlt : (wrap 64 N <? wrap 64 N) = false) by (apply Z.ltb_irrefl);
       do 2 eexists; split;
       [ subst code; run_all ltac:(rewrite ?Hsl, ?Hlt) | reflexivity ]
     | reflexivity | apply upd_same | exact HD | exact HS | lia | lia
     | do 2 eexists; exists (2 + fuel)%nat, m';
       split; [ reflexivity
              | split; [ subst code; do 2 (run1 idtac); exact Hexec
                       | rewrite Htrace, Z2Nat.id by lia; reflexivity ] ] ]).
 Qed.



Lemma omap_Forall2 {A B} (f : A -> option B) (l : list A) :
  Forall (fun x => isSome (f x) = true) l ->
  Forall2 (fun x y => f x = Some y) l (omap f l).
Proof.
  induction 1 as [|x l Hx Hl IH]; [constructor|].
  change (omap f (x :: l))
    with (match f x with Some y => y :: omap f l | None => omap f l end).
  destruct (f x) as [y|] eqn:Hfx; [|discriminate].
  constructor; [exact Hfx|exact IH].
Qed.

(* ===================================================================== *)
(** * Reasoning about what is emitted                                     *)
(* ===================================================================== *)

Lemma forM__chain {A} (f : A -> M unit) l : forall s s' out,
  forM_ l f s = Ok tt s' out <->
  exists os, chain f l s s' os /\ out = concat os.
Proof.
  induction l as [|x l IH]; intros s s' out; simpl.
  - split.
    + intros H. inversion H; subst. exists []. split; [constructor|reflexivity].
    + intros (os & Hc & ->). inversion Hc; subst. reflexivity.
  - split.
    + intros H. apply bind_Ok in H as (a & s1 & o1 & o2 & H1 & H2 & ->).
      destruct a. apply IH in H2 as (os & Hc & ->).
      exists (o1 :: os). split; [econstructor; eauto|reflexivity].
    + intros (os & Hc & ->). inversion Hc; subst.
      simpl. erewrite bind_Ok_intro; [reflexivity|eassumption|].
      apply IH. eauto.
Qed.

Lemma EHCleanupBlock_Ok {A} (m : M A) s a s' out :
  EHCleanupBlock m s = Ok a s' out -> exists o, out = [IEHCleanupBlock o].
Proof.
  unfold EHCleanupBlock. destruct (m s); [|discriminate].
  intros H. inversion H. eauto.
Qed.

(** Invert a successful emission: compute through the builder calls and
    split on the tests the emission makes. *)
Ltac emit_inv H :=
  repeat first
    [ discriminate H
    | progress cbn in H
    | progress unfold assert in H
    | match type of H with
      | ret _ _ = _ => unfold ret in H
      | abort _ _ = _ => unfold abort in H
      end
    | match type of H with
      | Ok _ _ _ = Ok _ _ _ => inversion H; subst; clear H; pose proof I as H
      | context [EHCleanupBlock ?m ?s] =>
          let E := fresh "Hcleanup" in
          destruct (EHCleanupBlock m s) eqn:E;
          [ apply EHCleanupBlock_Ok in E; destruct E as [? ->] | ]
      | context [bind ?m ?f ?s] => rewrite (bind_unfold m f s) in H
      | context [if ?b then _ else _] =>
          let E := fresh "Hif" in destruct b eqn:E
      | context [match ?x with _ => _ end] =>
          lazymatch x with
          | context [Ok] => fail
          | context [match _ with _ => _ end] => fail
          | _ => let E := fresh "Hm" in destruct x eqn:E
          end
      end
    | rewrite bind_unfold in H ].


Lemma vtable_stores_code_app Vtable AP p1 : forall r p2,
  vtable_stores_code Vtable AP r (p1 ++ p2) =
  vtable_stores_code Vtable AP r p1
  ++ vtable_stores_code Vtable AP (3 * length p1 + r) p2.
Proof.
  induction p1 as [|key p1 IH]; intros r p2.
  - reflexivity.
  - cbn [app vtable_stores_code length]. rewrite IH, <- app_assoc.
    do 3 f_equal. lia.
Qed.

Lemma advance_advance s a b : advance (advance s a) b = advance s (b + a).
Proof. unfold advance. cbn. f_equal. lia. Qed.

Lemma advance_0 s : advance s 0 = s.
Proof. destruct s. reflexivity. Qed.

(** The body of the loop over the bases in [InitializeVtablePtrsRecursive],
    on its own. *)
Lemma InitializeVtablePtrsRecursive_unfold CGM ClassDecl Vtable AP ThisPtr Offset :
  InitializeVtablePtrsRecursive CGM ClassDecl Vtable AP ThisPtr Offset =
  if negb (isDynamicClass ClassDecl) then ret tt
  else
    (forM_ (bases ClassDecl) (fun Base =>
       if isVirtual Base then ret tt
       else
         InitializeVtablePtrsRecursive CGM (getDecl Base) Vtable AP ThisPtr
           (wrap 64 (Offset + getBaseClassOffset CGM ClassDecl (getDecl Base)))) ;;
     match AP !! (decl_id ClassDecl, Offset) with
     | None => abort "Missing address point for class"
     | Some AddressPoint =>
         let VtableAddressPoint := OConstGEP2 Vtable 0 AddressPoint in
         VtableField <- CreateBitCast ThisPtr ;;
         VtableField <- CreateGEP VtableField (OInt (Offset / 8)) PInt8 ;;
         VtableField <- CreateBitCast VtableField ;;
         CreateStore VtableAddressPoint VtableField
     end)%emit.
Proof.
  destruct ClassDecl as [id bs vbs fs d]. cbn [InitializeVtablePtrsRecursive].
  destruct (negb (isDynamicClass (mkCXXRecordDecl id bs vbs fs d))); [reflexivity|].
  f_equal. cbn [bases].
  generalize (mkCXXRecordDecl id bs vbs fs d) as C. intros C.
  induction bs as [|[virt D] bs IH]; [reflexivity|].
  cbn [forM_ isVirtual getDecl]. rewrite IH. reflexivity.
Qed.

Lemma vtable_visits_unfold CGM ClassDecl Offset :
  vtable_visits CGM ClassDecl Offset =
  if negb (isDynamicClass ClassDecl) then []
  else
    concat (map (fun Base =>
                   if isVirtual Base then []
                   else vtable_visits CGM (getDecl Base)
                          (wrap 64 (Offset
                                    + getBaseClassOffset CGM ClassDecl (getDecl Base))))
                (bases ClassDecl))
    ++ [(decl_id ClassDecl, Offset)].
Proof.
  destruct ClassDecl as [id bs vbs fs d]. cbn [vtable_visits].
  destruct (negb (isDynamicClass (mkCXXRecordDecl id bs vbs fs d))); [reflexivity|].
  f_equal. cbn [bases].
  generalize (mkCXXRecordDecl id bs vbs fs d) as C. intros C.
  induction bs as [|[virt D] bs IH]; [reflexivity|].
  cbn [map concat isVirtual getDecl]. rewrite IH. reflexivity.
Qed.

Lemma address_points_present_app AP p1 p2 :
  address_points_present AP (p1 ++ p2) =
  address_points_present AP p1 && address_points_present AP p2.
Proof. apply forallb_app. Qed.

(** A loop whose body emits the stores of the visits [g x], or aborts on
    a missing address point, emits the stores of all the visits. *)
Lemma forM__vtable_stores {A} Vtable AP (f : A -> M unit)
    (g : A -> list (DeclID * Z)) (l : list A) :
  Forall (fun x => forall s,
            f x s =
            if address_points_present AP (g x)
            then Ok tt (advance s (3 * length (g x)))
                   (vtable_stores_code Vtable AP (NextReg s) (g x))
            else Abort "Missing address point for class") l ->
  forall s,
    forM_ l f s =
    if address_points_present AP (concat (map g l))
    then Ok tt (advance s (3 * length (concat (map g l))))
           (vtable_stores_code Vtable AP (NextReg s) (concat (map g l)))
    else Abort "Missing address point for class".
Proof.
  induction 1 as [|x l Hx Hl IH]; intros s.
  - cbn. rewrite advance_0. reflexivity.
  - cbn [forM_ map concat]. rewrite bind_unfold, Hx, address_points_present_app.
    destruct (address_points_present AP (g x)); [|reflexivity].
    rewrite IH. cbn [andb].
    destruct (address_points_present AP (concat (map g l))); [|reflexivity].
    rewrite advance_advance, vtable_stores_code_app, length_app.
    f_equal. f_equal. lia.
Qed.

(** [InitializeVtablePtrsRecursive] emits exactly the stores of the visits
    from the class, when their address points are in the table, and aborts
    otherwise. *)
Lemma InitializeVtablePtrsRecursive_stores CGM Vtable AP ClassDecl :
  forall Offset s,
    InitializeVtablePtrsRecursive CGM ClassDecl Vtable AP OThis Offset s =
    if address_points_present AP (vtable_visits CGM ClassDecl Offset)
    then Ok tt (advance s (3 * length (vtable_visits CGM ClassDecl Offset)))
           (vtable_stores_code Vtable AP (NextReg s)
              (vtable_visits CGM ClassDecl Offset))
    else Abort "Missing address point for class".
Proof.
  induction ClassDecl as [ClassDecl IH] using CXXRecordDecl_bases_ind.
  intros Offset s.
  rewrite InitializeVtablePtrsRecursive_unfold, vtable_visits_unfold.
  destruct (negb (isDynamicClass ClassDecl)).
  - cbn. rewrite advance_0. reflexivity.
  - rewrite bind_unfold.
    rewrite (forM__vtable_stores Vtable AP _
               (fun Base =>
                  if isVirtual Base then []
                  else vtable_visits CGM (getDecl Base)
                         (wrap 64 (Offset
                                   + getBaseClassOffset CGM ClassDecl (getDecl Base))))).
    + set (p := concat _).
      rewrite address_points_present_app.
      destruct (address_points_present AP p); [|reflexivity].
      cbn [andb address_points_present forallb].
      destruct (AP !! (decl_id ClassDecl, Offset)) as [AddressPoint|] eqn:HAP;
        [|reflexivity].
      cbn -[Nat.mul]. rewrite vtable_stores_code_app, length_app.
      cbn [vtable_stores_code length snd]. rewrite HAP. cbn [default].
      unfold advance, vtable_store_code. cbn [NextReg NextBlock].
      rewrite app_nil_r.
      replace (3 * (length p + 1) + NextReg s)%nat
        with (S (S (S (3 * length p + NextReg s))))%nat by lia.
      reflexivity.
    + eapply Forall_impl; [exact IH|].
      intros Base HB s0. cbn beta.
      destruct (isVirtual Base).
      * cbn. rewrite advance_0. reflexivity.
      * apply HB.
Qed.

Lemma InitializeVtablePtrs_stores CGM ClassDecl s :
  InitializeVtablePtrs CGM ClassDecl s =
  let plan := vtable_pointer_plan CGM ClassDecl in
  let AP := AddressPoints CGM (decl_id ClassDecl) in
  if address_points_present AP plan
  then Ok tt (advance s (3 * length plan))
         (vtable_stores_code (GVtable (decl_id ClassDecl)) AP (NextReg s) plan)
  else Abort "Missing address point for class".
Proof.
  unfold InitializeVtablePtrs, vtable_pointer_plan.
  destruct (negb (isDynamicClass ClassDecl)).
  - cbn. rewrite advance_0. reflexivity.
  - cbv zeta. unfold LoadCXXThis. rewrite bind_unfold. cbn [ret app].
    rewrite bind_unfold.
    rewrite (forM__vtable_stores (GVtable (decl_id ClassDecl))
               (AddressPoints CGM (decl_id ClassDecl)) _
               (fun Base => vtable_visits CGM (getDecl Base)
                              (getVBaseClassOffset CGM ClassDecl (getDecl Base)))).
    + set (p := concat _).
      rewrite address_points_present_app.
      destruct (address_points_present _ p); [|reflexivity].
      rewrite InitializeVtablePtrsRecursive_stores. cbn [andb].
      destruct (address_points_present _ (vtable_visits CGM ClassDecl 0));
        [|reflexivity].
      rewrite advance_advance, vtable_stores_code_app, length_app.
      f_equal. f_equal. lia.
    + apply Forall_forall. intros Base _ s0.
      apply InitializeVtablePtrsRecursive_stores.
Qed.

Lemma InitializeVtablePtrs_Ok CGM ClassDecl s s' out :
  InitializeVtablePtrs CGM ClassDecl s = Ok tt s' out ->
  out = vtable_stores_code (GVtable (decl_id ClassDecl))
          (AddressPoints CGM (decl_id ClassDecl)) (NextReg s)
          (vtable_pointer_plan CGM ClassDecl).
Proof.
  rewrite InitializeVtablePtrs_stores. cbv zeta.
  destruct (address_points_present _ _); [|discriminate].
  intros H. inversion H. reflexivity.
Qed.

Lemma vtable_stores_code_kinds Vtable AP plan : forall r,
  Forall (fun i => is_initializer_instr i = false)
    (vtable_stores_code Vtable AP r plan) /\
  initialized_fields (vtable_stores_code Vtable AP r plan) = [] /\
  initializer_exprs (vtable_stores_code Vtable AP r plan) = [] /\
  destructor_calls (vtable_stores_code Vtable AP r plan) = [].
Proof.
  induction plan as [|key plan IH]; intros r.
  - repeat split. constructor.
  - destruct (IH (3 + r)%nat) as (H1 & H2 & H3 & H4).
    cbn [vtable_stores_code vtable_store_code app].
    repeat split.
    + repeat (constructor; [reflexivity|]). exact H1.
    + exact H2.
    + exact H3.
    + exact H4.
Qed.

(* --------------------------------------------------------------------- *)
(** ** Running straight-line stores                                       *)

Lemma nth_error_app_offset {A} (pre l : list A) k :
  nth_error (pre ++ l) (k + length pre) = nth_error l k.
Proof.
  rewrite nth_error_app2 by lia. f_equal. lia.
Qed.

Lemma exec_vtable_store E Vtable r Offset AddressPoint this pre rest m :
  pc m = length pre ->
  env_this E = RInt this ->
  forall fuel res,
    exec E fuel (pre ++ vtable_store_code Vtable r Offset AddressPoint ++ rest)
      {| pc := 4 + length pre;
         cur_bb := cur_bb m; pred_bb := pred_bb m;
         regs := upd (upd (upd (regs m) r (RInt this)) (S r)
                        (RInt (wrap (env_bits E) (this + Offset / 8))))
                   (S (S r)) (RInt (wrap (env_bits E) (this + Offset / 8)));
         slots := slots m;
         trace := trace m ++ [EvStore (wrap (env_bits E) (this + Offset / 8))
                                (RAddrConst Vtable 0 AddressPoint)] |} = res ->
    exec E (4 + fuel)
      (pre ++ vtable_store_code Vtable r Offset AddressPoint ++ rest) m = res.
Proof.
  intros Hpc Hthis fuel res H.
  destruct m as [pc0 cb pb rs sl t]. cbn [pc cur_bb pred_bb regs slots trace] in *.
  subst pc0. unfold vtable_store_code in *. cbn [app] in *.
  eapply exec_step.
  { apply Nat.leb_gt. rewrite length_app. cbn. lia. }
  { unfold step. cbn [pc]. rewrite (nth_error_app_offset pre _ 0).
    cbn [nth_error eval regs]. rewrite Hthis. reflexivity. }
  eapply exec_step.
  { apply Nat.leb_gt. rewrite length_app. cbn. lia. }
  { unfold step, set_reg. cbn [pc regs].
    rewrite (nth_error_app_offset pre _ 1).
    cbn [nth_error eval]. rewrite upd_same. cbn [stride].
    rewrite Z.mul_1_r. reflexivity. }
  eapply exec_step.
  { apply Nat.leb_gt. rewrite length_app. cbn. lia. }
  { unfold step, set_reg. cbn [pc regs].
    rewrite (nth_error_app_offset pre _ 2).
    cbn [nth_error eval]. rewrite upd_same. reflexivity. }
  eapply exec_step.
  { apply Nat.leb_gt. rewrite length_app. cbn. lia. }
  { unfold step, set_reg. cbn [pc regs].
    rewrite (nth_error_app_offset pre _ 3).
    cbn [nth_error eval]. rewrite upd_same. reflexivity. }
  exact H.
Qed.

Lemma exec_vtable_stores E Vtable AP this plan : forall r pre m,
  pc m = length pre ->
  env_this E = RInt this ->
  exists fuel m',
    exec E fuel (pre ++ vtable_stores_code Vtable AP r plan) m = Some m' /\
    trace m' = trace m ++ map (vtable_store_event E Vtable AP this) plan.
Proof.
  induction plan as [|key plan IH]; intros r pre m Hpc Hthis.
  - exists 0%nat, m. split.
    + apply exec_done. apply Nat.leb_le. cbn. rewrite app_nil_r. lia.
    + cbn. rewrite app_nil_r. reflexivity.
  - cbn [vtable_stores_code].
    edestruct (IH (3 + r)%nat
                 (pre ++ vtable_store_code Vtable r (snd key) (default 0 (AP !! key))))
      as (fuel & m' & Hexec & Htrace);
      [ | exact Hthis | ].
    2: { exists (4 + fuel)%nat, m'. split.
         - apply exec_vtable_store with (this := this); [exact Hpc|exact Hthis|].
           rewrite <- app_assoc in Hexec. exact Hexec.
         - rewrite Htrace. cbn [trace map]. rewrite <- app_assoc. reflexivity. }
    cbn [pc]. rewrite length_app. cbn. lia.
Qed.

(* --------------------------------------------------------------------- *)
(** ** Reading the output of a loop chunk by chunk                        *)

Lemma chain_forallb {A} (f : A -> M unit) (P : instr -> bool) l s s' os :
  chain f l s s' os ->
  (forall x s1 s2 o, f x s1 = Ok tt s2 o -> forallb P o = true) ->
  forallb P (concat os) = true.
Proof.
  intros Hc HP. induction Hc as [|x l s s1 s2 o os Hx Hc IH]; [reflexivity|].
  cbn. rewrite forallb_app, (HP _ _ _ _ Hx), IH. reflexivity.
Qed.

Lemma chain_omap {A B} (f : A -> M unit) (g : instr -> option B)
    (h : A -> list B) l s s' os :
  chain f l s s' os ->
  (forall x s1 s2 o, f x s1 = Ok tt s2 o -> omap g o = h x) ->
  omap g (concat os) = concat (map h l).
Proof.
  intros Hc Hg. induction Hc as [|x l s s1 s2 o os Hx Hc IH]; [reflexivity|].
  cbn. rewrite omap_app, (Hg _ _ _ _ Hx), IH. reflexivity.
Qed.

Lemma chain_Forall2 {A} (f : A -> M unit) (R : A -> list instr -> Prop)
    l s s' os :
  chain f l s s' os ->
  (forall x s1 s2 o, f x s1 = Ok tt s2 o -> R x o) ->
  Forall2 R l os.
Proof.
  intros Hc HR. induction Hc as [|x l s s1 s2 o os Hx Hc IH]; constructor.
  - exact (HR _ _ _ _ Hx).
  - exact IH.
Qed.

Lemma chain_app_inv {A} (f : A -> M unit) l1 l2 s s' os :
  chain f (l1 ++ l2) s s' os ->
  exists s1 os1 os2,
    chain f l1 s s1 os1 /\ chain f l2 s1 s' os2 /\ os = os1 ++ os2.
Proof.
  revert s os. induction l1 as [|x l1 IH]; intros s os Hc.
  - exists s, [], os. repeat split; [constructor|exact Hc].
  - inversion Hc as [|x' l' s0 s1 s2 o os' Hx Hc']; subst.
    destruct (IH _ _ Hc') as (s3 & os1 & os2 & H1 & H2 & ->).
    exists s3, (o :: os1), os2. repeat split; [|exact H2].
    econstructor; eassumption.
Qed.

(* --------------------------------------------------------------------- *)
(** ** What the initializers emit                                         *)

Lemma EmitBaseInitializer_emits CGM CGF ClassDecl BaseInit CtorType s s' out :
  EmitBaseInitializer CGM CGF ClassDecl BaseInit CtorType s = Ok tt s' out ->
  forallb (fun i => negb (is_vtable_store i)) out = true /\
  initialized_fields out = [] /\
  initializer_exprs out
  = (if base_initializer_skipped ClassDecl CtorType BaseInit then []
     else [getInit BaseInit]).
Proof.
  unfold EmitBaseInitializer, GetAddressOfBaseOfCompleteClass,
    base_initializer_skipped.
  intros H. emit_inv H; repeat split; reflexivity.
Qed.

Lemma EmitMemberInitializer_emits CGM CGF ClassDecl MemberInit s s' out :
  EmitMemberInitializer CGM CGF ClassDecl MemberInit s = Ok tt s' out ->
  forallb (fun i => negb (is_vtable_store i)) out = true /\
  (exists F, initializer_field MemberInit = Some F /\
             initialized_fields out = [F]).
Proof.
  unfold EmitMemberInitializer, initializer_field.
  intros H. emit_inv H; (split; [reflexivity|eexists; split; reflexivity]).
Qed.

(** The first loop of [EmitCtorPrologue] emits the base initializers of
    the list, in the order of the list, and queues the member
    initializers, in the order of the list. *)
Lemma EmitCtorPrologue_decomposes CGM CGF CD CtorType s s' out :
  EmitCtorPrologue CGM CGF CD CtorType s = Ok tt s' out ->
  exists s1 s2 osB outV osM,
    chain (fun I => EmitBaseInitializer CGM CGF (ctor_parent CD) I CtorType)
      (List.filter isBaseInitializer (ctor_inits CD)) s s1 osB /\
    InitializeVtablePtrs CGM (ctor_parent CD) s1 = Ok tt s2 outV /\
    chain (EmitMemberInitializer CGM CGF (ctor_parent CD))
      (List.filter isMemberInitializer (ctor_inits CD)) s2 s' osM /\
    out = concat osB ++ outV ++ concat osM.
Proof.
  unfold EmitCtorPrologue.
  set (loop := fix loop (l : list CXXBaseOrMemberInitializer)
                 (MemberInitializers : list CXXBaseOrMemberInitializer)
                 {struct l} : M (list CXXBaseOrMemberInitializer) := _).
  assert (Hloop : forall l acc s0 r s1 o,
             loop l acc s0 = Ok r s1 o ->
             r = acc ++ List.filter isMemberInitializer l /\
             exists os,
               chain (fun I => EmitBaseInitializer CGM CGF (ctor_parent CD) I
                                 CtorType)
                 (List.filter isBaseInitializer l) s0 s1 os /\
               o = concat os).
  { induction l as [|Member l IH]; intros acc s0 r s1 o H.
    - cbn in H. inversion H; subst. rewrite app_nil_r.
      split; [reflexivity|]. exists []. split; [constructor|reflexivity].
    - cbn [loop] in H. unfold isMemberInitializer. cbn [List.filter].
      destruct (isBaseInitializer Member) eqn:HB; cbn [negb].
      + rewrite bind_unfold in H.
        destruct (EmitBaseInitializer CGM CGF (ctor_parent CD) Member CtorType s0)
          as [[] s0' o1|msg] eqn:HE; [|discriminate].
        fold loop in H.
        destruct (loop l acc s0') as [r' s1' o2|msg] eqn:HL; [|discriminate].
        inversion H; subst.
        destruct (IH _ _ _ _ _ HL) as (-> & os & Hc & ->).
        split; [reflexivity|]. exists (o1 :: os).
        split; [econstructor; eassumption|reflexivity].
      + fold loop in H.
        destruct (IH _ _ _ _ _ H) as (-> & os & Hc & ->).
        split; [rewrite <- app_assoc; reflexivity|].
        exists os. split; [exact Hc|reflexivity]. }
  intros H. rewrite bind_unfold in H.
  destruct (loop (ctor_inits CD) [] s) as [r s1 o|msg] eqn:HL; [|discriminate].
  destruct (Hloop _ _ _ _ _ _ HL) as (-> & osB & HcB & ->).
  rewrite bind_unfold in H.
  destruct (InitializeVtablePtrs CGM (ctor_parent CD) s1)
    as [[] s2 outV|msg] eqn:HV; [|discriminate].
  cbn [app] in H.
  destruct (forM_ (List.filter isMemberInitializer (ctor_inits CD))
              (EmitMemberInitializer CGM CGF (ctor_parent CD)) s2)
    as [[] s3 oM|msg] eqn:HM; [|discriminate].
  inversion H; subst.
  apply forM__chain in HM. destruct HM as (osM & HcM & ->).
  exists s1, s2, osB, outV, osM. repeat split; assumption.
Qed.

(* --------------------------------------------------------------------- *)
(** ** What the destructor epilogue emits                                 *)

Lemma EmitCXXDestructorCall_calls CGM CGF DD Type_ This s s' out :
  EmitCXXDestructorCall CGM CGF DD Type_ This s = Ok tt s' out ->
  exists D, DD = Some D /\
    destructor_calls out = [(D, Type_)] /\ destroyed_fields out = [] /\
    forallb (fun i => negb (is_vtable_store i)) out = true.
Proof.
  unfold EmitCXXDestructorCall, GetVTTParameter, EmitCXXMemberCall.
  intros H. emit_inv H; eexists; repeat split; reflexivity.
Qed.

Lemma EmitCXXAggrDestructorCall_calls CGM CGF DD Array This s s' out :
  EmitCXXAggrDestructorCall CGM CGF DD Array This s = Ok tt s' out ->
  exists D, DD = Some D /\
    destructor_calls out = [(D, Dtor_Complete)] /\ destroyed_fields out = [] /\
    forallb (fun i => negb (is_vtable_store i)) out = true.
Proof.
  unfold EmitCXXAggrDestructorCall, EmitCXXAggrDestructorCall_count,
    EmitCXXDestructorCall, GetVTTParameter, EmitCXXMemberCall.
  intros H. emit_inv H; eexists; repeat split; reflexivity.
Qed.

(* --------------------------------------------------------------------- *)
(** ** Address computations                                               *)

Lemma forallb_weaken {A} (P Q : A -> bool) l :
  (forall x, P x = true -> Q x = true) ->
  forallb P l = true -> forallb Q l = true.
Proof.
  intros HPQ. induction l as [|x l IH]; [reflexivity|]. cbn.
  intros H. apply andb_true_iff in H as [H1 H2].
  rewrite (HPQ _ H1), (IH H2). reflexivity.
Qed.

Lemma omap_forallb_nil {A} (g : instr -> option A) (P : instr -> bool) l :
  (forall i, P i = true -> g i = None) ->
  forallb P l = true -> omap g l = [].
Proof.
  intros HP. induction l as [|x l IH]; [reflexivity|]. cbn.
  intros H. apply andb_true_iff in H as [H1 H2].
  rewrite (HP _ H1), (IH H2). reflexivity.
Qed.

(** An address computation has none of the effects read off the code. *)
Lemma plain_address_observations out :
  forallb is_plain_address_instr out = true ->
  destructor_calls out = [] /\ destroyed_fields out = [] /\
  initialized_fields out = [] /\ initializer_exprs out = [] /\
  calls out = [] /\ aggregate_copies out = [] /\
  forallb (fun i => negb (is_vtable_store i)) out = true /\
  forallb is_assignment_instr out = true /\
  forallb (fun i => negb (uses_VTT i)) out = true.
Proof.
  intros H.
  repeat split;
    try (apply (omap_forallb_nil _ is_plain_address_instr); [|exact H];
         intros [] Hi; try reflexivity; discriminate Hi).
  - apply (forallb_weaken is_plain_address_instr); [|exact H].
    intros [] Hi; try discriminate Hi; reflexivity.
  - apply (forallb_weaken is_plain_address_instr); [|exact H].
    intros i Hi. unfold is_plain_address_instr in Hi.
    apply andb_true_iff in Hi as [Hi1 Hi2].
    unfold is_assignment_instr. rewrite Hi2.
    destruct i; try discriminate Hi1; reflexivity.
  - apply (forallb_weaken is_plain_address_instr); [|exact H].
    intros i Hi. unfold is_plain_address_instr in Hi.
    apply andb_true_iff in Hi as [_ Hi2]. exact Hi2.
Qed.

Lemma Compute_from_emits_nothing CGM Path : forall Offset s z s' out,
  ComputeNonVirtualBaseClassOffset_from CGM Path Offset s = Ok z s' out ->
  s' = s /\ out = [].
Proof.
  induction Path as [|Element rest IH]; intros Offset s z s' out H.
  - inversion H. split; reflexivity.
  - cbn in H. unfold assert in H.
    destruct (negb (isVirtual (Element_Base Element))); [|discriminate H].
    cbn in H.
    destruct (ComputeNonVirtualBaseClassOffset_from CGM rest _ s)
      as [z' s1 o1|msg] eqn:HC; [|discriminate H].
    inversion H; subst. apply IH in HC. destruct HC as [-> ->].
    split; reflexivity.
Qed.

Section EmissionShapes.

#[local] Arguments ComputeNonVirtualBaseClassOffset : simpl never.

Lemma GetAddressOfBaseClass_plain CGM Value Class BaseClass nc s V s' out :
  GetAddressOfBaseClass CGM Value Class BaseClass nc s = Ok V s' out ->
  forallb is_plain_address_instr out = true.
Proof.
  unfold GetAddressOfBaseClass, GetVirtualBaseClassOffset.
  intros H. emit_inv H;
    repeat match goal with
    | Hc : ComputeNonVirtualBaseClassOffset _ _ _ _ = Ok _ _ _ |- _ =>
        apply Compute_from_emits_nothing in Hc; destruct Hc as [-> ->]
    end; reflexivity.
Qed.

End EmissionShapes.

Lemma destructor_calls_app a b :
  destructor_calls (a ++ b) = destructor_calls a ++ destructor_calls b.
Proof. apply omap_app. Qed.

Lemma destroyed_fields_app a b :
  destroyed_fields (a ++ b) = destroyed_fields a ++ destroyed_fields b.
Proof. apply omap_app. Qed.

Lemma initialized_fields_app a b :
  initialized_fields (a ++ b) = initialized_fields a ++ initialized_fields b.
Proof. apply omap_app. Qed.

Lemma initializer_exprs_app a b :
  initializer_exprs (a ++ b) = initializer_exprs a ++ initializer_exprs b.
Proof. apply omap_app. Qed.

Lemma calls_app a b : calls (a ++ b) = calls a ++ calls b.
Proof. apply omap_app. Qed.

Lemma aggregate_copies_app a b :
  aggregate_copies (a ++ b) = aggregate_copies a ++ aggregate_copies b.
Proof. apply omap_app. Qed.

(** Use what is known of the pieces of an emission. *)
Ltac emit_facts :=
  repeat match goal with
  | u : unit |- _ => destruct u
  | Hc : ComputeNonVirtualBaseClassOffset _ _ _ _ = Ok _ _ _ |- _ =>
      apply Compute_from_emits_nothing in Hc; destruct Hc as [-> ->]
  | Hc : GetAddressOfBaseClass _ _ _ _ _ _ = Ok _ _ _ |- _ =>
      apply GetAddressOfBaseClass_plain in Hc;
      apply plain_address_observations in Hc;
      destruct Hc as (? & ? & ? & ? & ? & ? & ? & ? & ?)
  | Hc : EmitCXXDestructorCall _ _ _ _ _ _ = Ok _ _ _ |- _ =>
      apply EmitCXXDestructorCall_calls in Hc;
      destruct Hc as (? & ? & ? & ? & ?)
  | Hc : EmitCXXAggrDestructorCall _ _ _ _ _ _ = Ok _ _ _ |- _ =>
      apply EmitCXXAggrDestructorCall_calls in Hc;
      destruct Hc as (? & ? & ? & ? & ?)
  end.

Ltac emit_obs :=
  cbn [app];
  repeat first
    [ rewrite destructor_calls_app | rewrite destroyed_fields_app
    | rewrite initialized_fields_app | rewrite initializer_exprs_app
    | rewrite calls_app | rewrite aggregate_copies_app
    | rewrite forallb_app ].

Ltac obs_unfold :=
  unfold destructor_calls, destroyed_fields, initialized_fields,
    initializer_exprs, calls, aggregate_copies in *.

Ltac obs_rewrite :=
  repeat match goal with
  | Hd : omap _ ?l = _ |- context [omap _ ?l] => rewrite Hd
  | Hd : forallb _ ?l = true |- context [forallb _ ?l] => rewrite Hd
  end.

Section EpilogueShapes.

#[local] Arguments GetAddressOfBaseClass : simpl never.
#[local] Arguments EmitCXXDestructorCall : simpl never.
#[local] Arguments EmitCXXAggrDestructorCall : simpl never.

Lemma DtorEpilogue_field_destroys CGM CGF Field s s' out :
  DtorEpilogue_field CGM CGF Field s = Ok tt s' out ->
  destroyed_fields out = [field_id Field] /\
  destructor_calls out = field_destructor_call Field /\
  length (destructor_calls out) = 1%nat.
Proof.
  unfold DtorEpilogue_field, field_destructor_call.
  intros H. emit_inv H; emit_facts; subst.
  all: obs_unfold; cbn [omap list_omap app] in *; obs_rewrite.
  all: destruct (getType Field) eqn:HT; try discriminate;
       cbn in *;
       repeat match goal with
         | Hd : Some _ = Some _ |- _ => inversion Hd; subst; clear Hd
         end.
  all: repeat match goal with
         | Hd : getDestructor _ = Some _ |- _ => rewrite Hd
         end.
  all: repeat split; reflexivity.
Qed.

Lemma DtorEpilogue_base_destroys CGM CGF ClassDecl Base s s' out :
  DtorEpilogue_base CGM CGF ClassDecl Base s = Ok tt s' out ->
  destroyed_fields out = [] /\
  destructor_calls out = base_destructor_call Base.
Proof.
  unfold DtorEpilogue_base, base_destructor_call.
  intros H. emit_inv H; emit_facts; subst.
  all: obs_unfold; rewrite ?omap_app; cbn [omap list_omap app] in *;
       obs_rewrite.
  all: repeat match goal with
         | Hd : getDestructor _ = Some _ |- _ => rewrite Hd
         end.
  all: repeat split; reflexivity.
Qed.

Lemma DtorEpilogue_vbase_destroys CGM CGF ClassDecl Base s s' out :
  DtorEpilogue_vbase CGM CGF ClassDecl Base s = Ok tt s' out ->
  destroyed_fields out = [] /\
  destructor_calls out = vbase_destructor_call Base.
Proof.
  unfold DtorEpilogue_vbase, vbase_destructor_call,
    GetAddressOfBaseOfCompleteClass.
  intros H. emit_inv H; emit_facts; subst.
  all: obs_unfold; rewrite ?omap_app; cbn [omap list_omap app] in *;
       obs_rewrite.
  all: repeat match goal with
         | Hd : getDestructor _ = Some _ |- _ => rewrite Hd
         end.
  all: repeat split; reflexivity.
Qed.

End EpilogueShapes.

(** The epilogue of a base-object destructor: the collected fields last
    to first, then the bases last to first. *)
Lemma EmitDtorEpilogue_base_decomposes CGM CGF DD s s' out :
  EmitDtorEpilogue CGM CGF DD Dtor_Base s = Ok tt s' out ->
  exists s1 osF osB,
    chain (DtorEpilogue_field CGM CGF)
      (rev (List.filter DtorEpilogue_collects (fields (dtor_parent DD))))
      s s1 osF /\
    chain (DtorEpilogue_base CGM CGF (dtor_parent DD))
      (rev (bases (dtor_parent DD))) s1 s' osB /\
    out = concat osF ++ concat osB.
Proof.
  unfold EmitDtorEpilogue, assert. intros H.
  destruct (negb (dtor_isTrivial DD)); [|discriminate H].
  rewrite bind_unfold in H. cbn [ret app] in H.
  rewrite bind_unfold in H.
  destruct (forM_ (rev (List.filter DtorEpilogue_collects
                          (fields (dtor_parent DD))))
              (DtorEpilogue_field CGM CGF) s) as [[] s1 oF|msg] eqn:HF;
    [|discriminate H].
  destruct (forM_ (rev (bases (dtor_parent DD)))
              (DtorEpilogue_base CGM CGF (dtor_parent DD)) s1)
    as [[] s2 oB|msg] eqn:HB; [|discriminate H].
  inversion H; subst.
  apply forM__chain in HF. destruct HF as (osF & HcF & ->).
  apply forM__chain in HB. destruct HB as (osB & HcB & ->).
  exists s1, osF, osB. repeat split; assumption.
Qed.

(** The epilogue of a complete-object destructor: the virtual bases last
    to first. *)
Lemma EmitDtorEpilogue_complete_decomposes CGM CGF DD s s' out :
  EmitDtorEpilogue CGM CGF DD Dtor_Complete s = Ok tt s' out ->
  exists osV,
    chain (DtorEpilogue_vbase CGM CGF (dtor_parent DD))
      (rev (vbases (dtor_parent DD))) s s' osV /\
    out = concat osV.
Proof.
  unfold EmitDtorEpilogue, assert. intros H.
  destruct (negb (dtor_isTrivial DD)); [|discriminate H].
  rewrite bind_unfold in H. cbn [ret app] in H.
  destruct (forM_ (rev (vbases (dtor_parent DD)))
              (DtorEpilogue_vbase CGM CGF (dtor_parent DD)) s)
    as [[] s1 oV|msg] eqn:HV; [|discriminate H].
  inversion H; subst.
  apply forM__chain in HV. destruct HV as (osV & HcV & ->).
  exists osV. split; [assumption|reflexivity].
Qed.

Lemma concat_map_singleton {A B} (f : A -> B) l :
  concat (map (fun x => [f x]) l) = map f l.
Proof. induction l as [|x l IH]; [reflexivity|]. cbn. rewrite IH. reflexivity. Qed.

Lemma concat_map_nil {A B} (l : list A) :
  concat (map (fun _ => @nil B) l) = [].
Proof. induction l as [|x l IH]; [reflexivity|exact IH]. Qed.

(** The fields named by the member initializers of a list are the fields
    named by the list. *)
Lemma member_initializer_fields l :
  concat (map (fun I => match initializer_field I with
                        | Some F => [F]
                        | None => []
                        end) (List.filter isMemberInitializer l))
  = omap initializer_field l.
Proof.
  unfold isMemberInitializer, isBaseInitializer, initializer_field.
  induction l as [|I l IH]; [reflexivity|].
  cbn [List.filter omap list_omap map concat].
  destruct (init_target I) eqn:HI;
    cbn [negb map concat omap list_omap app]; rewrite ?HI;
    cbn [app]; rewrite IH; reflexivity.
Qed.

(* --------------------------------------------------------------------- *)
(** ** Copy assignment and copy construction                              *)

Lemma GetAddressOfBaseClass_reg CGM Value Class BaseClass nc s V s' out :
  GetAddressOfBaseClass CGM Value Class BaseClass nc s = Ok V s' out ->
  is_VTT_operand V = false.
Proof.
  unfold GetAddressOfBaseClass, GetVirtualBaseClassOffset.
  intros H. emit_inv H; reflexivity.
Qed.

Ltac assignment_facts :=
  repeat match goal with
  | u : unit |- _ => destruct u
  | Hc : GetAddressOfBaseClass _ _ _ _ _ _ = Ok _ _ _ |- _ =>
      let Hr := fresh "Hreg" in
      pose proof (GetAddressOfBaseClass_reg _ _ _ _ _ _ _ _ _ Hc) as Hr;
      apply GetAddressOfBaseClass_plain in Hc;
      apply plain_address_observations in Hc;
      destruct Hc as (? & ? & ? & ? & ? & ? & ? & ? & ?)
  end.

Section CopyShapes.

#[local] Arguments GetAddressOfBaseClass : simpl never.

Lemma EmitClassCopyAssignment_assigns CGM Dest Src ClassDecl BaseClassDecl Ty
    s s' out :
  EmitClassCopyAssignment CGM Dest Src ClassDecl BaseClassDecl Ty s
  = Ok tt s' out ->
  is_VTT_operand Dest = false -> is_VTT_operand Src = false ->
  forallb is_assignment_instr out = true.
Proof.
  unfold EmitClassCopyAssignment.
  intros H HD HS. emit_inv H; assignment_facts; subst.
  all: rewrite ?forallb_app; obs_rewrite.
  all: cbn; unfold is_assignment_instr; cbn;
       repeat match goal with
         | |- context [method_param0_isReference ?m] =>
             destruct (method_param0_isReference m)
         end; cbn;
       rewrite ?HD, ?HS, ?Hreg, ?Hreg0; reflexivity.
Qed.

Lemma EmitClassAggrCopyAssignment_assigns Dest Src Array BaseClassDecl Ty
    s s' out :
  EmitClassAggrCopyAssignment Dest Src Array BaseClassDecl Ty s
  = Ok tt s' out ->
  is_VTT_operand Dest = false -> is_VTT_operand Src = false ->
  forallb is_assignment_instr out = true.
Proof.
  unfold EmitClassAggrCopyAssignment.
  intros H HD HS. emit_inv H.
  all: cbn; unfold is_assignment_instr; cbn;
       repeat match goal with
         | |- context [method_param0_isReference ?m] =>
             destruct (method_param0_isReference m)
         end; cbn;
       rewrite ?HD, ?HS; reflexivity.
Qed.

#[local] Arguments EmitClassCopyAssignment : simpl never.
#[local] Arguments EmitClassAggrCopyAssignment : simpl never.

Lemma CopyAssignment_base_assigns CGM ClassDecl LoadOfThis LoadOfSrc Base
    s s' out :
  CopyAssignment_base CGM ClassDecl LoadOfThis LoadOfSrc Base s
  = Ok tt s' out ->
  is_VTT_operand LoadOfThis = false -> is_VTT_operand LoadOfSrc = false ->
  forallb is_assignment_instr out = true.
Proof.
  unfold CopyAssignment_base. intros H HD HS.
  destruct (isVirtual Base).
  - inversion H. reflexivity.
  - exact (EmitClassCopyAssignment_assigns _ _ _ _ _ _ _ _ _ H HD HS).
Qed.

Lemma CopyAssignment_field_assigns CGM LoadOfThis LoadOfSrc Field s s' out :
  CopyAssignment_field CGM LoadOfThis LoadOfSrc Field s = Ok tt s' out ->
  forallb is_assignment_instr out = true.
Proof.
  unfold CopyAssignment_field. intros H. emit_inv H.
  all: repeat match goal with
         | u : unit |- _ => destruct u
         | Hc : EmitClassCopyAssignment _ _ _ _ _ _ _ = Ok _ _ _ |- _ =>
             apply EmitClassCopyAssignment_assigns in Hc;
             [|reflexivity|reflexivity]
         | Hc : EmitClassAggrCopyAssignment _ _ _ _ _ _ = Ok _ _ _ |- _ =>
             apply EmitClassAggrCopyAssignment_assigns in Hc;
             [|reflexivity|reflexivity]
         end.
  all: cbn [forallb app]; rewrite ?forallb_app; obs_rewrite; reflexivity.
Qed.

Lemma SynthesizeCXXCopyAssignment_assigns CGM ClassDecl Args s s' out :
  SynthesizeCXXCopyAssignment CGM ClassDecl Args s = Ok tt s' out ->
  forallb is_assignment_instr out = true.
Proof.
  unfold SynthesizeCXXCopyAssignment. intros H. emit_inv H.
  repeat match goal with
  | u : unit |- _ => destruct u
  | Hc : forM_ _ _ _ = Ok _ _ _ |- _ =>
      apply forM__chain in Hc; destruct Hc as (? & Hc & ->)
  end.
  cbn [forallb app]. rewrite !forallb_app.
  match goal with
  | Hc : chain (CopyAssignment_base _ _ _ _) _ _ _ _ |- _ =>
      rewrite (chain_forallb _ _ _ _ _ _ Hc)
        by (intros B a b o HB;
            exact (CopyAssignment_base_assigns _ _ _ _ _ _ _ _ HB
                     eq_refl eq_refl))
  end.
  match goal with
  | Hc : chain (CopyAssignment_field _ _ _) _ _ _ _ |- _ =>
      rewrite (chain_forallb _ _ _ _ _ _ Hc)
        by (intros F a b o HF;
            exact (CopyAssignment_field_assigns _ _ _ _ _ _ _ HF))
  end.
  reflexivity.
Qed.

End CopyShapes.

Lemma GetVTTParameter_needed CGM CGF GD s r s' out :
  GetVTTParameter CGM CGF GD s = Ok r s' out ->
  calls out = [] /\
  if needsVTTParameter CGM GD
  then exists VTT, r = Some VTT /\
         existsb uses_VTT out || is_VTT_operand VTT = true
  else r = None /\ s' = s /\ out = [].
Proof.
  unfold GetVTTParameter. intros H.
  destruct (needsVTTParameter CGM GD); cbn [negb] in H.
  - emit_inv H; (split; [reflexivity|]); eexists; (split; reflexivity).
  - inversion H. repeat split; reflexivity.
Qed.


Lemma vtable_stores_code_stores C AP plan : forall r,
  existsb is_vtable_store (vtable_stores_code (GVtable C) AP r plan)
  = negb (Nat.eqb (length plan) 0).
Proof.
  destruct plan as [|key plan]; intros r; reflexivity.
Qed.

Lemma vtable_pointer_plan_length CGM ClassDecl :
  negb (Nat.eqb (length (vtable_pointer_plan CGM ClassDecl)) 0)
  = isDynamicClass ClassDecl.
Proof.
  unfold vtable_pointer_plan. rewrite vtable_visits_unfold.
  destruct (isDynamicClass ClassDecl); [|reflexivity].
  cbn [negb]. rewrite !length_app. cbn [length].
  destruct (_ + _)%nat eqn:E; [lia|reflexivity].
Qed.

(** A dynamic class gets at least its own vtable pointer stored. *)
Lemma InitializeVtablePtrs_installs CGM ClassDecl s s' out :
  InitializeVtablePtrs CGM ClassDecl s = Ok tt s' out ->
  existsb is_vtable_store out = isDynamicClass ClassDecl.
Proof.
  intros H. rewrite (InitializeVtablePtrs_Ok _ _ _ _ _ H).
  rewrite vtable_stores_code_stores. apply vtable_pointer_plan_length.
Qed.

(** The synthesized copy constructor: the two loads, the bases, the
    fields, then the vtable pointers. *)
Lemma SynthesizeCXXCopyConstructor_decomposes CGM CGF Ctor Type_ Args
    s s' out :
  SynthesizeCXXCopyConstructor CGM CGF Ctor Type_ Args s = Ok tt s' out ->
  exists LoadOfThis LoadOfSrc loads s0 s1 s2 osB osF outV,
    is_VTT_operand LoadOfThis = false /\
    is_VTT_operand LoadOfSrc = false /\
    out = loads ++ concat osB ++ concat osF ++ outV /\
    chain (CopyConstructor_base CGM CGF (ctor_parent Ctor) LoadOfThis LoadOfSrc)
      (bases (ctor_parent Ctor)) s0 s1 osB /\
    chain (CopyConstructor_field CGM CGF LoadOfThis LoadOfSrc)
      (fields (ctor_parent Ctor)) s1 s2 osF /\
    InitializeVtablePtrs CGM (ctor_parent Ctor) s2 = Ok tt s' outV.
Proof.
  unfold SynthesizeCXXCopyConstructor, assert. intros H.
  destruct (negb (hasUserDeclaredCopyConstructor (ctor_parent Ctor)));
    [|discriminate H].
  destruct (negb (ctor_isTrivial Ctor)); [|discriminate H].
  destruct Args as [|ThisArg [|SrcArg Args]]; try discriminate H.
  cbn in H. rewrite bind_unfold in H.
  destruct (forM_ (bases (ctor_parent Ctor)) _ _) as [[] s1 oB|msg] eqn:HB;
    [|cbn in H; discriminate H].
  rewrite bind_unfold in H.
  destruct (forM_ (fields (ctor_parent Ctor)) _ _) as [[] s2 oF|msg] eqn:HF;
    [|cbn in H; discriminate H].
  destruct (InitializeVtablePtrs CGM (ctor_parent Ctor) s2)
    as [[] s3 oV|msg] eqn:HV; [|cbn in H; discriminate H].
  cbn in H.
  inversion H; subst.
  apply forM__chain in HB. destruct HB as (osB & HcB & ->).
  apply forM__chain in HF. destruct HF as (osF & HcF & ->).
  eexists (OReg _), (OReg _), [_; _], _, _, _, osB, osF, oV.
  split; [reflexivity|]. split; [reflexivity|].
  split; [reflexivity|]. repeat split; eassumption.
Qed.

Lemma existsb_negb_forallb {A} (P : A -> bool) l :
  forallb (fun x => negb (P x)) l = true -> existsb P l = false.
Proof.
  induction l as [|x l IH]; [reflexivity|]. cbn. intros H.
  apply andb_true_iff in H as [H1 H2]. apply negb_true_iff in H1.
  rewrite H1, (IH H2). reflexivity.
Qed.

Section CopyConstructionVTT.

#[local] Arguments GetAddressOfBaseClass : simpl never.
#[local] Arguments GetVTTParameter : simpl never.

(** The copy of a sub-object uses a VTT exactly when it takes one, and
    the constructor call then has three arguments instead of two. *)
Lemma EmitClassMemberwiseCopy_VTT CGM CGF Dest Src ClassDecl BaseClassDecl Ty
    s s' out :
  EmitClassMemberwiseCopy CGM CGF Dest Src ClassDecl BaseClassDecl Ty s
  = Ok tt s' out ->
  is_VTT_operand Dest = false -> is_VTT_operand Src = false ->
  existsb uses_VTT out = copy_takes_VTT CGM ClassDecl BaseClassDecl /\
  Forall (fun c => length (snd c)
                   = if copy_takes_VTT CGM ClassDecl BaseClassDecl
                     then 3%nat else 2%nat) (calls out).
Proof.
  unfold EmitClassMemberwiseCopy, copy_takes_VTT. intros H HD HS.
  emit_inv H; assignment_facts; subst; cbn [isSome negb andb].
  all: try match goal with
       | Hv : GetVTTParameter _ _ ?GD _ = Ok _ _ _ |- _ =>
           apply GetVTTParameter_needed in Hv;
           destruct Hv as (Hcalls & Hv);
           destruct (needsVTTParameter CGM GD);
           [ destruct Hv as (VTT & Hv1 & Hv2); try discriminate Hv1
           | destruct Hv as (Hv1 & Hv2 & Hv3); try discriminate Hv1 ]
       end.
  all: subst; rewrite ?calls_app, ?existsb_app; cbn [app];
       repeat match goal with
         | Hd : calls ?l = _ |- context [calls ?l] => rewrite Hd
         | Hf : forallb (fun i => negb (uses_VTT i)) ?l = true
           |- context [existsb uses_VTT ?l] =>
             rewrite (existsb_negb_forallb _ _ Hf)
         end;
       cbn [app calls omap list_omap existsb uses_VTT RValue_operand orb].
  all: rewrite ?HD, ?HS, ?Hreg, ?Hreg0; cbn [orb].
  all: try (split; [reflexivity|repeat constructor]).
  all: split; [|repeat constructor].
  all: revert Hv2;
       repeat match goal with
         | |- context [existsb uses_VTT ?l] => destruct (existsb uses_VTT l)
         | |- context [is_VTT_operand ?l] => destruct (is_VTT_operand l)
         end; cbn; intros Hv2; try reflexivity; discriminate Hv2.
Qed.

Lemma CopyConstructor_base_VTT CGM CGF ClassDecl LoadOfThis LoadOfSrc Base
    s s' out :
  CopyConstructor_base CGM CGF ClassDecl LoadOfThis LoadOfSrc Base s
  = Ok tt s' out ->
  is_VTT_operand LoadOfThis = false -> is_VTT_operand LoadOfSrc = false ->
  existsb uses_VTT out
  = negb (isVirtual Base) && copy_takes_VTT CGM (Some ClassDecl) (getDecl Base).
Proof.
  unfold CopyConstructor_base. intros H HD HS.
  destruct (isVirtual Base).
  - inversion H. reflexivity.
  - apply (EmitClassMemberwiseCopy_VTT _ _ _ _ _ _ _ _ _ _ H HD HS).
Qed.

End CopyConstructionVTT.

(* --------------------------------------------------------------------- *)
(** ** Flat copies                                                        *)

Lemma copy_subobjects_from mem0 dest src size subs :
  disjoint_objects dest src size = true ->
  subobjects_in_range subs size = true ->
  forall m,
    (forall b, src <= b < src + size -> m b = mem0 b) ->
    forall a,
      fold_left (fun m o => copy_bytes m (dest + sub_offset o)
                              (src + sub_offset o) (sub_size o)) subs m a
      = if in_subobject subs (a - dest) then mem0 (src + (a - dest)) else m a.
Proof.
  intros Hdis. unfold disjoint_objects in Hdis.
  induction subs as [|o subs IH]; intros Hin m Hm a.
  - reflexivity.
  - cbn [subobjects_in_range forallb] in Hin.
    apply andb_true_iff in Hin as [Ho Hin].
    apply andb_true_iff in Ho as [Ho Ho3].
    apply andb_true_iff in Ho as [Ho1 Ho2].
    cbn [fold_left in_subobject existsb].
    rewrite (IH Hin).
    + fold (in_subobject subs (a - dest)).
      destruct (in_subobject subs (a - dest)).
      * rewrite orb_true_r. reflexivity.
      * rewrite orb_false_r. unfold copy_bytes.
        destruct ((sub_offset o <=? a - dest)
                  && (a - dest <? sub_offset o + sub_size o)) eqn:Ha.
        -- replace ((dest + sub_offset o <=? a)
                    && (a <? dest + sub_offset o + sub_size o)) with true
             by (symmetry; apply andb_true_iff in Ha as [H1 H2];
                 apply andb_true_iff; split; lia).
           replace (src + sub_offset o + (a - (dest + sub_offset o)))
             with (src + (a - dest)) by lia.
           apply Hm. apply andb_true_iff in Ha as [H1 H2]. lia.
        -- replace ((dest + sub_offset o <=? a)
                    && (a <? dest + sub_offset o + sub_size o)) with false;
             [reflexivity|].
           symmetry. apply andb_false_iff.
           apply andb_false_iff in Ha as [H1|H1]; [left|right]; lia.
    + intros b Hb. unfold copy_bytes.
      replace ((dest + sub_offset o <=? b)
               && (b <? dest + sub_offset o + sub_size o)) with false;
        [apply Hm; exact Hb|].
      symmetry. apply andb_false_iff.
      apply orb_true_iff in Hdis as [Hd|Hd]; [right|left]; lia.
Qed.

(** Copying sub-object by sub-object writes the bytes of the source into
    the bytes of the sub-objects and leaves the others. *)
Lemma copy_subobjects_spec mem dest src size subs a :
  disjoint_objects dest src size = true ->
  subobjects_in_range subs size = true ->
  copy_subobjects mem dest src subs a
  = if in_subobject subs (a - dest) then mem (src + (a - dest)) else mem a.
Proof.
  intros Hdis Hin. unfold copy_subobjects.
  apply (copy_subobjects_from mem dest src size subs Hdis Hin mem).
  intros b _. reflexivity.
Qed.

Lemma in_subobject_in_range subs size off :
  subobjects_in_range subs size = true ->
  in_subobject subs off = true -> 0 <= off < size.
Proof.
  induction subs as [|o subs IH]; intros Hin Hoff; [discriminate Hoff|].
  cbn [subobjects_in_range forallb] in Hin.
  apply andb_true_iff in Hin as [Ho Hin].
  cbn [in_subobject existsb] in Hoff.
  apply orb_true_iff in Hoff as [Hoff|Hoff].
  - apply andb_true_iff in Ho as [Ho Ho3].
    apply andb_true_iff in Ho as [Ho1 Ho2].
    apply andb_true_iff in Hoff as [H1 H2]. lia.
  - exact (IH Hin Hoff).
Qed.

(** The flat copy and the copy sub-object by sub-object agree on every
    observable byte. *)
Lemma flat_copy_agrees mem dest src size subs a :
  disjoint_objects dest src size = true ->
  subobjects_in_range subs size = true ->
  observable subs dest size a = true ->
  copy_bytes mem dest src size a = copy_subobjects mem dest src subs a.
Proof.
  intros Hdis Hin Hobs.
  rewrite (copy_subobjects_spec mem dest src size subs a Hdis Hin).
  unfold observable in Hobs. unfold copy_bytes.
  destruct (in_subobject subs (a - dest)) eqn:Hsub.
  - pose proof (in_subobject_in_range subs size _ Hin Hsub) as Hr.
    replace ((dest <=? a) && (a <? dest + size)) with true; [reflexivity|].
    symmetry. apply andb_true_iff. split; lia.
  - cbn [orb] in Hobs. apply negb_true_iff in Hobs. rewrite Hobs.
    reflexivity.
Qed.

Section TrivialCopyShapes.

#[local] Arguments GetAddressOfBaseClass : simpl never.

(** With a trivial copy constructor the copy of a sub-object is its
    address computations followed by one flat copy. *)
Lemma EmitClassMemberwiseCopy_trivial CGM CGF Dest Src ClassDecl BaseClassDecl
    Ty s s' out :
  EmitClassMemberwiseCopy CGM CGF Dest Src ClassDecl BaseClassDecl Ty s
  = Ok tt s' out ->
  hasTrivialCopyConstructor BaseClassDecl = true ->
  exists pre d' s',
    out = pre ++ [IAggregateCopy d' s' Ty] /\
    forallb is_plain_address_instr pre = true /\
    calls out = [] /\
    aggregate_copies out = [(d', s', Ty)].
Proof.
  unfold EmitClassMemberwiseCopy. intros H Htriv. rewrite Htriv in H.
  emit_inv H.
  - match goal with
    | H1 : GetAddressOfBaseClass _ Dest _ _ _ _ = Ok ?d _ ?o1,
      H2 : GetAddressOfBaseClass _ Src _ _ _ _ = Ok ?sr _ ?o2 |- _ =>
        apply GetAddressOfBaseClass_plain in H1;
        apply GetAddressOfBaseClass_plain in H2;
        exists (o1 ++ o2), d, sr;
        pose proof (plain_address_observations o1 H1)
          as (_ & _ & _ & _ & Hc1 & Ha1 & _);
        pose proof (plain_address_observations o2 H2)
          as (_ & _ & _ & _ & Hc2 & Ha2 & _);
        rewrite !app_nil_r, forallb_app, !calls_app, !aggregate_copies_app;
        rewrite H1, H2, Hc1, Hc2, Ha1, Ha2
    end.
    repeat split; reflexivity.
  - exists [], Dest, Src. repeat split; reflexivity.
Qed.

End TrivialCopyShapes.
(* ===================================================================== *)
(** * Inheritance paths and the adjustment through a virtual base         *)
(* ===================================================================== *)

Lemma path_is_nonvirtual_app P1 P2 :
  path_is_nonvirtual (P1 ++ P2)
  = path_is_nonvirtual P1 && path_is_nonvirtual P2.
Proof. unfold path_is_nonvirtual. apply forallb_app. Qed.

(** The loop that looks for the last virtual step leaves [Start] just
    after it. *)
Lemma find_virtual_base_suffix rest : forall pre Start VBase Start' VBase',
  (Start <= length pre)%nat ->
  find_virtual_base rest (length pre) Start VBase = (Start', VBase') ->
  drop Start' (pre ++ rest)
  = (if path_is_nonvirtual rest then drop Start pre ++ rest
     else after_last_virtual rest) /\
  isSome VBase' = isSome VBase || negb (path_is_nonvirtual rest).
Proof.
  induction rest as [|Element rest IH]; intros pre Start VBase Start' VBase' HS H.
  - cbn in H. inversion H; subst. cbn. rewrite orb_false_r, !app_nil_r.
    split; reflexivity.
  - cbn [find_virtual_base] in H. cbn [path_is_nonvirtual forallb after_last_virtual].
    fold (path_is_nonvirtual rest).
    replace (pre ++ Element :: rest) with ((pre ++ [Element]) ++ rest)
      by (rewrite <- app_assoc; reflexivity).
    assert (HL : length (pre ++ [Element]) = S (length pre))
      by (rewrite length_app; cbn; lia).
    destruct (isVirtual (Element_Base Element)) eqn:Hv; cbn [negb andb orb].
    + rewrite <- HL in H.
      destruct (IH _ _ _ _ _ (le_n _) H) as [Hd Hs].
      rewrite Hd, Hs, drop_all. cbn [isSome app orb].
      rewrite orb_true_r. split; [|reflexivity].
      destruct (path_is_nonvirtual rest); reflexivity.
    + rewrite <- HL in H.
      destruct (IH (pre ++ [Element]) Start VBase Start' VBase'
                  ltac:(lia) H) as [Hd Hs].
      rewrite Hd, Hs. split; [|reflexivity].
      destruct (path_is_nonvirtual rest); [|reflexivity].
      rewrite drop_app_le by exact HS. rewrite <- app_assoc. reflexivity.
Qed.

Lemma after_last_virtual_nonvirtual Path :
  path_is_nonvirtual (after_last_virtual Path) = true.
Proof.
  induction Path as [|Element rest IH]; [reflexivity|].
  cbn [after_last_virtual].
  destruct (path_is_nonvirtual rest) eqn:Hr; [|exact IH].
  destruct (isVirtual (Element_Base Element)) eqn:Hv; [exact Hr|].
  cbn. rewrite Hv. exact Hr.
Qed.

Lemma after_last_virtual_id Path :
  path_is_nonvirtual Path = true -> after_last_virtual Path = Path.
Proof.
  destruct Path as [|Element rest]; [reflexivity|]. intros H.
  unfold path_is_nonvirtual in H. cbn [forallb] in H.
  fold (path_is_nonvirtual rest) in H.
  apply andb_true_iff in H as [H1 H2]. apply negb_true_iff in H1.
  cbn [after_last_virtual]. rewrite H2, H1. reflexivity.
Qed.

Lemma find_virtual_base_start Path Start VBase :
  find_virtual_base Path 0 0 None = (Start, VBase) ->
  drop Start Path = after_last_virtual Path /\
  isSome VBase = negb (path_is_nonvirtual Path).
Proof.
  intros H.
  destruct (find_virtual_base_suffix Path [] 0%nat None Start VBase (le_n _) H)
    as [Hd Hs].
  cbn [app] in Hd. rewrite Hd, Hs. cbn [isSome orb]. split; [|reflexivity].
  destruct (path_is_nonvirtual Path) eqn:Hnv; [|reflexivity].
  rewrite after_last_virtual_id by exact Hnv. reflexivity.
Qed.

(** From the index the loop leaves, the offset computation meets no
    virtual step. *)
Lemma ComputeNonVirtualBaseClassOffset_after_virtual CGM Path Start VBase s :
  find_virtual_base Path 0 0 None = (Start, VBase) ->
  ComputeNonVirtualBaseClassOffset CGM Path Start s
  = Ok (path_offset CGM (after_last_virtual Path)) s [].
Proof.
  intros H. destruct (find_virtual_base_start _ _ _ H) as [Hd _].
  unfold ComputeNonVirtualBaseClassOffset. rewrite Hd.
  apply Compute_from_nonvirtual. apply after_last_virtual_nonvirtual.
Qed.

(** The offset computation stops at the first virtual step it meets. *)
Lemma Compute_from_virtual CGM Path : forall Offset s,
  path_is_nonvirtual Path = false ->
  ComputeNonVirtualBaseClassOffset_from CGM Path Offset s
  = Abort "Should not see virtual bases here!".
Proof.
  induction Path as [|Element rest IH]; intros Offset s H; [discriminate H|].
  unfold path_is_nonvirtual in H. cbn [forallb] in H.
  fold (path_is_nonvirtual rest) in H.
  cbn [ComputeNonVirtualBaseClassOffset_from]. rewrite bind_unfold.
  unfold assert.
  destruct (negb (isVirtual (Element_Base Element))); [|reflexivity].
  cbn [andb] in H. cbn. rewrite (IH _ _ H). reflexivity.
Qed.

Lemma GetAddressOfBaseClass_succeeds CGM Value Class BaseClass
    (NullCheckValue : bool) s :
  same_decl Class BaseClass || isSome (isDerivedFrom CGM Class BaseClass)
  = true ->
  exists r s' out,
    GetAddressOfBaseClass CGM Value Class BaseClass NullCheckValue s
    = Ok (OReg r) s' out /\
    (NextReg s <= r < NextReg s')%nat.
Proof.
  intros H.
  unfold GetAddressOfBaseClass.
  destruct (same_decl Class BaseClass).
  - do 3 eexists. split; [reflexivity|]. cbn. lia.
  - destruct (isDerivedFrom CGM Class BaseClass) as [Path|]; [|discriminate H].
    destruct (find_virtual_base Path 0 0 None) as [Start VBase] eqn:Hfind.
    rewrite bind_unfold.
    rewrite (ComputeNonVirtualBaseClassOffset_after_virtual _ _ _ _ _ Hfind).
    unfold GetVirtualBaseClassOffset.
    destruct (path_offset CGM (after_last_virtual Path) =? 0), VBase,
      NullCheckValue;
      cbn; do 3 eexists; (split; [reflexivity|cbn; lia]).
Qed.

Lemma to_int64_wrap z : to_int64 (wrap 64 z) = to_int64 z.
Proof.
  unfold to_int64, wrap. rewrite Z.mod_mod by lia. reflexivity.
Qed.

Lemma path_offset_from_app CGM P1 P2 : forall Offset,
  path_offset_from CGM (P1 ++ P2) Offset
  = path_offset_from CGM P2 (path_offset_from CGM P1 Offset).
Proof.
  induction P1 as [|Element rest IH]; intros Offset; [reflexivity|].
  cbn [app path_offset_from]. apply IH.
Qed.

Lemma wrap_add_l bits a b : wrap bits (wrap bits a + b) = wrap bits (a + b).
Proof. unfold wrap. apply Zplus_mod_idemp_l. Qed.

Lemma wrap_add_r bits a b : wrap bits (a + wrap bits b) = wrap bits (a + b).
Proof. unfold wrap. apply Zplus_mod_idemp_r. Qed.

Lemma wrap_wrap bits a : wrap bits (wrap bits a) = wrap bits a.
Proof. unfold wrap. apply Zmod_mod. Qed.

(** Starting the sum from [Offset] adds [Offset] to the sum from zero. *)
Lemma path_offset_from_shift CGM Path : forall Offset,
  wrap 64 (path_offset_from CGM Path Offset)
  = wrap 64 (Offset + path_offset CGM Path).
Proof.
  unfold path_offset.
  induction Path as [|Element rest IH]; intros Offset.
  - cbn. rewrite Z.add_0_r. reflexivity.
  - cbn [path_offset_from]. rewrite IH.
    set (d := getBaseClassOffset CGM (Element_Class Element)
                (getDecl (Element_Base Element)) / 8).
    rewrite <- (wrap_add_r 64 Offset (path_offset_from CGM rest (wrap 64 (0 + d)))).
    rewrite (IH (wrap 64 (0 + d))).
    rewrite ?wrap_add_l, ?wrap_add_r, ?wrap_add_l.
    f_equal. lia.
Qed.

Lemma path_offset_from_range CGM Path Offset :
  0 <= Offset < 2 ^ 64 -> 0 <= path_offset_from CGM Path Offset < 2 ^ 64.
Proof.
  revert Offset. induction Path as [|Element rest IH]; intros Offset H.
  - exact H.
  - cbn [path_offset_from]. apply IH. apply wrap_range. lia.
Qed.

Lemma find_virtual_base_last rest : forall i Start VBase,
  snd (find_virtual_base rest i Start VBase)
  = match last_virtual_base rest with
    | Some VB => Some VB
    | None => VBase
    end.
Proof.
  induction rest as [|Element rest IH]; intros i Start VBase; [reflexivity|].
  cbn [find_virtual_base last_virtual_base].
  destruct (isVirtual (Element_Base Element)); rewrite IH;
    destruct (last_virtual_base rest); reflexivity.
Qed.

(** What [GetAddressOfBaseClass] emits on a path with a virtual step. *)
Lemma GetAddressOfBaseClass_virtual CGM Value Class BaseClass Path VBase nc s :
  same_decl Class BaseClass = false ->
  isDerivedFrom CGM Class BaseClass = Some Path ->
  last_virtual_base Path = Some VBase ->
  GetAddressOfBaseClass CGM Value Class BaseClass nc s =
  (blocks <-
     (if nc then
        CastNull <- createBasicBlock ;;
        CastNotNull <- createBasicBlock ;;
        CastEnd <- createBasicBlock ;;
        IsNull <- CreateICmp ICMP_EQ (PointerWidth CGM) Value ONull ;;
        CreateCondBr IsNull CastNull CastNotNull ;;
        EmitBlock CastNotNull ;;
        ret (CastNull, CastNotNull, CastEnd)
      else ret (0%nat, 0%nat, 0%nat)) ;;
   let '(CastNull, CastNotNull, CastEnd) := blocks in
   VO <- GetVirtualBaseClassOffset CGM Value Class VBase ;;
   BaseOffset <-
     (if path_offset CGM (after_last_virtual Path) =? 0 then ret VO
      else CreateAdd (PointerWidth CGM) VO
             (ConstantInt_ptrdiff CGM
                (path_offset CGM (after_last_virtual Path)))) ;;
   Value <- CreateBitCast Value ;;
   Value <- CreateGEP Value BaseOffset PInt8 ;;
   Value <- CreateBitCast Value ;;
   if nc then
     CreateBr CastEnd ;;
     EmitBlock CastNull ;;
     CreateBr CastEnd ;;
     EmitBlock CastEnd ;;
     CreatePHI [(Value, CastNotNull); (ONull, CastNull)]
   else ret Value) s.
Proof.
  intros Hsame Hpath Hlast. unfold GetAddressOfBaseClass.
  rewrite Hsame, Hpath.
  destruct (find_virtual_base Path 0 0 None) as [Start VB] eqn:Hfind.
  pose proof (find_virtual_base_last Path 0 0 None) as Hsnd.
  rewrite Hfind, Hlast in Hsnd. cbn [snd] in Hsnd. subst VB.
  rewrite bind_unfold.
  rewrite (ComputeNonVirtualBaseClassOffset_after_virtual _ _ _ _ _ Hfind).
  cbn [isSome negb]. rewrite andb_false_r.
  destruct (path_offset CGM (after_last_virtual Path) =? 0), nc; reflexivity.
Qed.


(* ===================================================================== *)
(** * Orders of declarations                                              *)
(* ===================================================================== *)

Lemma occurs_In x l : occurs x l = true <-> In x l.
Proof.
  unfold occurs. rewrite existsb_exists. split.
  - intros (y & Hy & Hxy). apply Nat.eqb_eq in Hxy. subst. exact Hy.
  - intros H. exists x. split; [exact H|apply Nat.eqb_refl].
Qed.

Lemma occurs_not_In x l : ~ In x l -> occurs x l = false.
Proof.
  intros H. destruct (occurs x l) eqn:Ho; [|reflexivity].
  apply occurs_In in Ho. contradiction.
Qed.

Lemma occurs_ext x l1 l2 :
  (In x l1 <-> In x l2) -> occurs x l1 = occurs x l2.
Proof.
  intros H. destruct (occurs x l2) eqn:H2.
  - apply occurs_In. apply H. apply occurs_In. exact H2.
  - apply occurs_not_In. intros H1. apply H in H1. apply occurs_In in H1.
    congruence.
Qed.

(** A list in declaration order names declared things only. *)
Lemma in_declaration_order_In decls : forall ids x,
  in_declaration_order ids decls = true -> In x ids -> In x decls.
Proof.
  induction decls as [|d decls IH]; intros ids x H Hx.
  - destruct ids; [destruct Hx|discriminate H].
  - destruct ids as [|i ids]; [destruct Hx|].
    cbn [in_declaration_order] in H.
    destruct (Nat.eqb i d) eqn:Hid.
    + apply Nat.eqb_eq in Hid. subst i.
      destruct Hx as [<-|Hx]; [left; reflexivity|].
      right. exact (IH _ _ H Hx).
    + right. exact (IH _ _ H Hx).
Qed.

Lemma filter_false {A} (f : A -> bool) l :
  (forall x, In x l -> f x = false) -> List.filter f l = [].
Proof.
  induction l as [|a l IH]; intros H; [reflexivity|].
  cbn. rewrite (H a (or_introl eq_refl)). apply IH.
  intros x Hx. apply H. right. exact Hx.
Qed.

(** Of declarations with different numbers, the selected ones that are
    listed and the listed ones that are selected are the same list, when
    the list is in declaration order. *)
Lemma filter_occurs_declarations {A} (k : A -> DeclID) (p : A -> bool)
    (decls : list A) : forall ids,
  distinct (map k decls) = true ->
  in_declaration_order ids (map k decls) = true ->
  List.filter (fun x => occurs x ids) (map k (List.filter p decls))
  = List.filter (fun x => occurs x (map k (List.filter p decls))) ids.
Proof.
  induction decls as [|a decls IH]; intros ids Hd Ho.
  - destruct ids; [reflexivity|discriminate Ho].
  - cbn [map distinct] in Hd. apply andb_true_iff in Hd as [Ha Hd].
    apply negb_true_iff in Ha.
    assert (Hfresh : forall x, In x (map k decls) -> Nat.eqb x (k a) = false).
    { intros x Hx. apply Nat.eqb_neq. intros ->.
      assert (occurs (k a) (map k decls) = true) by (apply occurs_In; exact Hx).
      unfold occurs in H. congruence. }
    assert (Hsel : forall x, In x (map k (List.filter p decls)) ->
                             In x (map k decls)).
    { intros x Hx. apply in_map_iff in Hx as (y & <- & Hy).
      apply filter_In in Hy as [Hy _]. apply in_map. exact Hy. }
    set (X := map k (List.filter p decls)) in *.
    assert (HaX : occurs (k a) X = false).
    { apply occurs_not_In. intros Hx. apply Hsel in Hx.
      apply Hfresh in Hx. rewrite Nat.eqb_refl in Hx. discriminate Hx. }
    destruct ids as [|i ids].
    + cbn [List.filter]. apply filter_false. reflexivity.
    + cbn [map in_declaration_order] in Ho.
      destruct (Nat.eqb i (k a)) eqn:Hi.
      * apply Nat.eqb_eq in Hi. subst i.
        pose proof (fun x => in_declaration_order_In _ _ x Ho) as Hin.
        pose proof (IH ids Hd Ho) as IH'. fold X in IH'.
        assert (E1 : List.filter (fun x => occurs x (k a :: ids)) X
                     = List.filter (fun x => occurs x ids) X).
        { apply filter_ext_in. intros x Hx. unfold occurs. cbn [existsb].
          rewrite (Hfresh x (Hsel x Hx)). reflexivity. }
        cbn [List.filter map].
        destruct (p a) eqn:Hp; cbn [map List.filter].
        -- fold X.
           assert (Hself : forall l, occurs (k a) (k a :: l) = true)
             by (intros l; unfold occurs; cbn [existsb];
                 rewrite Nat.eqb_refl; reflexivity).
           rewrite !Hself. f_equal.
           rewrite E1, IH'. apply filter_ext_in. intros x Hx.
           unfold occurs. cbn [existsb].
           rewrite (Hfresh x (Hin x Hx)). reflexivity.
        -- fold X. rewrite HaX, E1. exact IH'.
      * assert (Hin : forall x, In x (i :: ids) -> In x (map k decls))
          by (intros x; apply in_declaration_order_In; exact Ho).
        pose proof (IH (i :: ids) Hd Ho) as IH'. fold X in IH'.
        clear Ho Hi. set (I := i :: ids) in *. clearbody I.
        cbn [List.filter map].
        destruct (p a) eqn:Hp; cbn [map]; fold X.
        -- cbn [List.filter].
           assert (Hai : occurs (k a) I = false).
           { apply occurs_not_In. intros Hx. apply Hin in Hx.
             apply Hfresh in Hx. rewrite Nat.eqb_refl in Hx. discriminate Hx. }
           rewrite Hai, IH'. apply filter_ext_in. intros x Hx.
           unfold occurs. cbn [existsb].
           rewrite (Hfresh x (Hin x Hx)). reflexivity.
        -- exact IH'.
Qed.

(** What is destroyed from the last declaration to the first is destroyed
    in the reverse of the order of a construction that follows the
    declarations. *)
Lemma reverse_order_of_declarations {A} (k : A -> DeclID) (p : A -> bool)
    (decls : list A) ids :
  distinct (map k decls) = true ->
  in_declaration_order ids (map k decls) = true ->
  reverse_order ids (map k (List.filter p (rev decls))).
Proof.
  intros Hd Ho. unfold reverse_order.
  rewrite filter_rev, map_rev, filter_rev.
  rewrite (filter_occurs_declarations k p decls ids Hd Ho).
  f_equal. apply filter_ext. intros x.
  apply occurs_ext. rewrite <- in_rev. reflexivity.
Qed.

(* ===================================================================== *)
(** * Pieces of code                                                      *)
(* ===================================================================== *)

Lemma pieces_of_none {A} (sel : A -> bool) l : forall os,
  List.filter sel l = [] -> pieces_of sel l os = [].
Proof.
  unfold pieces_of.
  induction l as [|a l IH]; intros os H; [reflexivity|].
  destruct os as [|o os]; [reflexivity|].
  cbn [List.filter] in H. cbn [combine List.filter fst].
  destruct (sel a); [discriminate H|]. exact (IH os H).
Qed.

(** When [sel] selects one element, its code is the piece emitted for
    it. *)
Lemma pieces_of_single {A} (sel : A -> bool) (R : A -> list instr -> Prop)
    l os x :
  Forall2 R l os -> List.filter sel l = [x] -> R x (pieces_of sel l os).
Proof.
  intros HR. induction HR as [|a o l os Ha HR IH]; intros H.
  - discriminate H.
  - cbn [List.filter] in H. unfold pieces_of.
    cbn [combine List.filter fst].
    destruct (sel a) eqn:Hs.
    + inversion H; subst.
      cbn [map snd concat].
      match goal with
      | H1 : List.filter sel l = [] |- _ =>
          pose proof (pieces_of_none sel l os H1) as Hn
      end.
      unfold pieces_of in Hn. rewrite Hn, app_nil_r. exact Ha.
    + exact (IH H).
Qed.

(* ===================================================================== *)
(** * Running the flat copy of a sub-object                               *)
(* ===================================================================== *)

Section TrivialCopy.

#[local] Arguments GetAddressOfBaseClass : simpl never.

(** The flat copy of a sub-object, run: the address adjustments leave
    the two pointers at the sub-object, and one flat copy is performed,
    from the sub-object of the source to that of the destination. *)
Lemma EmitClassMemberwiseCopy_trivial_runs CGM CGF Dest Src ClassDecl
    BaseClassDecl Ty s E bb rs dest src da sa :
  hasTrivialCopyConstructor BaseClassDecl = true ->
  0 < PointerWidth CGM ->
  env_bits E = PointerWidth CGM ->
  fresh_for s Dest -> fresh_for s Src ->
  eval E rs Dest = Some (RInt dest) ->
  eval E rs Src = Some (RInt src) ->
  0 <= dest < 2 ^ PointerWidth CGM ->
  0 <= src < 2 ^ PointerWidth CGM ->
  subobject_address CGM E ClassDecl BaseClassDecl dest = Some da ->
  subobject_address CGM E ClassDecl BaseClassDecl src = Some sa ->
  exists s' out fuel m,
    EmitClassMemberwiseCopy CGM CGF Dest Src ClassDecl BaseClassDecl Ty s
    = Ok tt s' out /\
    exec E fuel out (start bb rs) = Some m /\
    trace m = [EvAggregateCopy (RInt da) (RInt sa) Ty].
Proof.
  intros Htriv HW HE HfD HfS HD HS Hrd Hrs Hda Hsa.
  assert (Hwd : wrap (PointerWidth CGM) dest = dest)
    by (apply wrap_small; lia).
  assert (Hws : wrap (PointerWidth CGM) src = src)
    by (apply wrap_small; lia).
  unfold EmitClassMemberwiseCopy. rewrite Htriv.
  destruct ClassDecl as [Class|]; cbn [subobject_address] in Hda, Hsa.
  2:{ inversion Hda; inversion Hsa; subst.
      cbn. do 4 eexists. split; [reflexivity|]. split.
      - run_all ltac:(rewrite ?HD, ?HS).
      - machine_simpl idtac. reflexivity. }
  destruct (adjustment_offset CGM Class BaseClassDecl) as [Off|] eqn:Hadj.
  - inversion Hda; inversion Hsa; subst. clear Hda Hsa.
    rewrite !bind_unfold.
    rewrite (GetAddressOfBaseClass_nonvirtual _ _ _ _ _ _ _ Hadj).
    destruct (Off =? 0) eqn:Hz.
    + cbn. rewrite !bind_unfold.
      rewrite (GetAddressOfBaseClass_nonvirtual _ _ _ _ _ _ _ Hadj), Hz.
      cbn. do 4 eexists. split; [reflexivity|]. split.
      * run_all ltac:(rewrite ?(eval_upd_fresh _ _ _ _ s) by (auto; lia);
                      rewrite ?HD, ?HS).
      * machine_simpl idtac. apply Z.eqb_eq in Hz. subst Off.
        rewrite !Z.add_0_r, Hwd, Hws. reflexivity.
    + cbn. rewrite !bind_unfold.
      rewrite (GetAddressOfBaseClass_nonvirtual _ _ _ _ _ _ _ Hadj), Hz.
      cbn. do 4 eexists. split; [reflexivity|]. split.
      * run_all ltac:(rewrite ?(eval_upd_fresh _ _ _ _ s) by (auto; lia);
                      rewrite ?HD, ?HS, ?HE, ?Z.mul_1_r).
      * machine_simpl idtac. rewrite !wrap_add_r. reflexivity.
  - assert (Hsame : same_decl Class BaseClassDecl = false).
    { unfold adjustment_offset in Hadj.
      destruct (same_decl Class BaseClassDecl); [discriminate Hadj|].
      reflexivity. }
    destruct (isDerivedFrom CGM Class BaseClassDecl) as [Path|] eqn:Hpath;
      [|discriminate Hda].
    destruct (last_virtual_base Path) as [VBase|] eqn:Hlast;
      [|discriminate Hda].
    destruct (env_load E dest) as [vtd| |] eqn:Hvtd; try discriminate Hda.
    destruct (env_load E (wrap (PointerWidth CGM)
                            (vtd + getVirtualBaseOffsetIndex CGM
                                     (decl_id Class) (decl_id VBase))))
      as [voffd| |] eqn:Hvoffd; try discriminate Hda.
    destruct (env_load E src) as [vts| |] eqn:Hvts; try discriminate Hsa.
    destruct (env_load E (wrap (PointerWidth CGM)
                            (vts + getVirtualBaseOffsetIndex CGM
                                     (decl_id Class) (decl_id VBase))))
      as [voffs| |] eqn:Hvoffs; try discriminate Hsa.
    inversion Hda; inversion Hsa; subst da sa. clear Hda Hsa.
    set (Off := path_offset CGM (after_last_virtual Path)) in *.
    rewrite !bind_unfold.
    rewrite (GetAddressOfBaseClass_virtual _ _ _ _ _ _ _ _ Hsame Hpath Hlast).
    fold Off. unfold GetVirtualBaseClassOffset.
    destruct (Off =? 0) eqn:Hz.
    + cbn. rewrite !bind_unfold.
      rewrite (GetAddressOfBaseClass_virtual _ _ _ _ _ _ _ _ Hsame Hpath
                 Hlast).
      fold Off. rewrite Hz. unfold GetVirtualBaseClassOffset.
      cbn. do 4 eexists. split; [reflexivity|]. split.
      * run_all ltac:(rewrite ?(eval_upd_fresh _ _ _ _ s) by (auto; lia);
                      rewrite ?HD, ?HS, ?HE, ?Hvtd, ?Hvts, ?Z.mul_1_r,
                              ?Hvoffd, ?Hvoffs).
      * machine_simpl idtac. rewrite ?HE, ?Z.mul_1_r.
        apply Z.eqb_eq in Hz. rewrite Hz, !Z.add_0_r. reflexivity.
    + cbn. rewrite !bind_unfold.
      rewrite (GetAddressOfBaseClass_virtual _ _ _ _ _ _ _ _ Hsame Hpath
                 Hlast).
      fold Off. rewrite Hz. unfold GetVirtualBaseClassOffset.
      cbn. do 4 eexists. split; [reflexivity|]. split.
      * run_all ltac:(rewrite ?(eval_upd_fresh _ _ _ _ s) by (auto; lia);
                      rewrite ?HD, ?HS, ?HE, ?Hvtd, ?Hvts, ?Z.mul_1_r,
                              ?Hvoffd, ?Hvoffs).
      * machine_simpl idtac. rewrite ?HE, ?Z.mul_1_r, ?wrap_add_r.
        rewrite ?Z.add_assoc, ?wrap_add_r. reflexivity.
Qed.

End TrivialCopy.

(* ===================================================================== *)
(** * Address adjustment                                                  *)
(* ===================================================================== *)

(** C10.  When the adjustment from [Derived] to [Base] crosses no virtual
    edge and its total non-virtual offset is zero (the class itself
    included), [GetAddressOfBaseClass] and [GetAddressOfDerivedClass] emit
    a single cast of the input pointer and nothing else, whether or not a
    null check is requested: no comparison, no branch.  Running the cast
    gives the value of the input pointer unchanged, so null stays null. *)
Theorem zero_offset_adjustment_is_a_cast :
  forall CGM Value Derived Base (NullCheckValue : bool) s,
    adjustment_offset CGM Derived Base = Some 0 ->
    let cast := Ok (OReg (NextReg s)) (advance s 1) [IBitCast (NextReg s) Value] in
    GetAddressOfBaseClass CGM Value Derived Base NullCheckValue s = cast /\
    GetAddressOfDerivedClass CGM Value Base Derived NullCheckValue s = cast /\
    forall E bb rs x,
      eval E rs Value = Some x ->
      exists m,
        exec E 1 [IBitCast (NextReg s) Value] (start bb rs) = Some m /\
        eval E (regs m) (OReg (NextReg s)) = Some x /\
        trace m = [].
Proof.
  intros CGM Value Derived Base nc s H cast.
  rewrite (GetAddressOfBaseClass_nonvirtual _ _ _ _ _ _ _ H).
  rewrite (GetAddressOfDerivedClass_nonvirtual _ _ _ _ _ _ _ H).
  change (0 =? 0) with true. cbv iota.
  repeat split.
  intros E bb rs x Hx. eexists. split; [|split].
  - run_all ltac:(rewrite ?Hx).
  - machine_simpl idtac. reflexivity.
  - reflexivity.
Qed.

(** C5.  For a (Derived, Base) pair whose inheritance path has no virtual
    edge, with non-virtual offset [Off]: running the code of
    [GetAddressOfBaseClass] and then that of [GetAddressOfDerivedClass] on
    a non-null pointer [p] to an object whose [Base] sub-object lies in the
    address space first gives [p + Off] and then [p] again, with or without
    null checks; and with the null check requested either adjustment maps
    the null pointer to the null pointer. *)
Theorem derived_to_base_to_derived_roundtrip :
  forall CGM Derived Base Off Value s E bb,
    adjustment_offset CGM Derived Base = Some Off ->
    0 < PointerWidth CGM ->
    env_bits E = PointerWidth CGM ->
    fresh_for s Value ->
    (forall (nc1 nc2 : bool) rs p,
        eval E rs Value = Some (RInt p) ->
        0 < p -> p + Off < 2 ^ PointerWidth CGM ->
        exists v1 s1 out1 v2 s2 out2 fuel m,
          GetAddressOfBaseClass CGM Value Derived Base nc1 s = Ok v1 s1 out1 /\
          GetAddressOfDerivedClass CGM v1 Base Derived nc2 s1 = Ok v2 s2 out2 /\
          exec E fuel (out1 ++ out2) (start bb rs) = Some m /\
          eval E (regs m) v1 = Some (RInt (p + Off)) /\
          eval E (regs m) v2 = Some (RInt p)) /\
    (forall rs,
        eval E rs Value = Some (RInt 0) ->
        exists v1 s1 out1 fuel m,
          GetAddressOfBaseClass CGM Value Derived Base true s = Ok v1 s1 out1 /\
          exec E fuel out1 (start bb rs) = Some m /\
          eval E (regs m) v1 = Some (RInt 0)) /\
    (forall rs,
        eval E rs Value = Some (RInt 0) ->
        exists v2 s2 out2 fuel m,
          GetAddressOfDerivedClass CGM Value Base Derived true s = Ok v2 s2 out2 /\
          exec E fuel out2 (start bb rs) = Some m /\
          eval E (regs m) v2 = Some (RInt 0)).
Proof.
  intros CGM Derived Base Off Value s E bb HOff HW HE Hfresh.
  pose proof (adjustment_offset_nonneg _ _ _ _ HOff) as HOff0.
  assert (HW0 : wrap (PointerWidth CGM) 0 = 0) by (apply wrap_small; split; [lia|apply Z.pow_pos_nonneg; lia]).
  split; [|split].
  - intros nc1 nc2 rs p Hp Hp0 Hfit.
    assert (Hwp : wrap (PointerWidth CGM) p = p) by (apply wrap_small; lia).
    assert (HwO : wrap (PointerWidth CGM) Off = Off) by (apply wrap_small; lia).
    assert (HwpO : wrap (PointerWidth CGM) (p + Off * 1) = p + Off)
      by (rewrite Z.mul_1_r; apply wrap_small; lia).
    assert (HwpO' : wrap (PointerWidth CGM) (p + Off) = p + Off)
      by (apply wrap_small; lia).
    assert (Hback : wrap (PointerWidth CGM) (p + Off - Off) = p)
      by (replace (p + Off - Off) with p by lia; exact Hwp).
    assert (Hne1 : (p =? 0) = false) by (apply Z.eqb_neq; lia).
    assert (Hne2 : (p + Off =? 0) = false) by (apply Z.eqb_neq; lia).
    rewrite (GetAddressOfBaseClass_nonvirtual _ _ _ _ _ _ _ HOff).
    destruct (Off =? 0) eqn:Hz.
    + apply Z.eqb_eq in Hz. subst Off. cbn.
      do 3 eexists. exists (OReg (S (NextReg s))). do 4 eexists.
      split; [reflexivity|]. split.
      { rewrite (GetAddressOfDerivedClass_nonvirtual _ _ _ _ _ _ _ HOff).
        cbn. reflexivity. }
      split; [|split].
      * cbn [app].
        run_all ltac:(rewrite ?(eval_upd_fresh _ _ _ _ s) by (auto; lia);
                      rewrite ?Hp).
      * machine_simpl idtac. rewrite Z.add_0_r. reflexivity.
      * machine_simpl idtac. reflexivity.
    + destruct nc1, nc2;
        (cbn; do 8 eexists;
         split; [reflexivity|];
         split;
         [ rewrite (GetAddressOfDerivedClass_nonvirtual _ _ _ _ _ _ _ HOff);
           rewrite Hz; cbn; reflexivity |];
         split; [|split];
         [ cbn [app];
           run_all ltac:(rewrite ?(eval_upd_fresh _ _ _ _ s) by (auto; lia);
                         rewrite ?Hp, ?HE, ?HW0, ?Hwp, ?HwO, ?HwpO, ?HwpO', ?Hback,
                                 ?Hne1, ?Hne2)
         | machine_simpl idtac; reflexivity
         | machine_simpl idtac; reflexivity ]).
  - intros rs Hp.
    rewrite (GetAddressOfBaseClass_nonvirtual _ _ _ _ _ _ _ HOff).
    destruct (Off =? 0) eqn:Hz;
      (cbn; do 5 eexists; split; [reflexivity|]; split;
       [ run_all ltac:(rewrite ?(eval_upd_fresh _ _ _ _ s) by (auto; lia);
                       rewrite ?Hp, ?HE, ?HW0; change (0 =? 0) with true)
       | machine_simpl idtac; reflexivity ]).
  - intros rs Hp.
    rewrite (GetAddressOfDerivedClass_nonvirtual _ _ _ _ _ _ _ HOff).
    destruct (Off =? 0) eqn:Hz;
      (cbn; do 5 eexists; split; [reflexivity|]; split;
       [ run_all ltac:(rewrite ?(eval_upd_fresh _ _ _ _ s) by (auto; lia);
                       rewrite ?Hp, ?HE, ?HW0; change (0 =? 0) with true)
       | machine_simpl idtac; reflexivity ]).
Qed.

Lemma zero_offset_adjustment_is_a_cast_witness :
  let cast := Ok (OReg 0) (advance ex_s 1) [IBitCast 0 (OArg 0)] in
  GetAddressOfBaseClass ex_CGM (OArg 0) ex_C ex_A true ex_s = cast /\
  GetAddressOfDerivedClass ex_CGM (OArg 0) ex_A ex_C true ex_s = cast /\
  forall E bb rs x,
    eval E rs (OArg 0) = Some x ->
    exists m,
      exec E 1 [IBitCast 0 (OArg 0)] (start bb rs) = Some m /\
      eval E (regs m) (OReg 0) = Some x /\
      trace m = [].
Proof.
  apply (zero_offset_adjustment_is_a_cast ex_CGM (OArg 0) ex_C ex_A true ex_s).
  reflexivity.
Defined.

Lemma derived_to_base_to_derived_roundtrip_witness :
  (forall (nc1 nc2 : bool) rs p,
      eval ex_E rs (OArg 0) = Some (RInt p) ->
      0 < p -> p + 16 < 2 ^ PointerWidth ex_CGM ->
      exists v1 s1 out1 v2 s2 out2 fuel m,
        GetAddressOfBaseClass ex_CGM (OArg 0) ex_C ex_B nc1 ex_s = Ok v1 s1 out1 /\
        GetAddressOfDerivedClass ex_CGM v1 ex_B ex_C nc2 s1 = Ok v2 s2 out2 /\
        exec ex_E fuel (out1 ++ out2) (start 0 rs) = Some m /\
        eval ex_E (regs m) v1 = Some (RInt (p + 16)) /\
        eval ex_E (regs m) v2 = Some (RInt p)) /\
  (forall rs,
      eval ex_E rs (OArg 0) = Some (RInt 0) ->
      exists v1 s1 out1 fuel m,
        GetAddressOfBaseClass ex_CGM (OArg 0) ex_C ex_B true ex_s = Ok v1 s1 out1 /\
        exec ex_E fuel out1 (start 0 rs) = Some m /\
        eval ex_E (regs m) v1 = Some (RInt 0)) /\
  (forall rs,
      eval ex_E rs (OArg 0) = Some (RInt 0) ->
      exists v2 s2 out2 fuel m,
        GetAddressOfDerivedClass ex_CGM (OArg 0) ex_B ex_C true ex_s = Ok v2 s2 out2 /\
        exec ex_E fuel out2 (start 0 rs) = Some m /\
        eval ex_E (regs m) v2 = Some (RInt 0)).
Proof.
  apply (derived_to_base_to_derived_roundtrip ex_CGM ex_C ex_B 16 (OArg 0) ex_s
           ex_E 0%nat).
  - reflexivity.
  - reflexivity.
  - reflexivity.
  - exact I.
Defined.

(* ===================================================================== *)
(** * Array loops                                                         *)
(* ===================================================================== *)




(* ===================================================================== *)
(** * Installing the vtable pointers                                      *)
(* ===================================================================== *)

(** C8.  [InitializeVtablePtrs] walks the class as planned
    ([vtable_pointer_plan]): each virtual base once, at its offset in the
    complete object, then the non-virtual base hierarchy and the class
    itself with the offset accumulated along non-virtual edges only.  With
    the address points of the walk in the table, it emits for each visit
    (class, offset), in this order, the store of the address point keyed
    by (class, offset), and running the code stores it at
    [this + offset / 8]; for a class that is not dynamic nothing is
    emitted. *)
Theorem vtable_pointers_installed_as_planned :
  forall CGM ClassDecl s E bb rs this,
    let plan := vtable_pointer_plan CGM ClassDecl in
    let AP := AddressPoints CGM (decl_id ClassDecl) in
    let Vtable := GVtable (decl_id ClassDecl) in
    address_points_present AP plan = true ->
    env_this E = RInt this ->
    InitializeVtablePtrs CGM ClassDecl s
    = Ok tt (advance s (3 * length plan))
        (vtable_stores_code Vtable AP (NextReg s) plan) /\
    (exists fuel m,
        exec E fuel (vtable_stores_code Vtable AP (NextReg s) plan) (start bb rs)
        = Some m /\
        trace m = map (vtable_store_event E Vtable AP this) plan) /\
    (isDynamicClass ClassDecl = false ->
     plan = [] /\ InitializeVtablePtrs CGM ClassDecl s = Ok tt s []).
Proof.
  intros CGM ClassDecl s E bb rs this plan AP Vtable Hpresent Hthis.
  split; [|split].
  - rewrite InitializeVtablePtrs_stores. cbv zeta.
    fold plan. fold AP. rewrite Hpresent. reflexivity.
  - destruct (exec_vtable_stores E Vtable AP this plan (NextReg s) []
                (start bb rs) eq_refl Hthis) as (fuel & m & Hexec & Htrace).
    exists fuel, m. split; [exact Hexec|exact Htrace].
  - intros Hdyn. unfold plan, vtable_pointer_plan, InitializeVtablePtrs.
    rewrite Hdyn. split; reflexivity.
Qed.

Lemma vtable_pointers_installed_as_planned_witness :
  (let plan := vtable_pointer_plan ex_CGM ex_C in
   let AP := AddressPoints ex_CGM (decl_id ex_C) in
   let Vtable := GVtable (decl_id ex_C) in
   plan = [(1%nat, 0); (2%nat, 128); (3%nat, 0)] /\
   InitializeVtablePtrs ex_CGM ex_C ex_s
   = Ok tt (advance ex_s (3 * length plan))
       (vtable_stores_code Vtable AP (NextReg ex_s) plan) /\
   exists fuel m,
     exec ex_E fuel (vtable_stores_code Vtable AP (NextReg ex_s) plan)
       (start 0 ex_regs) = Some m /\
     trace m = map (vtable_store_event ex_E Vtable AP 4096) plan) /\
  vtable_pointer_plan ex_CGM ex_V = [] /\
  InitializeVtablePtrs ex_CGM ex_V ex_s = Ok tt ex_s [].
Proof.
  split.
  - destruct (vtable_pointers_installed_as_planned ex_CGM ex_C ex_s ex_E
                0%nat ex_regs 4096 eq_refl eq_refl) as (H1 & H2 & _).
    split; [reflexivity|]. split; [exact H1|exact H2].
  - destruct (vtable_pointers_installed_as_planned ex_CGM ex_V ex_s ex_E
                0%nat ex_regs 4096 eq_refl eq_refl) as (_ & _ & H3).
    exact (H3 eq_refl).
Defined.

(* ===================================================================== *)
(** * The constructor prologue                                            *)
(* ===================================================================== *)





(* ===================================================================== *)
(** * Virtual bases                                                       *)
(* ===================================================================== *)

(** C3.  Let [V] be a virtual base of the class of a constructor: [BV]
    is its one entry in the list of the virtual bases of the class (which
    holds each virtual base once, also one reached through several
    non-virtual bases) and [IV] the one initializer of the constructor's
    list that targets it.  The prologue of the base-object constructor
    starts with one piece of code per base initializer of the list, and
    the piece of every initializer of a virtual base is empty: nothing
    constructs [V].  The prologue of the complete-object constructor
    starts with one piece per base initializer, each evaluating the
    expression of its initializer once, and the code for [V] is the piece
    of [IV]: [V] is constructed exactly once.  The epilogue of the
    complete-object destructor of the class is one piece per virtual
    base, from the last to the first, and the piece of [V] holds exactly
    one destructor call, of the base-object destructor of [V], when the
    destructor of [V] is not trivial, and no call when it is trivial. *)
Theorem virtual_base_constructed_and_destroyed_by_complete_variants :
  forall CGM CGFb CGFc CGFd CD DD BV IV sb sb' outb sc sc' outc sd sd' outd,
    let ClassDecl := ctor_parent CD in
    let base_inits := List.filter isBaseInitializer (ctor_inits CD) in
    dtor_parent DD = ClassDecl ->
    List.filter (fun B => same_decl (getDecl B) (getDecl BV)) (vbases ClassDecl)
    = [BV] ->
    List.filter (targets_base BV) base_inits = [IV] ->
    EmitCtorPrologue CGM CGFb CD Ctor_Base sb = Ok tt sb' outb ->
    EmitCtorPrologue CGM CGFc CD Ctor_Complete sc = Ok tt sc' outc ->
    EmitDtorEpilogue CGM CGFd DD Dtor_Complete sd = Ok tt sd' outd ->
    (exists osB rest,
        outb = concat osB ++ rest /\
        Forall2
          (fun I o =>
             (initializer_of_virtual_base ClassDecl I = true -> o = []) /\
             initializer_exprs o
             = if initializer_of_virtual_base ClassDecl I then []
               else [getInit I])
          base_inits osB /\
        pieces_of (targets_base BV) base_inits osB = []) /\
    (exists osB rest,
        outc = concat osB ++ rest /\
        Forall2 (fun I o => initializer_exprs o = [getInit I]) base_inits osB /\
        initializer_exprs (pieces_of (targets_base BV) base_inits osB)
        = [getInit IV]) /\
    (exists osV,
        outd = concat osV /\
        Forall2
          (fun B o => destructor_calls o = vbase_destructor_call B)
          (rev (vbases ClassDecl)) osV /\
        destructor_calls
          (pieces_of (fun B => same_decl (getDecl B) (getDecl BV))
             (rev (vbases ClassDecl)) osV)
        = vbase_destructor_call BV /\
        length (vbase_destructor_call BV)
        = if hasTrivialDestructor (getDecl BV) then 0%nat else 1%nat).
Proof.
  intros CGM CGFb CGFc CGFd CD DD BV IV sb sb' outb sc sc' outc sd sd' outd
    ClassDecl base_inits HDD HBV HIV Hb Hc Hd.
  assert (HBVin : In BV (vbases ClassDecl)).
  { assert (Hin : In BV [BV]) by (left; reflexivity).
    rewrite <- HBV in Hin. apply filter_In in Hin. apply Hin. }
  assert (HIVv : initializer_of_virtual_base ClassDecl IV = true).
  { assert (Hin : In IV [IV]) by (left; reflexivity).
    rewrite <- HIV in Hin. apply filter_In in Hin as [_ Ht].
    unfold targets_base in Ht. unfold initializer_of_virtual_base.
    destruct (init_target IV) as [B|]; [|discriminate Ht].
    apply existsb_exists. exists BV. split; assumption. }
  split; [|split].
  - destruct (EmitCtorPrologue_decomposes _ _ _ _ _ _ _ Hb)
      as (s1 & s2 & osB & outV & osM & HcB & _ & _ & ->).
    exists osB, (outV ++ concat osM). split; [reflexivity|].
    assert (HF : Forall2
                   (fun I o =>
                      (initializer_of_virtual_base ClassDecl I = true -> o = [])
                      /\ initializer_exprs o
                         = if initializer_of_virtual_base ClassDecl I then []
                           else [getInit I])
                   base_inits osB).
    { apply (chain_Forall2 _ _ _ _ _ _ HcB).
      intros I a b o HI. split.
      - intros Hv. unfold EmitBaseInitializer in HI.
        unfold initializer_of_virtual_base in Hv.
        destruct (init_target I) as [B|]; [|discriminate Hv].
        fold ClassDecl in HI. cbn in HI. rewrite Hv in HI.
        inversion HI. reflexivity.
      - apply EmitBaseInitializer_emits in HI. destruct HI as (_ & _ & HI).
        rewrite HI. unfold base_initializer_skipped, initializer_of_virtual_base.
        destruct (init_target I); reflexivity. }
    split; [exact HF|].
    apply (pieces_of_single _ _ _ _ _ HF HIV). exact HIVv.
  - destruct (EmitCtorPrologue_decomposes _ _ _ _ _ _ _ Hc)
      as (s1 & s2 & osB & outV & osM & HcB & _ & _ & ->).
    exists osB, (outV ++ concat osM). split; [reflexivity|].
    assert (HF : Forall2 (fun I o => initializer_exprs o = [getInit I])
                   base_inits osB).
    { apply (chain_Forall2 _ _ _ _ _ _ HcB).
      intros I a b o HI.
      apply EmitBaseInitializer_emits in HI. destruct HI as (_ & _ & HI).
      rewrite HI. unfold base_initializer_skipped.
      destruct (init_target I); reflexivity. }
    split; [exact HF|].
    exact (pieces_of_single _ _ _ _ _ HF HIV).
  - destruct (EmitDtorEpilogue_complete_decomposes _ _ _ _ _ _ Hd)
      as (osV & HcV & ->).
    rewrite HDD in HcV.
    exists osV. split; [reflexivity|].
    assert (HF : Forall2
                   (fun B o => destructor_calls o = vbase_destructor_call B)
                   (rev (vbases ClassDecl)) osV).
    { apply (chain_Forall2 _ _ _ _ _ _ HcV).
      intros B a b o HB.
      apply (DtorEpilogue_vbase_destroys _ _ _ _ _ _ _ HB). }
    split; [exact HF|]. split.
    + apply (pieces_of_single _ _ _ _ _ HF).
      rewrite filter_rev, HBV. reflexivity.
    + unfold vbase_destructor_call.
      destruct (hasTrivialDestructor (getDecl BV)) eqn:Htriv; [reflexivity|].
      destruct (getDestructor (getDecl BV)) eqn:HD; [reflexivity|].
      exfalso.
      apply in_rev in HBVin.
      clear HF Hd. induction HcV as [|B l a b c o os HB HcV IH];
        [destruct HBVin|].
      destruct HBVin as [->|Hin]; [|exact (IH Hin)].
      unfold DtorEpilogue_vbase in HB. rewrite Htriv, HD in HB.
      unfold GetAddressOfBaseOfCompleteClass in HB.
      emit_inv HB.
Qed.

Lemma virtual_base_constructed_and_destroyed_by_complete_variants_witness :
  exists sb' outb sc' outc sd' outd,
    EmitCtorPrologue ex_CGM_Diamond (ex_CGF_in 10) ex_ctor_Diamond Ctor_Base ex_s
    = Ok tt sb' outb /\
    EmitCtorPrologue ex_CGM_Diamond (ex_CGF_in 10) ex_ctor_Diamond Ctor_Complete ex_s
    = Ok tt sc' outc /\
    EmitDtorEpilogue ex_CGM_Diamond (ex_CGF_in 10) (ex_dtor ex_Diamond) Dtor_Complete
      ex_s = Ok tt sd' outd /\
    (exists osB rest,
        outb = concat osB ++ rest /\
        pieces_of (targets_base (mkCXXBaseSpecifier true ex_W))
          [ex_init_W; ex_init_L; ex_init_R] osB = []) /\
    (exists osB rest,
        outc = concat osB ++ rest /\
        initializer_exprs
          (pieces_of (targets_base (mkCXXBaseSpecifier true ex_W))
             [ex_init_W; ex_init_L; ex_init_R] osB)
        = [getInit ex_init_W]) /\
    (exists osV,
        outd = concat osV /\
        destructor_calls
          (pieces_of (fun B => same_decl (getDecl B) ex_W)
             [mkCXXBaseSpecifier true ex_W] osV)
        = [(ex_method 63 6, Dtor_Base)]) /\
    initializer_exprs outb = [getInit ex_init_L; getInit ex_init_R] /\
    initializer_exprs outc
    = [getInit ex_init_W; getInit ex_init_L; getInit ex_init_R] /\
    destructor_calls outd = [(ex_method 63 6, Dtor_Base)].
Proof.
  destruct (EmitCtorPrologue ex_CGM_Diamond (ex_CGF_in 10) ex_ctor_Diamond Ctor_Base
              ex_s) as [[] sb' outb|msg] eqn:Hb;
    [|vm_compute in Hb; discriminate Hb].
  destruct (EmitCtorPrologue ex_CGM_Diamond (ex_CGF_in 10) ex_ctor_Diamond
              Ctor_Complete ex_s) as [[] sc' outc|msg] eqn:Hc;
    [|vm_compute in Hc; discriminate Hc].
  destruct (EmitDtorEpilogue ex_CGM_Diamond (ex_CGF_in 10) (ex_dtor ex_Diamond)
              Dtor_Complete ex_s) as [[] sd' outd|msg] eqn:Hd;
    [|vm_compute in Hd; discriminate Hd].
  destruct (virtual_base_constructed_and_destroyed_by_complete_variants
              ex_CGM_Diamond (ex_CGF_in 10) (ex_CGF_in 10) (ex_CGF_in 10)
              ex_ctor_Diamond (ex_dtor ex_Diamond)
              (mkCXXBaseSpecifier true ex_W) ex_init_W
              ex_s sb' outb ex_s sc' outc ex_s sd' outd
              eq_refl eq_refl eq_refl Hb Hc Hd)
    as ((osB & restb & H1 & _ & H2) & (osC & restc & H3 & _ & H4)
        & (osV & H5 & _ & H6 & _)).
  exists sb', outb, sc', outc, sd', outd.
  split; [reflexivity|]. split; [reflexivity|]. split; [reflexivity|].
  split; [exists osB, restb; split; assumption|].
  split; [exists osC, restc; split; assumption|].
  split; [exists osV; split; assumption|].
  vm_compute in Hb, Hc, Hd.
  inversion Hb; inversion Hc; inversion Hd. repeat split; reflexivity.
Defined.

(** The complete-object destructor of [D], whose virtual base [V] has a
    trivial destructor, emits no destructor call for [V]. *)
Lemma trivial_virtual_base_gets_no_destructor_call :
  exists s' out,
    EmitDtorEpilogue ex_CGM ex_CGF (ex_dtor ex_D) Dtor_Complete ex_s
    = Ok tt s' out /\
    existsb (fun B => same_decl (getDecl B) ex_V) (vbases ex_D) = true /\
    destructor_calls out = [] /\
    length (destructor_calls out) <> 1%nat.
Proof.
  eexists _, _. split; [vm_compute; reflexivity|].
  repeat split; try reflexivity. vm_compute. discriminate.
Qed.

(* ===================================================================== *)
(** * The destructor epilogue                                             *)
(* ===================================================================== *)

(** C4.  For a class without virtual bases, whose bases and fields
    are distinct declarations, the epilogue of the base-object destructor
    destroys the fields whose class has a non-trivial destructor in
    reverse declaration order, each with one call of the complete-object
    destructor of its class, and afterwards the bases in reverse
    declaration order, each base with a non-trivial destructor with one
    call of its base-object destructor.  The prologue of a constructor of
    the same class constructs the bases of its initializer list, each
    once, and then the fields of the list.  For an initializer list as
    semantic analysis hands it over, with the bases in the order of the
    base-specifier list and the fields in declaration order, destruction
    is exactly the reverse of construction: the fields that are both
    initialized and destroyed are destroyed in the reverse of the order in
    which they are initialized, and so are the bases, after the fields. *)
Theorem base_destructor_epilogue_reverses_prologue :
  forall CGM CGFd CGFc DD CD CtorType sd sd' out sc sc' outc,
    let ClassDecl := ctor_parent CD in
    EmitDtorEpilogue CGM CGFd DD Dtor_Base sd = Ok tt sd' out ->
    EmitCtorPrologue CGM CGFc CD CtorType sc = Ok tt sc' outc ->
    dtor_parent DD = ClassDecl ->
    vbases ClassDecl = [] ->
    distinct (base_ids ClassDecl) = true ->
    distinct (field_ids ClassDecl) = true ->
    in_declaration_order (omap initializer_base (ctor_inits CD))
      (base_ids ClassDecl) = true ->
    in_declaration_order (omap initializer_field (ctor_inits CD))
      (field_ids ClassDecl) = true ->
    (exists osF osB,
        out = concat osF ++ concat osB /\
        Forall2
          (fun F o =>
             destroyed_fields o = [field_id F] /\
             destructor_calls o = field_destructor_call F /\
             length (destructor_calls o) = 1%nat)
          (rev (List.filter DtorEpilogue_collects (fields ClassDecl))) osF /\
        Forall2
          (fun B o =>
             destroyed_fields o = [] /\
             destructor_calls o = base_destructor_call B /\
             length (destructor_calls o)
             = if negb (isVirtual B) && negb (hasTrivialDestructor (getDecl B))
               then 1%nat else 0%nat)
          (rev (bases ClassDecl)) osB) /\
    destroyed_fields out
    = rev (map field_id
             (List.filter DtorEpilogue_collects (fields ClassDecl))) /\
    destructor_calls out
    = concat (map field_destructor_call
                (rev (List.filter DtorEpilogue_collects (fields ClassDecl))))
      ++ concat (map base_destructor_call (rev (bases ClassDecl))) /\
    (exists cB rest,
        outc = concat cB ++ rest /\
        Forall2
          (fun I o => initializer_exprs o = [getInit I] /\
                      initialized_fields o = [])
          (List.filter isBaseInitializer (ctor_inits CD)) cB /\
        initialized_fields rest = initialized_fields outc) /\
    initialized_fields outc = omap initializer_field (ctor_inits CD) /\
    reverse_order (initialized_fields outc) (destroyed_fields out) /\
    reverse_order (omap initializer_base (ctor_inits CD))
      (destroyed_bases ClassDecl).
Proof.
  intros CGM CGFd CGFc DD CD CtorType sd sd' out sc sc' outc ClassDecl
    Hd Hc HDD Hnv HdB HdF HoB HoF.
  destruct (EmitDtorEpilogue_base_decomposes _ _ _ _ _ _ Hd)
    as (s1 & osF & osB & HcF & HcB & ->).
  rewrite HDD in HcF, HcB.
  assert (HF : destroyed_fields (concat osF)
               = rev (map field_id
                        (List.filter DtorEpilogue_collects (fields ClassDecl)))).
  { unfold destroyed_fields.
    rewrite (chain_omap _ _ (fun F => [field_id F]) _ _ _ _ HcF).
    - rewrite concat_map_singleton, map_rev. reflexivity.
    - intros F a b o HF.
      apply (DtorEpilogue_field_destroys _ _ _ _ _ _ HF). }
  assert (HB : destroyed_fields (concat osB) = []).
  { unfold destroyed_fields.
    rewrite (chain_omap _ _ (fun _ => []) _ _ _ _ HcB).
    - apply concat_map_nil.
    - intros B a b o HB.
      apply (DtorEpilogue_base_destroys _ _ _ _ _ _ _ HB). }
  assert (Hfields : destroyed_fields (concat osF ++ concat osB)
                    = rev (map field_id
                             (List.filter DtorEpilogue_collects
                                (fields ClassDecl)))).
  { rewrite destroyed_fields_app, HF, HB, app_nil_r. reflexivity. }
  destruct (EmitCtorPrologue_decomposes _ _ _ _ _ _ _ Hc)
    as (c1 & c2 & cB & cV & cM & HpB & HpV & HpM & ->).
  fold ClassDecl in HpB, HpV, HpM.
  pose proof (InitializeVtablePtrs_Ok _ _ _ _ _ HpV) as HoutV.
  destruct (vtable_stores_code_kinds (GVtable (decl_id ClassDecl))
              (AddressPoints CGM (decl_id ClassDecl))
              (vtable_pointer_plan CGM ClassDecl) (NextReg c1))
    as (_ & Hk2 & _ & _).
  rewrite <- HoutV in Hk2.
  assert (HcB0 : initialized_fields (concat cB) = []).
  { unfold initialized_fields.
    rewrite (chain_omap _ _ (fun _ => []) _ _ _ _ HpB).
    - apply concat_map_nil.
    - intros x a b o Hx. apply EmitBaseInitializer_emits in Hx. apply Hx. }
  assert (Hinit : initialized_fields (concat cB ++ cV ++ concat cM)
                  = omap initializer_field (ctor_inits CD)).
  { rewrite !initialized_fields_app, HcB0.
    unfold initialized_fields in *. rewrite Hk2.
    rewrite (chain_omap _ _ (fun I => match initializer_field I with
                                      | Some F => [F] | None => [] end)
               _ _ _ _ HpM).
    - rewrite member_initializer_fields. reflexivity.
    - intros x a b o Hx. apply EmitMemberInitializer_emits in Hx.
      destruct Hx as (_ & F & -> & Hx). exact Hx. }
  split; [|split; [|split; [|split; [|split; [|split]]]]].
  - exists osF, osB. split; [reflexivity|]. split.
    + apply (chain_Forall2 _ _ _ _ _ _ HcF).
      intros F a b o Ho. apply (DtorEpilogue_field_destroys _ _ _ _ _ _ Ho).
    + apply (chain_Forall2 _ _ _ _ _ _ HcB).
      intros B a b o Ho.
      pose proof (DtorEpilogue_base_destroys _ _ _ _ _ _ _ Ho) as [H1 H2].
      split; [exact H1|]. split; [exact H2|].
      rewrite H2. unfold base_destructor_call.
      unfold DtorEpilogue_base in Ho.
      destruct (isVirtual B); [reflexivity|].
      destruct (hasTrivialDestructor (getDecl B)); [reflexivity|].
      destruct (getDestructor (getDecl B)); [reflexivity|].
      apply bind_Ok in Ho. destruct Ho as (t0 & s2 & o1 & o2 & _ & Ho & _).
      apply bind_Ok in Ho. destruct Ho as (v & s3 & o3 & o4 & _ & Ho & _).
      discriminate Ho.
  - exact Hfields.
  - rewrite destructor_calls_app. f_equal.
    + unfold destructor_calls. apply (chain_omap _ _ _ _ _ _ _ HcF).
      intros F a b o Ho. apply (DtorEpilogue_field_destroys _ _ _ _ _ _ Ho).
    + unfold destructor_calls. apply (chain_omap _ _ _ _ _ _ _ HcB).
      intros B a b o Ho. apply (DtorEpilogue_base_destroys _ _ _ _ _ _ _ Ho).
  - exists cB, (cV ++ concat cM). split; [reflexivity|]. split.
    + apply (chain_Forall2 _ _ _ _ _ _ HpB).
      intros I a b o HI.
      apply EmitBaseInitializer_emits in HI. destruct HI as (_ & H1 & H2).
      split; [|exact H1].
      rewrite H2. unfold base_initializer_skipped. rewrite Hnv.
      destruct (init_target I); [rewrite andb_false_r|]; reflexivity.
    + rewrite (initialized_fields_app (concat cB)), HcB0. reflexivity.
  - exact Hinit.
  - rewrite Hinit, Hfields, <- map_rev, <- filter_rev.
    apply (reverse_order_of_declarations field_id DtorEpilogue_collects
             (fields ClassDecl)); assumption.
  - unfold destroyed_bases.
    apply (reverse_order_of_declarations
             (fun Base => decl_id (getDecl Base))
             (fun Base => negb (isVirtual Base)
                          && negb (hasTrivialDestructor (getDecl Base)))
             (bases ClassDecl)); assumption.
Qed.

Lemma base_destructor_epilogue_reverses_prologue_witness :
  exists sd' out sc' outc,
    EmitDtorEpilogue ex_CGM ex_CGF (ex_dtor ex_C) Dtor_Base ex_s
    = Ok tt sd' out /\
    EmitCtorPrologue ex_CGM ex_CGF
      (ex_ctor [ex_init_A; ex_init_B; ex_init_fa; ex_init_fb]) Ctor_Base ex_s
    = Ok tt sc' outc /\
    destroyed_fields out = [103; 102]%nat /\
    destructor_calls out
    = [(ex_method 23 2, Dtor_Complete); (ex_method 13 1, Dtor_Complete);
       (ex_method 23 2, Dtor_Base); (ex_method 13 1, Dtor_Base)] /\
    initialized_fields outc = [102; 103]%nat /\
    initializer_exprs outc
    = [getInit ex_init_A; getInit ex_init_B; getInit ex_init_fa] /\
    destroyed_bases ex_C = [2; 1]%nat /\
    reverse_order (initialized_fields outc) (destroyed_fields out) /\
    reverse_order [1; 2]%nat (destroyed_bases ex_C).
Proof.
  destruct (EmitDtorEpilogue ex_CGM ex_CGF (ex_dtor ex_C) Dtor_Base ex_s)
    as [[] sd' out|msg] eqn:Hd; [|vm_compute in Hd; discriminate Hd].
  destruct (EmitCtorPrologue ex_CGM ex_CGF
              (ex_ctor [ex_init_A; ex_init_B; ex_init_fa; ex_init_fb])
              Ctor_Base ex_s)
    as [[] sc' outc|msg] eqn:Hc; [|vm_compute in Hc; discriminate Hc].
  destruct (base_destructor_epilogue_reverses_prologue ex_CGM ex_CGF ex_CGF
              (ex_dtor ex_C)
              (ex_ctor [ex_init_A; ex_init_B; ex_init_fa; ex_init_fb])
              Ctor_Base ex_s sd' out ex_s sc' outc Hd Hc
              eq_refl eq_refl eq_refl eq_refl eq_refl eq_refl)
    as (_ & H2 & H3 & _ & H5 & H6 & H7).
  exists sd', out, sc', outc.
  split; [reflexivity|]. split; [reflexivity|].
  split; [exact H2|]. split; [exact H3|]. split; [exact H5|].
  split; [vm_compute in Hc; inversion Hc; reflexivity|].
  split; [reflexivity|]. split; [exact H6|exact H7].
Defined.

(* ===================================================================== *)
(** * Copy assignment and copy construction                               *)
(* ===================================================================== *)

(** C7.  The copy assignment of a sub-object ([EmitClassCopyAssignment])
    and the whole synthesized copy-assignment operator consist of
    assignment instructions only: no store of a vtable pointer, no use of
    a VTT, and every call has exactly two arguments, the destination and
    the source.  The copy of a sub-object in a copy constructor
    ([EmitClassMemberwiseCopy]) uses a VTT exactly when the constructor
    of the sub-object's class takes one, and the call then has three
    arguments; the synthesized copy constructor copies its bases so, and
    ends with the installation of the vtable pointers, which stores at
    least one vtable pointer when the class is dynamic. *)
Theorem copy_assignment_keeps_vtables_copy_construction_installs :
  forall CGM CGF ClassDecl Args sa sa' outa
         Dest Src Sub BaseClassDecl Ty se se' oute
         Ctor Type_ CtorArgs sc sc' outc
         sm sm' outm,
    SynthesizeCXXCopyAssignment CGM ClassDecl Args sa = Ok tt sa' outa ->
    EmitClassCopyAssignment CGM Dest Src Sub BaseClassDecl Ty se
    = Ok tt se' oute ->
    EmitClassMemberwiseCopy CGM CGF Dest Src Sub BaseClassDecl Ty sm
    = Ok tt sm' outm ->
    is_VTT_operand Dest = false ->
    is_VTT_operand Src = false ->
    SynthesizeCXXCopyConstructor CGM CGF Ctor Type_ CtorArgs sc
    = Ok tt sc' outc ->
    forallb is_assignment_instr oute = true /\
    forallb is_assignment_instr outa = true /\
    existsb is_vtable_store outa = false /\
    existsb uses_VTT outm = copy_takes_VTT CGM Sub BaseClassDecl /\
    Forall (fun c => length (snd c)
                     = if copy_takes_VTT CGM Sub BaseClassDecl
                       then 3%nat else 2%nat) (calls outm) /\
    exists loads osB osF outV s2,
      outc = loads ++ concat osB ++ concat osF ++ outV /\
      Forall2
        (fun Base o =>
           existsb uses_VTT o
           = negb (isVirtual Base)
             && copy_takes_VTT CGM (Some (ctor_parent Ctor)) (getDecl Base))
        (bases (ctor_parent Ctor)) osB /\
      InitializeVtablePtrs CGM (ctor_parent Ctor) s2 = Ok tt sc' outV /\
      existsb is_vtable_store outV = isDynamicClass (ctor_parent Ctor).
Proof.
  intros CGM CGF ClassDecl Args sa sa' outa Dest Src Sub BaseClassDecl Ty
    se se' oute Ctor Type_ CtorArgs sc sc' outc sm sm' outm
    Ha He Hm HD HS Hc.
  pose proof (SynthesizeCXXCopyAssignment_assigns _ _ _ _ _ _ Ha) as Hassign.
  split; [|split; [|split; [|split; [|split]]]].
  - exact (EmitClassCopyAssignment_assigns _ _ _ _ _ _ _ _ _ He HD HS).
  - exact Hassign.
  - apply existsb_negb_forallb.
    apply (forallb_weaken is_assignment_instr); [|exact Hassign].
    intros i Hi. unfold is_assignment_instr in Hi.
    apply andb_true_iff in Hi as [Hi _].
    apply andb_true_iff in Hi as [Hi _]. exact Hi.
  - apply (EmitClassMemberwiseCopy_VTT _ _ _ _ _ _ _ _ _ _ Hm HD HS).
  - apply (EmitClassMemberwiseCopy_VTT _ _ _ _ _ _ _ _ _ _ Hm HD HS).
  - destruct (SynthesizeCXXCopyConstructor_decomposes _ _ _ _ _ _ _ _ Hc)
      as (LoadOfThis & LoadOfSrc & loads & s0 & s1 & s2 & osB & osF & outV
          & HT & HSr & -> & HcB & HcF & HV).
    exists loads, osB, osF, outV, s2.
    split; [reflexivity|]. split; [|split].
    + apply (chain_Forall2 _ _ _ _ _ _ HcB).
      intros Base a b o HB.
      exact (CopyConstructor_base_VTT _ _ _ _ _ _ _ _ _ HB HT HSr).
    + exact HV.
    + exact (InitializeVtablePtrs_installs _ _ _ _ _ HV).
Qed.

Lemma copy_assignment_keeps_vtables_copy_construction_installs_witness :
  exists sa' outa se' oute sm' outm sc' outc,
    SynthesizeCXXCopyAssignment ex_CGM_VTT ex_C [1; 2]%nat ex_s
    = Ok tt sa' outa /\
    EmitClassCopyAssignment ex_CGM_VTT (OReg 0) (OReg 1) (Some ex_C) ex_B
      (TRecord ex_B) ex_s = Ok tt se' oute /\
    EmitClassMemberwiseCopy ex_CGM_VTT ex_CGF_copy (OReg 0) (OReg 1)
      (Some ex_C) ex_B (TRecord ex_B) ex_s = Ok tt sm' outm /\
    SynthesizeCXXCopyConstructor ex_CGM_VTT ex_CGF_copy ex_copy_ctor
      Ctor_Complete [1; 2]%nat ex_s = Ok tt sc' outc /\
    forallb is_assignment_instr oute = true /\
    forallb is_assignment_instr outa = true /\
    existsb is_vtable_store outa = false /\
    existsb uses_VTT outm = true /\
    Forall (fun c => length (snd c) = 3%nat) (calls outm) /\
    exists loads osB osF outV s2,
      outc = loads ++ concat osB ++ concat osF ++ outV /\
      Forall2
        (fun Base o =>
           existsb uses_VTT o
           = negb (isVirtual Base)
             && copy_takes_VTT ex_CGM_VTT (Some ex_C) (getDecl Base))
        (bases ex_C) osB /\
      InitializeVtablePtrs ex_CGM_VTT ex_C s2 = Ok tt sc' outV /\
      existsb is_vtable_store outV = true.
Proof.
  destruct (SynthesizeCXXCopyAssignment ex_CGM_VTT ex_C [1; 2]%nat ex_s)
    as [[] sa' outa|msg] eqn:Ha; [|vm_compute in Ha; discriminate Ha].
  destruct (EmitClassCopyAssignment ex_CGM_VTT (OReg 0) (OReg 1) (Some ex_C)
              ex_B (TRecord ex_B) ex_s)
    as [[] se' oute|msg] eqn:He; [|vm_compute in He; discriminate He].
  destruct (EmitClassMemberwiseCopy ex_CGM_VTT ex_CGF_copy (OReg 0) (OReg 1)
              (Some ex_C) ex_B (TRecord ex_B) ex_s)
    as [[] sm' outm|msg] eqn:Hm; [|vm_compute in Hm; discriminate Hm].
  destruct (SynthesizeCXXCopyConstructor ex_CGM_VTT ex_CGF_copy ex_copy_ctor
              Ctor_Complete [1; 2]%nat ex_s)
    as [[] sc' outc|msg] eqn:Hc; [|vm_compute in Hc; discriminate Hc].
  exists sa', outa, se', oute, sm', outm, sc', outc.
  do 4 (split; [reflexivity|]).
  exact (copy_assignment_keeps_vtables_copy_construction_installs
           ex_CGM_VTT ex_CGF_copy ex_C [1; 2]%nat ex_s sa' outa
           (OReg 0) (OReg 1) (Some ex_C) ex_B (TRecord ex_B) ex_s se' oute
           ex_copy_ctor Ctor_Complete [1; 2]%nat ex_s sc' outc
           ex_s sm' outm Ha He Hm eq_refl eq_refl Hc).
Defined.

(* ===================================================================== *)
(** * Trivial copies                                                      *)
(* ===================================================================== *)

(** C9.  For a sub-object whose class has a trivial copy constructor (a
    field, or a base for which a path is found, with or without virtual
    steps), [EmitClassMemberwiseCopy] succeeds and emits the address
    computations of the sub-object followed by one flat copy of the whole
    sub-object and no call; for a field the code is the flat copy alone.
    Running the code performs exactly one operation, the flat copy from
    the sub-object of the source to the sub-object of the destination,
    the two addresses being those the adjustments give for the two
    pointers.  A trivial copy constructor called through
    [EmitCXXConstructorCall] likewise becomes the flat copy of its source
    expression into the object.  The flat copy copies [size_of Ty] bytes,
    and the memory that results has, at every observable address (every
    address that is not a padding byte of the destination sub-object),
    the byte that copying the bases and the fields of the class one by
    one puts there. *)
Theorem trivial_copy_is_a_flat_copy :
  forall CGM CGF Dest Src ClassDecl BaseClassDecl Ty s E bb rs dest src da sa,
    hasTrivialCopyConstructor BaseClassDecl = true ->
    0 < PointerWidth CGM ->
    env_bits E = PointerWidth CGM ->
    fresh_for s Dest -> fresh_for s Src ->
    eval E rs Dest = Some (RInt dest) ->
    eval E rs Src = Some (RInt src) ->
    0 <= dest < 2 ^ PointerWidth CGM ->
    0 <= src < 2 ^ PointerWidth CGM ->
    subobject_address CGM E ClassDecl BaseClassDecl dest = Some da ->
    subobject_address CGM E ClassDecl BaseClassDecl src = Some sa ->
    (exists s' out fuel m,
        EmitClassMemberwiseCopy CGM CGF Dest Src ClassDecl BaseClassDecl Ty s
        = Ok tt s' out /\
        calls out = [] /\
        (exists pre d' s'',
            out = pre ++ [IAggregateCopy d' s'' Ty] /\
            forallb is_plain_address_instr pre = true /\
            aggregate_copies out = [(d', s'', Ty)]) /\
        (ClassDecl = None -> out = [IAggregateCopy Dest Src Ty]) /\
        exec E fuel out (start bb rs) = Some m /\
        trace m = [EvAggregateCopy (RInt da) (RInt sa) Ty] /\
        forall size_of mem,
          apply_trace size_of mem (trace m)
          = copy_bytes mem da sa (size_of Ty) /\
          forall a,
            let subs := class_subobjects CGM E size_of BaseClassDecl in
            disjoint_objects da sa (size_of Ty) = true ->
            subobjects_in_range subs (size_of Ty) = true ->
            observable subs da (size_of Ty) a = true ->
            apply_trace size_of mem (trace m) a
            = copy_subobjects mem da sa subs a) /\
    (forall D Type_ This Ex sk,
        ctor_isTrivial D = true ->
        ctor_isCopyConstructor D = true ->
        EmitCXXConstructorCall CGM CGF D Type_ This [Ex] sk
        = Ok tt (advance sk 1)
            [ILValue (NextReg sk) Ex;
             IAggregateCopy This (OReg (NextReg sk)) (expr_type Ex)]).
Proof.
  intros CGM CGF Dest Src ClassDecl BaseClassDecl Ty s E bb rs dest src da sa
    Htriv HW HE HfD HfS HD HS Hrd Hrs Hda Hsa.
  split.
  - destruct (EmitClassMemberwiseCopy_trivial_runs CGM CGF Dest Src ClassDecl
                BaseClassDecl Ty s E bb rs dest src da sa
                Htriv HW HE HfD HfS HD HS Hrd Hrs Hda Hsa)
      as (s' & out & fuel & m & Hemit & Hexec & Htrace).
    exists s', out, fuel, m.
    destruct (EmitClassMemberwiseCopy_trivial _ _ _ _ _ _ _ _ _ _ Hemit Htriv)
      as (pre & d' & s'' & Hout & Hpre & Hcalls & Hcopies).
    split; [exact Hemit|]. split; [exact Hcalls|].
    split; [exists pre, d', s''; repeat split; assumption|].
    split.
    { intros ->. unfold EmitClassMemberwiseCopy in Hemit.
      rewrite Htriv in Hemit. inversion Hemit. reflexivity. }
    split; [exact Hexec|]. split; [exact Htrace|].
    intros size_of mem. rewrite Htrace. split; [reflexivity|].
    intros a subs Hdis Hin Hobs.
    exact (flat_copy_agrees mem da sa (size_of Ty) subs a Hdis Hin Hobs).
  - intros D Type_ This Ex sk HDt HDc.
    unfold EmitCXXConstructorCall, assert. rewrite HDt, HDc. reflexivity.
Qed.

Lemma trivial_copy_is_a_flat_copy_witness :
  (exists s' out fuel m,
      EmitClassMemberwiseCopy ex_CGM_Q ex_CGF (OArg 0) (OArg 1) (Some ex_Q)
        ex_P (TRecord ex_P) ex_s = Ok tt s' out /\
      calls out = [] /\
      exec ex_E_Q fuel out (start 0 ex_regs) = Some m /\
      trace m = [EvAggregateCopy (RInt 4112) (RInt 8208) (TRecord ex_P)] /\
      apply_trace ex_size_of_Q ex_memory_Q (trace m) 4120 = Byte.x2a /\
      copy_subobjects ex_memory_Q 4112 8208
        (class_subobjects ex_CGM_Q ex_E_Q ex_size_of_Q ex_P) 4120
      = Byte.x2a) /\
  ex_memory_Q 4120 = Byte.x00 /\
  class_subobjects ex_CGM_Q ex_E_Q ex_size_of_Q ex_P
  = [{| sub_offset := 0; sub_size := 4 |};
     {| sub_offset := 8; sub_size := 4 |}] /\
  EmitCXXConstructorCall ex_CGM_Q ex_CGF ex_trivial_copy_ctor Ctor_Complete
    OThis [ex_expr 5 (TRecord ex_V)] ex_s
  = Ok tt (advance ex_s 1)
      [ILValue 0 (ex_expr 5 (TRecord ex_V));
       IAggregateCopy OThis (OReg 0) (TRecord ex_V)].
Proof.
  assert (Hd : 0 <= 4096 < 2 ^ PointerWidth ex_CGM_Q) by (cbn; lia).
  assert (Hs : 0 <= 8192 < 2 ^ PointerWidth ex_CGM_Q) by (cbn; lia).
  destruct (trivial_copy_is_a_flat_copy ex_CGM_Q ex_CGF (OArg 0) (OArg 1)
              (Some ex_Q) ex_P (TRecord ex_P) ex_s ex_E_Q 0%nat ex_regs
              4096 8192 4112 8208
              eq_refl eq_refl eq_refl I I eq_refl eq_refl Hd Hs
              eq_refl eq_refl)
    as ((s' & out & fuel & m & H1 & H2 & _ & _ & H5 & H6 & H7) & H9).
  destruct (H7 ex_size_of_Q ex_memory_Q) as [H7a H7b].
  split.
  - exists s', out, fuel, m.
    split; [exact H1|]. split; [exact H2|]. split; [exact H5|].
    split; [exact H6|].
    split; [|reflexivity].
    rewrite (H7b 4120 eq_refl eq_refl eq_refl). reflexivity.
  - split; [reflexivity|]. split; [reflexivity|].
    exact (H9 ex_trivial_copy_ctor Ctor_Complete OThis
             (ex_expr 5 (TRecord ex_V)) ex_s eq_refl eq_refl).
Defined.

(* ===================================================================== *)
(** * Further properties of the code                                      *)
(* ===================================================================== *)

(* --------------------------------------------------------------------- *)
(** ** Inheritance paths                                                  *)

(** X1.  [GetAddressOfBaseClass] succeeds for every class and every base
    for which a path is found (and for the class itself), whether or not
    the path has virtual steps: the offset is summed from the step after
    the last virtual one, so the assertion against virtual steps cannot
    fail, and the result is a register defined by the code emitted. *)
Theorem derived_to_base_never_fails :
  forall CGM Value Class BaseClass (NullCheckValue : bool) s,
    same_decl Class BaseClass || isSome (isDerivedFrom CGM Class BaseClass)
    = true ->
    exists r s' out,
      GetAddressOfBaseClass CGM Value Class BaseClass NullCheckValue s
      = Ok (OReg r) s' out /\
      (NextReg s <= r < NextReg s')%nat.
Proof.
  intros CGM Value Class BaseClass nc s H.
  exact (GetAddressOfBaseClass_succeeds CGM Value Class BaseClass nc s H).
Qed.

Lemma derived_to_base_never_fails_witness :
  exists r s' out,
    GetAddressOfBaseClass ex_CGM_G (OArg 0) ex_G ex_V true ex_s
    = Ok (OReg r) s' out /\
    (NextReg ex_s <= r < NextReg s')%nat.
Proof.
  apply (derived_to_base_never_fails ex_CGM_G (OArg 0) ex_G ex_V true ex_s).
  reflexivity.
Defined.

(** X2.  For a class and a base for which a path is found,
    [ComputeThunkAdjustment] succeeds without emitting code; the
    non-virtual part is the offset of the steps after the last virtual
    step of the path (of the whole path when it has none), and the
    virtual part is the virtual-base-offset index of the pair when the
    path has a virtual step and zero when it has none. *)
Theorem thunk_adjustment_splits_at_last_virtual_step :
  forall CGM ClassDecl BaseClassDecl Path s,
    isDerivedFrom CGM ClassDecl BaseClassDecl = Some Path ->
    ComputeThunkAdjustment CGM ClassDecl BaseClassDecl s
    = Ok {| NonVirtual := to_int64 (path_offset CGM (after_last_virtual Path));
            Virtual :=
              if path_is_nonvirtual Path then 0
              else to_int64 (getVirtualBaseOffsetIndex CGM (decl_id ClassDecl)
                               (decl_id BaseClassDecl)) |}
         s [].
Proof.
  intros CGM ClassDecl BaseClassDecl Path s H.
  unfold ComputeThunkAdjustment. rewrite H.
  destruct (find_virtual_base Path 0 0 None) as [Start VBase] eqn:Hfind.
  rewrite bind_unfold.
  rewrite (ComputeNonVirtualBaseClassOffset_after_virtual _ _ _ _ _ Hfind).
  destruct (find_virtual_base_start _ _ _ Hfind) as [_ Hs].
  rewrite Hs. cbn.
  destruct (path_is_nonvirtual Path); cbn [negb].
  - reflexivity.
  - rewrite to_int64_wrap. reflexivity.
Qed.

Lemma thunk_adjustment_splits_at_last_virtual_step_witness :
  ComputeThunkAdjustment ex_CGM_G ex_G ex_V ex_s
  = Ok {| NonVirtual := 0; Virtual := -24 |} ex_s [] /\
  ComputeThunkAdjustment ex_CGM_G ex_G ex_A ex_s
  = Ok {| NonVirtual := 8; Virtual := 0 |} ex_s [].
Proof.
  split.
  - exact (thunk_adjustment_splits_at_last_virtual_step ex_CGM_G ex_G ex_V
             ex_path_G_V ex_s eq_refl).
  - exact (thunk_adjustment_splits_at_last_virtual_step ex_CGM_G ex_G ex_A
             ex_path_G_A ex_s eq_refl).
Defined.

(** X3.  The adjustment from a base to a derived class is refused when the
    path from the derived class to the base has a virtual step: both
    [GetNonVirtualBaseClassOffset] and [GetAddressOfDerivedClass] stop at
    the assertion of the offset computation and emit nothing. *)
Theorem base_to_derived_refuses_virtual_steps :
  forall CGM Value Class DerivedClass (NullCheckValue : bool) Path s,
    same_decl Class DerivedClass = false ->
    isDerivedFrom CGM DerivedClass Class = Some Path ->
    path_is_nonvirtual Path = false ->
    GetNonVirtualBaseClassOffset CGM DerivedClass Class s
    = Abort "Should not see virtual bases here!" /\
    GetAddressOfDerivedClass CGM Value Class DerivedClass NullCheckValue s
    = Abort "Should not see virtual bases here!".
Proof.
  intros CGM Value Class DerivedClass nc Path s Hsame Hpath Hv.
  assert (HG : GetNonVirtualBaseClassOffset CGM DerivedClass Class s
               = Abort "Should not see virtual bases here!").
  { unfold GetNonVirtualBaseClassOffset.
    rewrite same_decl_sym, Hsame, Hpath, bind_unfold.
    unfold ComputeNonVirtualBaseClassOffset. rewrite drop_0.
    rewrite (Compute_from_virtual _ _ _ _ Hv). reflexivity. }
  split; [exact HG|].
  unfold GetAddressOfDerivedClass. rewrite Hsame, bind_unfold, HG.
  reflexivity.
Qed.

Lemma base_to_derived_refuses_virtual_steps_witness :
  GetNonVirtualBaseClassOffset ex_CGM_G ex_G ex_V ex_s
  = Abort "Should not see virtual bases here!" /\
  GetAddressOfDerivedClass ex_CGM_G (OArg 0) ex_V ex_G true ex_s
  = Abort "Should not see virtual bases here!".
Proof.
  exact (base_to_derived_refuses_virtual_steps ex_CGM_G (OArg 0) ex_V ex_G
           true ex_path_G_V ex_s eq_refl eq_refl eq_refl).
Defined.

(** X4.  The non-virtual offsets of paths compose: on the concatenation
    of two paths without virtual step, [ComputeNonVirtualBaseClassOffset]
    from index 0 gives the sum of the offsets of the two paths, as a
    64-bit unsigned number, and from the index where the second path
    starts it gives the offset of the second path alone. *)
Theorem nonvirtual_offsets_compose :
  forall CGM P1 P2 s,
    path_is_nonvirtual P1 = true ->
    path_is_nonvirtual P2 = true ->
    ComputeNonVirtualBaseClassOffset CGM (P1 ++ P2) 0 s
    = Ok (wrap 64 (path_offset CGM P1 + path_offset CGM P2)) s [] /\
    ComputeNonVirtualBaseClassOffset CGM (P1 ++ P2) (length P1) s
    = ComputeNonVirtualBaseClassOffset CGM P2 0 s /\
    ComputeNonVirtualBaseClassOffset CGM P2 0 s
    = Ok (path_offset CGM P2) s [].
Proof.
  intros CGM P1 P2 s H1 H2.
  unfold ComputeNonVirtualBaseClassOffset.
  rewrite !drop_0, drop_app_length.
  split; [|split].
  - rewrite Compute_from_nonvirtual
      by (rewrite path_is_nonvirtual_app, H1, H2; reflexivity).
    f_equal. rewrite path_offset_from_app. fold (path_offset CGM P1).
    rewrite <- (wrap_small 64 (path_offset_from CGM P2 (path_offset CGM P1))).
    + apply path_offset_from_shift.
    + apply path_offset_from_range. apply path_offset_from_range. lia.
  - reflexivity.
  - apply Compute_from_nonvirtual. exact H2.
Qed.

Lemma nonvirtual_offsets_compose_witness :
  ComputeNonVirtualBaseClassOffset ex_CGM_G (ex_path_G_A ++ ex_path_G_A) 0 ex_s
  = Ok 16 ex_s [] /\
  ComputeNonVirtualBaseClassOffset ex_CGM_G (ex_path_G_A ++ ex_path_G_A) 1 ex_s
  = ComputeNonVirtualBaseClassOffset ex_CGM_G ex_path_G_A 0 ex_s /\
  ComputeNonVirtualBaseClassOffset ex_CGM_G ex_path_G_A 0 ex_s = Ok 8 ex_s [].
Proof.
  exact (nonvirtual_offsets_compose ex_CGM_G ex_path_G_A ex_path_G_A ex_s
           eq_refl eq_refl).
Defined.

(* --------------------------------------------------------------------- *)
(** ** Adjusting through a virtual base                                   *)

(** X5.  For a base reached through a virtual step, running the code of
    [GetAddressOfBaseClass] on a non-null pointer [p] loads the vtable
    pointer of the object, loads the offset of the virtual base from the
    slot at the virtual-base-offset index of the vtable, and gives [p]
    plus this offset plus the non-virtual offset of the steps after the
    last virtual step; with the null check requested the null pointer
    gives the null pointer and nothing is loaded. *)
Theorem derived_to_base_through_virtual_base :
  forall CGM Class BaseClass Path VBase Value s E bb p vtable voff,
    same_decl Class BaseClass = false ->
    isDerivedFrom CGM Class BaseClass = Some Path ->
    last_virtual_base Path = Some VBase ->
    0 < PointerWidth CGM ->
    env_bits E = PointerWidth CGM ->
    fresh_for s Value ->
    0 < p < 2 ^ PointerWidth CGM ->
    env_load E p = RInt vtable ->
    env_load E (wrap (PointerWidth CGM)
                  (vtable + getVirtualBaseOffsetIndex CGM (decl_id Class)
                              (decl_id VBase)))
    = RInt voff ->
    (forall (nc : bool) rs,
        eval E rs Value = Some (RInt p) ->
        exists v s' out fuel m,
          GetAddressOfBaseClass CGM Value Class BaseClass nc s = Ok v s' out /\
          exec E fuel out (start bb rs) = Some m /\
          eval E (regs m) v
          = Some (RInt (wrap (PointerWidth CGM)
                          (p + voff
                           + path_offset CGM (after_last_virtual Path)))) /\
          trace m = []) /\
    (forall rs,
        eval E rs Value = Some (RInt 0) ->
        exists v s' out fuel m,
          GetAddressOfBaseClass CGM Value Class BaseClass true s = Ok v s' out /\
          exec E fuel out (start bb rs) = Some m /\
          eval E (regs m) v = Some (RInt 0) /\
          trace m = []).
Proof.
  intros CGM Class BaseClass Path VBase Value s E bb p vtable voff
    Hsame Hpath Hlast HW HE Hfresh Hp0 Hvt Hvoff.
  set (Off := path_offset CGM (after_last_virtual Path)).
  assert (HW0 : wrap (PointerWidth CGM) 0 = 0)
    by (apply wrap_small; split; [lia|apply Z.pow_pos_nonneg; lia]).
  assert (Hwp : wrap (PointerWidth CGM) p = p) by (apply wrap_small; lia).
  assert (Hne : (p =? 0) = false) by (apply Z.eqb_neq; lia).
  split.
  - intros nc rs Hp.
    rewrite (GetAddressOfBaseClass_virtual _ _ _ _ _ _ _ _ Hsame Hpath Hlast).
    fold Off. unfold GetVirtualBaseClassOffset.
    destruct (Off =? 0) eqn:Hz; destruct nc;
      (cbn; do 5 eexists; split; [reflexivity|]; split; [|split];
       [ run_all ltac:(rewrite ?(eval_upd_fresh _ _ _ _ s) by (auto; lia);
                       rewrite ?Hp, ?HE, ?HW0, ?Hwp, ?Hne, ?Hvt, ?Z.mul_1_r,
                               ?Hvoff)
       | machine_simpl idtac; rewrite ?HE, ?Z.mul_1_r, ?wrap_add_r;
         try (apply Z.eqb_eq in Hz; rewrite Hz, Z.add_0_r);
         rewrite ?Z.add_assoc, ?wrap_add_r; reflexivity
       | reflexivity ]).
  - intros rs Hp.
    rewrite (GetAddressOfBaseClass_virtual _ _ _ _ _ _ _ _ Hsame Hpath Hlast).
    fold Off. unfold GetVirtualBaseClassOffset.
    destruct (Off =? 0) eqn:Hz;
      (cbn; do 5 eexists; split; [reflexivity|]; split; [|split];
       [ run_all ltac:(rewrite ?(eval_upd_fresh _ _ _ _ s) by (auto; lia);
                       rewrite ?Hp, ?HE, ?HW0; change (0 =? 0) with true)
       | machine_simpl idtac; reflexivity
       | reflexivity ]).
Qed.

Lemma derived_to_base_through_virtual_base_witness :
  (forall (nc : bool) rs,
      eval ex_E_vbase rs (OArg 0) = Some (RInt 4096) ->
      exists v s' out fuel m,
        GetAddressOfBaseClass ex_CGM_G (OArg 0) ex_G ex_V nc ex_s
        = Ok v s' out /\
        exec ex_E_vbase fuel out (start 0 rs) = Some m /\
        eval ex_E_vbase (regs m) v = Some (RInt 4128) /\
        trace m = []) /\
  (forall rs,
      eval ex_E_vbase rs (OArg 0) = Some (RInt 0) ->
      exists v s' out fuel m,
        GetAddressOfBaseClass ex_CGM_G (OArg 0) ex_G ex_V true ex_s
        = Ok v s' out /\
        exec ex_E_vbase fuel out (start 0 rs) = Some m /\
        eval ex_E_vbase (regs m) v = Some (RInt 0) /\
        trace m = []).
Proof.
  exact (derived_to_base_through_virtual_base ex_CGM_G ex_G ex_V ex_path_G_V
           ex_V (OArg 0) ex_s ex_E_vbase 0%nat 4096 20480 32
           eq_refl eq_refl eq_refl eq_refl eq_refl I
           (conj eq_refl eq_refl) eq_refl eq_refl).
Defined.

(* --------------------------------------------------------------------- *)
(** ** The address of a base of a complete class                          *)

(** X6.  For a value whose static type is a pointer to [Derived],
    running the code of [GetAddressOfBaseOfCompleteClass] on a pointer
    [p] gives [p] plus the offset of the base in the layout of the class
    (the virtual-base offset for a virtual base, the base offset
    otherwise), in bytes, without any load or branch: the code is casts
    and one address computation.  For a value of another type code
    generation stops at the assertion on the type.  For a direct
    non-virtual base, found by a path of one step,
    [GetAddressOfBaseClass] without null check gives the same address. *)
Theorem base_of_complete_class_is_at_layout_offset :
  forall CGM CGF This (isBaseVirtual : bool) Derived Base s E bb rs p,
    0 < PointerWidth CGM ->
    env_bits E = PointerWidth CGM ->
    fresh_for s This ->
    eval E rs This = Some (RInt p) ->
    0 <= p < 2 ^ PointerWidth CGM ->
    let Offset :=
      if isBaseVirtual then getVBaseClassOffset CGM Derived Base
      else getBaseClassOffset CGM Derived Base in
    (isPointerTo CGF This Derived = true ->
     exists v s' out fuel m,
       GetAddressOfBaseOfCompleteClass CGM CGF This isBaseVirtual Derived Base s
       = Ok v s' out /\
       exec E fuel out (start bb rs) = Some m /\
       eval E (regs m) v
       = Some (RInt (wrap (PointerWidth CGM) (p + Offset / 8))) /\
       trace m = [] /\
       forallb (fun i => match i with
                         | IBitCast _ _ | IGEP _ _ _ _ => true
                         | _ => false
                         end) out = true) /\
    (isPointerTo CGF This Derived = false ->
     exists msg,
       GetAddressOfBaseOfCompleteClass CGM CGF This isBaseVirtual Derived Base s
       = Abort msg) /\
    (forall Element,
        isBaseVirtual = false ->
        same_decl Derived Base = false ->
        isDerivedFrom CGM Derived Base = Some [Element] ->
        isVirtual (Element_Base Element) = false ->
        decl_id (Element_Class Element) = decl_id Derived ->
        decl_id (getDecl (Element_Base Element)) = decl_id Base ->
        exists v s' out fuel m,
          GetAddressOfBaseClass CGM This Derived Base false s = Ok v s' out /\
          exec E fuel out (start bb rs) = Some m /\
          eval E (regs m) v
          = Some (RInt (wrap (PointerWidth CGM) (p + Offset / 8)))).
Proof.
  intros CGM CGF This isBaseVirtual Derived Base s E bb rs p
    HW HE Hfresh Hp Hrange Offset.
  assert (Hwp : wrap (PointerWidth CGM) p = p) by (apply wrap_small; lia).
  split; [|split].
  - intros Hty.
    unfold GetAddressOfBaseOfCompleteClass, assert. rewrite Hty. fold Offset.
    destruct (Offset =? 0) eqn:Hz.
    + apply Z.eqb_eq in Hz. rewrite Hz.
      cbn. do 5 eexists. split; [reflexivity|]. split; [|split; [|split]].
      * run_all ltac:(rewrite ?(eval_upd_fresh _ _ _ _ s) by (auto; lia);
                      rewrite ?Hp).
      * machine_simpl idtac.
        change (0 / 8) with 0. rewrite Z.add_0_r, Hwp. reflexivity.
      * reflexivity.
      * reflexivity.
    + cbn. do 5 eexists. split; [reflexivity|]. split; [|split; [|split]].
      * run_all ltac:(rewrite ?(eval_upd_fresh _ _ _ _ s) by (auto; lia);
                      rewrite ?Hp, ?HE, ?Z.mul_1_r).
      * machine_simpl idtac. reflexivity.
      * reflexivity.
      * reflexivity.
  - intros Hty.
    unfold GetAddressOfBaseOfCompleteClass, assert. rewrite Hty.
    eexists. reflexivity.
  - intros Element Hnonvirtual Hsame Hpath Hnv HidC HidB.
    unfold Offset. rewrite Hnonvirtual.
    set (x := getBaseClassOffset CGM Derived Base / 8).
    assert (Hx : 0 <= x < 2 ^ 64).
    { unfold x, getBaseClassOffset.
      pose proof (wrap_range 64 (BaseClassOffset CGM (decl_id Derived)
                                   (decl_id Base)) ltac:(lia)) as Hr.
      split; [apply Z.div_pos; lia|].
      apply Z.div_lt_upper_bound; lia. }
    assert (HOff : adjustment_offset CGM Derived Base = Some x).
    { unfold adjustment_offset. rewrite Hsame, Hpath.
      unfold path_is_nonvirtual. cbn [forallb]. rewrite Hnv. cbn [negb andb].
      unfold path_offset. cbn [path_offset_from].
      unfold getBaseClassOffset. rewrite HidC, HidB.
      fold (getBaseClassOffset CGM Derived Base). fold x.
      rewrite Z.add_0_l, wrap_small by exact Hx. reflexivity. }
    rewrite (GetAddressOfBaseClass_nonvirtual _ _ _ _ _ _ _ HOff).
    destruct (x =? 0) eqn:Hz.
    + apply Z.eqb_eq in Hz. rewrite Hz.
      cbn. do 5 eexists. split; [reflexivity|]. split.
      * run_all ltac:(rewrite ?(eval_upd_fresh _ _ _ _ s) by (auto; lia);
                      rewrite ?Hp).
      * machine_simpl idtac. rewrite Z.add_0_r, Hwp. reflexivity.
    + cbn. do 5 eexists. split; [reflexivity|]. split.
      * run_all ltac:(rewrite ?(eval_upd_fresh _ _ _ _ s) by (auto; lia);
                      rewrite ?Hp, ?HE, ?Z.mul_1_r).
      * machine_simpl idtac. rewrite wrap_add_r. reflexivity.
Qed.

Lemma base_of_complete_class_is_at_layout_offset_witness :
  (exists v s' out fuel m,
      GetAddressOfBaseOfCompleteClass ex_CGM (ex_CGF_in 5) OThis true ex_D ex_V ex_s
      = Ok v s' out /\
      exec ex_E fuel out (start 0 ex_regs) = Some m /\
      eval ex_E (regs m) v = Some (RInt 4104) /\
      trace m = [] /\
      forallb (fun i => match i with
                        | IBitCast _ _ | IGEP _ _ _ _ => true
                        | _ => false
                        end) out = true) /\
  (exists v s' out fuel m,
      GetAddressOfBaseOfCompleteClass ex_CGM ex_CGF OThis false ex_C ex_B ex_s
      = Ok v s' out /\
      exec ex_E fuel out (start 0 ex_regs) = Some m /\
      eval ex_E (regs m) v = Some (RInt 4112)) /\
  (exists msg,
      GetAddressOfBaseOfCompleteClass ex_CGM ex_CGF OThis true ex_D ex_V ex_s
      = Abort msg) /\
  (exists v s' out fuel m,
      GetAddressOfBaseClass ex_CGM OThis ex_C ex_B false ex_s = Ok v s' out /\
      exec ex_E fuel out (start 0 ex_regs) = Some m /\
      eval ex_E (regs m) v = Some (RInt 4112)).
Proof.
  assert (Hr : 0 <= 4096 < 2 ^ PointerWidth ex_CGM) by (cbn; lia).
  destruct (base_of_complete_class_is_at_layout_offset ex_CGM (ex_CGF_in 5) OThis
              true ex_D ex_V ex_s ex_E 0%nat ex_regs 4096
              eq_refl eq_refl I eq_refl Hr) as (HD & _ & _).
  destruct (base_of_complete_class_is_at_layout_offset ex_CGM ex_CGF OThis
              false ex_C ex_B ex_s ex_E 0%nat ex_regs 4096
              eq_refl eq_refl I eq_refl Hr) as (HC & _ & HP).
  destruct (base_of_complete_class_is_at_layout_offset ex_CGM ex_CGF OThis
              true ex_D ex_V ex_s ex_E 0%nat ex_regs 4096
              eq_refl eq_refl I eq_refl Hr) as (_ & HA & _).
  split; [exact (HD eq_refl)|]. split.
  - destruct (HC eq_refl) as (v & s' & out & fuel & m & H1 & H2 & H3 & _).
    exists v, s', out, fuel, m. repeat split; assumption.
  - split; [exact (HA eq_refl)|].
    exact (HP {| Element_Base := mkCXXBaseSpecifier false ex_B;
                 Element_Class := ex_C |}
             eq_refl eq_refl eq_refl eq_refl eq_refl eq_refl).
Defined.

(* --------------------------------------------------------------------- *)
(** ** Loops that count up                                                *)

(** A loop whose test is at instruction 2 and whose index is in [slot]:
    if one iteration from index [i] performs [ev i] and leaves the index
    at [i + 1], and the loop is left at index [N], then from index [i] it
    performs the operations of [i], ..., [N - 1] in this order. *)
Lemma ascending_loop_runs E code (c slot : nat) (N : Z)
    (inv : machine -> Prop) (ev : Z -> option event) :
  (forall m i,
      pc m = 2%nat -> slots m slot = Some (RInt i) -> inv m -> 0 <= i < N ->
      exists m1,
        (forall fuel r, exec E fuel code m1 = r -> exec E (c + fuel) code m = r) /\
        pc m1 = 2%nat /\ slots m1 slot = Some (RInt (i + 1)) /\ inv m1 /\
        trace m1 = trace m ++ match ev i with Some e => [e] | None => [] end) ->
  (forall m,
      pc m = 2%nat -> slots m slot = Some (RInt N) ->
      exists fuel m', exec E fuel code m = Some m' /\ trace m' = trace m) ->
  forall k m i,
    pc m = 2%nat -> slots m slot = Some (RInt i) -> inv m ->
    Z.of_nat k = N - i -> 0 <= i ->
    exists fuel m', exec E fuel code m = Some m' /\
      trace m' = trace m ++ omap ev (seqZ i (Z.of_nat k)).
Proof.
  intros Hiter Hexit.
  induction k as [|k IH]; intros m i Hpc Hsl Hinv Hi Hi0.
  - assert (i = N) by lia. clear Hi. subst i.
    destruct (Hexit m Hpc Hsl) as (fuel & m' & Hf & Ht). exists fuel, m'.
    split; [exact Hf|]. cbn. rewrite app_nil_r. exact Ht.
  - destruct (Hiter m i Hpc Hsl Hinv ltac:(lia))
      as (m1 & Hrun & Hpc1 & Hsl1 & Hinv1 & Ht1).
    destruct (IH m1 (i + 1) Hpc1 Hsl1 Hinv1 ltac:(lia) ltac:(lia))
      as (fuel & m' & Hexec & Htrace).
    exists (c + fuel)%nat, m'. split.
    + apply Hrun. exact Hexec.
    + rewrite Htrace, Ht1, seqZ_S_cons.
      change (omap ev (i :: seqZ (i + 1) (Z.of_nat k)))
        with (match ev i with
              | Some e => e :: omap ev (seqZ (i + 1) (Z.of_nat k))
              | None => omap ev (seqZ (i + 1) (Z.of_nat k))
              end).
      rewrite <- app_assoc. destruct (ev i); reflexivity.
Qed.

(** X7.  For a fixed-size array of N elements of a class whose copy
    assignment is trivial or done by a copy-assignment operator that is
    found, running the loop of [EmitClassAggrCopyAssignment] performs
    exactly one assignment per element (a flat copy, or a call of the
    operator on the addresses of the two elements), on elements 0, 1,
    ..., N-1 in this order, and none for N = 0. *)
Theorem array_assignment_loop_visits_each_element_once :
  forall BaseClassDecl Ty elem size Dest Src s E bb rs d0 s0,
    let Array := TConstantArray elem size in
    let N := getConstantArrayElementCount Array in
    hasTrivialCopyAssignment BaseClassDecl
      || isSome (hasConstCopyAssignment BaseClassDecl) = true ->
    fresh_for s Dest -> fresh_for s Src ->
    eval E rs Dest = Some (RInt d0) ->
    eval E rs Src = Some (RInt s0) ->
    exists s' out fuel m,
      EmitClassAggrCopyAssignment Dest Src Array BaseClassDecl Ty s
      = Ok tt s' out /\
      exec E fuel out (start bb rs) = Some m /\
      Forall2 (fun i e =>
                 element_assign BaseClassDecl Ty (element_address E Dest d0 i)
                   (element_address E Src s0 i) = Some e)
              (seqZ 0 N) (trace m) /\
      length (trace m) = Z.to_nat N.
Proof.
  intros BaseClassDecl Ty elem size Dest Src s E bb rs d0 s0 Array N
    Hassign HfD HfS HD HS.
  pose proof (getConstantArrayElementCount_range elem size) as HN.
  fold Array in HN. fold N in HN.
  assert (HwN : wrap 64 N = N) by (apply wrap_small; exact HN).
  pose (ev := fun i => element_assign BaseClassDecl Ty
                         (element_address E Dest d0 i)
                         (element_address E Src s0 i)).
  assert (Hev : forall i, exists e, ev i = Some e).
  { intros i. unfold ev, element_assign.
    destruct (hasTrivialCopyAssignment BaseClassDecl); [eexists; reflexivity|].
    destruct (hasConstCopyAssignment BaseClassDecl);
      [eexists; reflexivity|discriminate Hassign]. }
  assert (Hrun : exists s' out fuel m,
             EmitClassAggrCopyAssignment Dest Src Array BaseClassDecl Ty s
             = Ok tt s' out /\
             exec E fuel out (start bb rs) = Some m /\
             trace m = omap ev (seqZ 0 N)).
  { unfold EmitClassAggrCopyAssignment.
    clear Hev. unfold element_assign in ev.
    destruct (hasTrivialCopyAssignment BaseClassDecl) eqn:Htriv;
      [|destruct (hasConstCopyAssignment BaseClassDecl) as [MD|] eqn:Hop;
        [destruct (method_param0_isReference MD) eqn:Href
        |discriminate Hassign]].
    all:
      cbn -[getConstantArrayElementCount]; fold N; rewrite HwN;
      match goal with
      | |- exists s1 out fuel m, Ok tt _ ?c = _ /\ _ => set (code := c)
      end;
      (edestruct (ascending_loop_runs E code 12%nat (NextReg s) N
                    (fun m => eval E (regs m) Dest = Some (RInt d0) /\
                              eval E (regs m) Src = Some (RInt s0)) ev)
         with (k := Z.to_nat N) (i := 0)
              (m := {| pc := 2; cur_bb := NextBlock s; pred_bb := bb;
                       regs := rs;
                       slots := upd (fun _ => None) (NextReg s) (RInt 0);
                       trace := [] |})
         as (fuel & m' & Hexec & Htrace);
       [ intros m i Hpc Hsl [HmD HmS] Hi;
         destruct m as [pc0 cb pb rs1 sl t];
         cbn [pc slots regs trace] in *; subst pc0;
         assert (Hwi : wrap 64 i = i) by (apply wrap_small; lia);
         assert (Hlt : (wrap 64 i <? wrap 64 N) = true)
           by (rewrite Hwi, HwN; apply Z.ltb_lt; lia);
         assert (Hwi1 : wrap 64 (i + 1) = i + 1) by (apply wrap_small; lia);
         subst code;
         loop_iteration s 12 ltac:(rewrite ?Hsl, ?Hlt, ?HmD, ?HmS, ?Hwi1)
       | intros m Hpc Hsl;
         destruct m as [pc0 cb pb rs1 sl t];
         cbn [pc slots regs trace] in *; subst pc0;
         assert (Hlt : (wrap 64 N <? wrap 64 N) = false)
           by (apply Z.ltb_irrefl);
         do 2 eexists; split;
         [ subst code; run_all ltac:(rewrite ?Hsl, ?Hlt) | reflexivity ]
       | reflexivity | apply upd_same | split; [exact HD|exact HS] | lia | lia
       | do 2 eexists; exists (2 + fuel)%nat, m';
         split; [ reflexivity
                | split; [ subst code; do 2 (run1 idtac); exact Hexec
                         | rewrite Htrace, Z2Nat.id by lia; reflexivity ] ] ]). }
  destruct Hrun as (s' & out & fuel & m & Hemit & Hexec & Htrace).
  exists s', out, fuel, m. split; [exact Hemit|]. split; [exact Hexec|].
  assert (HF : Forall2 (fun i e => ev i = Some e) (seqZ 0 N) (trace m)).
  { rewrite Htrace. apply omap_Forall2. apply Forall_forall. intros i _.
    destruct (Hev i) as [e He]. rewrite He. reflexivity. }
  split; [exact HF|].
  apply Forall2_length in HF. rewrite <- HF, length_seqZ. reflexivity.
Qed.

Lemma array_assignment_loop_visits_each_element_once_witness :
  exists s' out fuel m,
    EmitClassAggrCopyAssignment (OArg 0) (OArg 1)
      (TConstantArray (TRecord ex_B) 3) ex_B (TRecord ex_B) ex_s
    = Ok tt s' out /\
    exec ex_E fuel out (start 0 ex_regs) = Some m /\
    Forall2 (fun i e =>
               element_assign ex_B (TRecord ex_B)
                 (element_address ex_E (OArg 0) 4096 i)
                 (element_address ex_E (OArg 1) 8192 i) = Some e)
            (seqZ 0 3) (trace m) /\
    length (trace m) = 3%nat.
Proof.
  exact (array_assignment_loop_visits_each_element_once ex_B (TRecord ex_B)
           (TRecord ex_B) 3 (OArg 0) (OArg 1) ex_s ex_E 0%nat ex_regs
           4096 8192 eq_refl I I eq_refl eq_refl).
Defined.

(** X8.  For a fixed-size array of N elements, running the loop of
    [EmitCXXAggrConstructorCall] with no constructor arguments calls the
    complete-object constructor once per element, on elements 0, 1, ...,
    N-1 in this order (the constructor taking no VTT and N fitting the
    size type); for a trivial default constructor the loop still counts
    to N but performs no call; for N = 0 nothing is called. *)
Theorem array_construction_loop_visits_each_element_once :
  forall CGM CGF D elem size ArrayPtr s E bb rs a0,
    let ArrayTy := TConstantArray elem size in
    let N := getConstantArrayElementCount ArrayTy in
    negb (ctor_isTrivial D) || ctor_isDefaultConstructor D = true ->
    needsVTTParameter CGM (GD_Ctor (ctor_decl D) Ctor_Complete) = false ->
    0 < PointerWidth CGM ->
    N < 2 ^ PointerWidth CGM ->
    fresh_for s ArrayPtr ->
    eval E rs ArrayPtr = Some (RInt a0) ->
    exists s' out fuel m,
      EmitCXXAggrConstructorCall CGM CGF D ArrayTy ArrayPtr [] s
      = Ok tt s' out /\
      exec E fuel out (start bb rs) = Some m /\
      trace m
      = omap (fun i => element_construct D (element_address E ArrayPtr a0 i))
          (seqZ 0 N) /\
      length (trace m) = if ctor_isTrivial D then 0%nat else Z.to_nat N.
Proof.
  intros CGM CGF D elem size ArrayPtr s E bb rs a0 ArrayTy N
    Hdefault Hvtt HW HNW HfA HA.
  pose proof (getConstantArrayElementCount_range elem size) as HN.
  fold ArrayTy in HN. fold N in HN.
  set (W := PointerWidth CGM) in *.
  assert (H2W : 2 <= 2 ^ W).
  { change 2 with (2 ^ 1) at 1. apply Z.pow_le_mono_r; lia. }
  assert (HwN : wrap W N = N) by (apply wrap_small; lia).
  assert (Hw1 : wrap W 1 = 1) by (apply wrap_small; lia).
  pose (ev := fun i => element_construct D (element_address E ArrayPtr a0 i)).
  assert (Hrun : exists s' out fuel m,
             EmitCXXAggrConstructorCall CGM CGF D ArrayTy ArrayPtr [] s
             = Ok tt s' out /\
             exec E fuel out (start bb rs) = Some m /\
             trace m = omap ev (seqZ 0 N)).
  { unfold EmitCXXAggrConstructorCall, EmitCXXAggrConstructorCall_count,
      EmitCXXConstructorCall, GetVTTParameter, EmitCXXMemberCall, assert.
    unfold element_construct in ev.
    rewrite Hvtt.
    destruct (ctor_isTrivial D) eqn:Htriv;
      [cbn [negb orb] in Hdefault; rewrite Hdefault|].
    all:
      cbn -[getConstantArrayElementCount]; fold N; fold W; rewrite HwN, Hw1;
      match goal with
      | |- exists s1 out fuel m, Ok tt _ ?c = _ /\ _ => set (code := c)
      end.
    - edestruct (ascending_loop_runs E code 10%nat (NextReg s) N
                   (fun m => eval E (regs m) ArrayPtr = Some (RInt a0)) ev)
        with (k := Z.to_nat N) (i := 0)
             (m := {| pc := 2; cur_bb := NextBlock s; pred_bb := bb;
                      regs := rs;
                      slots := upd (fun _ => None) (NextReg s) (RInt 0);
                      trace := [] |})
        as (fuel & m' & Hexec & Htrace);
        [ intros m i Hpc Hsl HmA Hi;
          destruct m as [pc0 cb pb rs1 sl t];
          cbn [pc slots regs trace] in *; subst pc0;
          assert (Hwi : wrap W i = i) by (apply wrap_small; lia);
          assert (Hlt : (wrap W i <? wrap W N) = true)
            by (rewrite Hwi, HwN; apply Z.ltb_lt; lia);
          assert (Hwi1 : wrap W (i + 1) = i + 1) by (apply wrap_small; lia);
          subst code;
          loop_iteration s 10 ltac:(rewrite ?Hsl, ?Hlt, ?HmA, ?Hwi1)
        | intros m Hpc Hsl;
          destruct m as [pc0 cb pb rs1 sl t];
          cbn [pc slots regs trace] in *; subst pc0;
          assert (Hlt : (wrap W N <? wrap W N) = false)
            by (apply Z.ltb_irrefl);
          do 2 eexists; split;
          [ subst code; run_all ltac:(rewrite ?Hsl, ?Hlt) | reflexivity ]
        | reflexivity | apply upd_same | exact HA | lia | lia
        | do 2 eexists; exists (2 + fuel)%nat, m';
          split; [ reflexivity
                 | split; [ subst code; do 2 (run1 idtac); exact Hexec
                          | rewrite Htrace, Z2Nat.id by lia; reflexivity ] ] ].
    - edestruct (ascending_loop_runs E code 11%nat (NextReg s) N
                   (fun m => eval E (regs m) ArrayPtr = Some (RInt a0)) ev)
        with (k := Z.to_nat N) (i := 0)
             (m := {| pc := 2; cur_bb := NextBlock s; pred_bb := bb;
                      regs := rs;
                      slots := upd (fun _ => None) (NextReg s) (RInt 0);
                      trace := [] |})
        as (fuel & m' & Hexec & Htrace);
        [ intros m i Hpc Hsl HmA Hi;
          destruct m as [pc0 cb pb rs1 sl t];
          cbn [pc slots regs trace] in *; subst pc0;
          assert (Hwi : wrap W i = i) by (apply wrap_small; lia);
          assert (Hlt : (wrap W i <? wrap W N) = true)
            by (rewrite Hwi, HwN; apply Z.ltb_lt; lia);
          assert (Hwi1 : wrap W (i + 1) = i + 1) by (apply wrap_small; lia);
          subst code;
          loop_iteration s 11 ltac:(rewrite ?Hsl, ?Hlt, ?HmA, ?Hwi1)
        | intros m Hpc Hsl;
          destruct m as [pc0 cb pb rs1 sl t];
          cbn [pc slots regs trace] in *; subst pc0;
          assert (Hlt : (wrap W N <? wrap W N) = false)
            by (apply Z.ltb_irrefl);
          do 2 eexists; split;
          [ subst code; run_all ltac:(rewrite ?Hsl, ?Hlt) | reflexivity ]
        | reflexivity | apply upd_same | exact HA | lia | lia
        | do 2 eexists; exists (2 + fuel)%nat, m';
          split; [ reflexivity
                 | split; [ subst code; do 2 (run1 idtac); exact Hexec
                          | rewrite Htrace, Z2Nat.id by lia; reflexivity ] ] ]. }
  destruct Hrun as (s' & out & fuel & m & Hemit & Hexec & Htrace).
  exists s', out, fuel, m. split; [exact Hemit|]. split; [exact Hexec|].
  split; [exact Htrace|].
  rewrite Htrace. unfold ev, element_construct.
  destruct (ctor_isTrivial D).
  - clear. induction (seqZ 0 N) as [|i l IH]; [reflexivity|exact IH].
  - rewrite <- (length_seqZ 0 N).
    clear. induction (seqZ 0 N) as [|i l IH]; [reflexivity|].
    cbn. f_equal. exact IH.
Qed.

Lemma array_construction_loop_visits_each_element_once_witness :
  exists s' out fuel m,
    EmitCXXAggrConstructorCall ex_CGM ex_CGF ex_default_ctor
      (TConstantArray (TRecord ex_B) 3) (OArg 0) [] ex_s = Ok tt s' out /\
    exec ex_E fuel out (start 0 ex_regs) = Some m /\
    trace m
    = omap (fun i => element_construct ex_default_ctor
                       (element_address ex_E (OArg 0) 4096 i))
        (seqZ 0 3) /\
    length (trace m) = 3%nat.
Proof.
  exact (array_construction_loop_visits_each_element_once ex_CGM ex_CGF
           ex_default_ctor (TRecord ex_B) 3 (OArg 0) ex_s ex_E 0%nat ex_regs
           4096 eq_refl eq_refl eq_refl eq_refl I eq_refl).
Defined.

(* --------------------------------------------------------------------- *)
(** ** The VTT parameter                                                  *)

(** X9.  [GetVTTParameter] gives no VTT and emits nothing when the callee
    needs none.  Otherwise, in a function that was itself handed a VTT,
    it indexes that VTT, always at a non-zero sub-VTT index and for a
    callee of another class; in a function that was not, it takes the
    VTT of the function's class by name, at index zero exactly when the
    callee belongs to this same class. *)
Theorem VTT_parameter_is_indexed_at_zero_only_by_name :
  forall CGM CGF GD s r s' out,
    GetVTTParameter CGM CGF GD s = Ok r s' out ->
    let RD := method_parent (CurFuncDecl CGF) in
    let Base := method_parent (GD_getDecl GD) in
    let SubVTTIndex := wrap 64 (getSubVTTIndex CGM RD Base) in
    (needsVTTParameter CGM GD = false /\ r = None /\ out = [] /\ s' = s) \/
    (needsVTTParameter CGM GD = true /\
     needsVTTParameter CGM (CurGD CGF) = true /\
     Nat.eqb RD Base = false /\ SubVTTIndex <> 0 /\
     r = Some (OReg (NextReg s)) /\
     out = [IGEP (NextReg s) OVTT (OInt SubVTTIndex) PPointer]) \/
    (needsVTTParameter CGM GD = true /\
     needsVTTParameter CGM (CurGD CGF) = false /\
     out = [] /\ s' = s /\
     exists i, r = Some (OConstGEP2 (GVTT RD) 0 i) /\
               i = (if Nat.eqb RD Base then 0 else SubVTTIndex) /\
               (i = 0 <-> Nat.eqb RD Base = true)).
Proof.
  intros CGM CGF GD s r s' out H RD Base SubVTTIndex.
  unfold GetVTTParameter in H. fold RD Base SubVTTIndex in H.
  destruct (needsVTTParameter CGM GD) eqn:Hneeds; cbn [negb] in H.
  - right.
    destruct (needsVTTParameter CGM (CurGD CGF)) eqn:Hcur;
      destruct (Nat.eqb RD Base) eqn:Heq; unfold assert in H; cbn in H.
    + discriminate H.
    + destruct (SubVTTIndex =? 0) eqn:Hz; cbn in H; [discriminate H|].
      inversion H; subst. left. apply Z.eqb_neq in Hz.
      repeat split; assumption.
    + inversion H; subst. right. repeat split.
      exists 0. repeat split; reflexivity.
    + destruct (SubVTTIndex =? 0) eqn:Hz; cbn in H; [discriminate H|].
      inversion H; subst. right. apply Z.eqb_neq in Hz. repeat split.
      exists SubVTTIndex. repeat split; try reflexivity.
      * intros H0. contradiction.
      * intros H0. discriminate H0.
  - inversion H; subst. left. repeat split.
Qed.

Lemma VTT_parameter_is_indexed_at_zero_only_by_name_witness :
  GetVTTParameter ex_CGM_VTT_param ex_CGF_base
    (GD_Ctor (ex_method 21 2) Ctor_Base) ex_s
  = Ok (Some (OReg 0)) (advance ex_s 1) [IGEP 0 OVTT (OInt 2) PPointer] /\
  needsVTTParameter ex_CGM_VTT_param (CurGD ex_CGF_base) = true /\
  wrap 64 (getSubVTTIndex ex_CGM_VTT_param 3 2) <> 0.
Proof.
  split; [reflexivity|].
  destruct (VTT_parameter_is_indexed_at_zero_only_by_name ex_CGM_VTT_param
              ex_CGF_base (GD_Ctor (ex_method 21 2) Ctor_Base) ex_s
              (Some (OReg 0)) (advance ex_s 1)
              [IGEP 0 OVTT (OInt 2) PPointer] eq_refl)
    as [(H & _)|[(_ & H2 & _ & H4 & _)|(_ & H2 & _)]].
  - discriminate H.
  - split; [exact H2|exact H4].
  - discriminate H2.
Defined.

(* --------------------------------------------------------------------- *)
(** ** Calls of trivial constructors                                      *)

(** X10.  [EmitCXXConstructorCall] never emits a call for a trivial
    constructor: with no argument it emits nothing (and requires a
    default constructor), with one argument it emits the evaluation of
    the argument and one flat copy into the object (and requires a copy
    constructor), and with any other number of arguments, or when the
    requirement fails, code generation stops at an assertion. *)
Theorem trivial_constructor_is_never_called :
  forall CGM CGF D Type_ This Args s,
    ctor_isTrivial D = true ->
    match EmitCXXConstructorCall CGM CGF D Type_ This Args s with
    | Ok _ s' out =>
        calls out = [] /\
        match Args with
        | [] => ctor_isDefaultConstructor D = true /\ out = [] /\ s' = s
        | [E] =>
            ctor_isCopyConstructor D = true /\
            out = [ILValue (NextReg s) E;
                   IAggregateCopy This (OReg (NextReg s)) (expr_type E)]
        | _ => False
        end
    | Abort msg =>
        match Args with
        | [] =>
            ctor_isDefaultConstructor D = false /\
            msg = "trivial 0-arg ctor not a default ctor"%string
        | [E] =>
            ctor_isCopyConstructor D = false /\
            msg = "trivial 1-arg ctor not a copy ctor"%string
        | _ => msg = "unexpected argcount for trivial ctor"%string
        end
    end.
Proof.
  intros CGM CGF D Type_ This Args s Htriv.
  unfold EmitCXXConstructorCall, assert. rewrite Htriv.
  destruct Args as [|E [|E' rest]].
  - destruct (ctor_isDefaultConstructor D); cbn; repeat split; reflexivity.
  - cbn. destruct (ctor_isCopyConstructor D); cbn; repeat split; reflexivity.
  - reflexivity.
Qed.

Lemma trivial_constructor_is_never_called_witness :
  EmitCXXConstructorCall ex_CGM ex_CGF ex_trivial_default_ctor Ctor_Complete
    OThis [] ex_s = Ok tt ex_s [] /\
  EmitCXXConstructorCall ex_CGM ex_CGF ex_trivial_default_ctor Ctor_Complete
    OThis [ex_expr 5 (TRecord ex_V)] ex_s
  = Abort "trivial 1-arg ctor not a copy ctor".
Proof.
  split.
  - pose proof (trivial_constructor_is_never_called ex_CGM ex_CGF
                  ex_trivial_default_ctor Ctor_Complete OThis [] ex_s
                  eq_refl) as H.
    destruct (EmitCXXConstructorCall ex_CGM ex_CGF ex_trivial_default_ctor
                Ctor_Complete OThis [] ex_s) as [[] s' out|msg] eqn:Hrun.
    + destruct H as (_ & _ & -> & ->). reflexivity.
    + destruct H as [H _]. discriminate H.
  - pose proof (trivial_constructor_is_never_called ex_CGM ex_CGF
                  ex_trivial_default_ctor Ctor_Complete OThis
                  [ex_expr 5 (TRecord ex_V)] ex_s eq_refl) as H.
    destruct (EmitCXXConstructorCall ex_CGM ex_CGF ex_trivial_default_ctor
                Ctor_Complete OThis [ex_expr 5 (TRecord ex_V)] ex_s)
      as [[] s' out|msg] eqn:Hrun.
    + destruct H as (_ & H & _). discriminate H.
    + destruct H as [_ ->]. reflexivity.
Defined.

(* --------------------------------------------------------------------- *)
(** ** Address points                                                     *)

Lemma address_points_missing AP plan :
  address_points_present AP plan = false <->
  exists key, key ∈ plan /\ AP !! key = None.
Proof.
  unfold address_points_present. induction plan as [|k plan IH].
  - split; [discriminate|]. intros (key & Hin & _). inversion Hin.
  - cbn [forallb]. rewrite andb_false_iff, IH. split.
    + intros [Hk|(key & Hin & Hnone)].
      * exists k. split; [left|]. destruct (AP !! k); [discriminate Hk|reflexivity].
      * exists key. split; [right; exact Hin|exact Hnone].
    + intros (key & Hin & Hnone). inversion Hin; subst.
      * left. rewrite Hnone. reflexivity.
      * right. exists key. split; assumption.
Qed.

(** X11.  [InitializeVtablePtrs] stops at the assertion "Missing address
    point for class" exactly when the table of the class lacks the
    address point of one of the sub-objects on its walk (a class and the
    offset it is visited at); otherwise it succeeds.  A class that is not
    dynamic never fails, whatever the table holds. *)
Theorem vtable_installation_fails_exactly_on_a_missing_address_point :
  forall CGM ClassDecl s,
    let AP := AddressPoints CGM (decl_id ClassDecl) in
    let plan := vtable_pointer_plan CGM ClassDecl in
    (InitializeVtablePtrs CGM ClassDecl s
     = Abort "Missing address point for class" <->
     exists key, key ∈ plan /\ AP !! key = None) /\
    ((exists s' out, InitializeVtablePtrs CGM ClassDecl s = Ok tt s' out) <->
     forall key, key ∈ plan -> exists AddressPoint, AP !! key = Some AddressPoint) /\
    (isDynamicClass ClassDecl = false ->
     InitializeVtablePtrs CGM ClassDecl s = Ok tt s []).
Proof.
  intros CGM ClassDecl s AP plan.
  pose proof (InitializeVtablePtrs_stores CGM ClassDecl s) as H.
  cbv zeta in H. fold AP plan in H.
  pose proof (address_points_missing AP plan) as Hmiss.
  split; [|split].
  - rewrite <- Hmiss, H.
    destruct (address_points_present AP plan); split; intros H0;
      try discriminate H0; reflexivity.
  - split.
    + intros (s' & out & Hok) key Hin.
      destruct (AP !! key) as [a|] eqn:Hk; [exists a; reflexivity|].
      assert (Hf : address_points_present AP plan = false)
        by (apply Hmiss; exists key; split; assumption).
      rewrite H, Hf in Hok. discriminate Hok.
    + intros Hall.
      destruct (sumbool_of_bool (address_points_present AP plan)) as [Hp|Hp].
      * rewrite H, Hp. do 2 eexists. reflexivity.
      * apply Hmiss in Hp. destruct Hp as (key & Hin & Hnone).
        destruct (Hall key Hin) as [a Ha]. rewrite Ha in Hnone.
        discriminate Hnone.
  - intros Hdyn. unfold InitializeVtablePtrs. rewrite Hdyn. reflexivity.
Qed.

Lemma vtable_installation_fails_exactly_on_a_missing_address_point_witness :
  InitializeVtablePtrs ex_CGM_missing ex_C ex_s
  = Abort "Missing address point for class" /\
  InitializeVtablePtrs ex_CGM_missing ex_V ex_s = Ok tt ex_s [].
Proof.
  destruct (vtable_installation_fails_exactly_on_a_missing_address_point
              ex_CGM_missing ex_C ex_s) as (H1 & _ & _).
  destruct (vtable_installation_fails_exactly_on_a_missing_address_point
              ex_CGM_missing ex_V ex_s) as (_ & _ & H3).
  split; [|exact (H3 eq_refl)].
  apply H1. exists (2%nat, 128). split; [|reflexivity].
  right. left.
Defined.

(** X12.  For a dynamic class whose address points are all in the table,
    the last store of the code of [InitializeVtablePtrs] writes the
    address point of the class itself at offset 0 to the address of the
    object: after the walk over the bases, the vtable pointer at the
    start of the object is the class's own. *)
Theorem own_vtable_pointer_is_stored_last :
  forall CGM ClassDecl s E bb rs this,
    let AP := AddressPoints CGM (decl_id ClassDecl) in
    isDynamicClass ClassDecl = true ->
    address_points_present AP (vtable_pointer_plan CGM ClassDecl) = true ->
    env_this E = RInt this ->
    exists s' out fuel m earlier AddressPoint,
      InitializeVtablePtrs CGM ClassDecl s = Ok tt s' out /\
      exec E fuel out (start bb rs) = Some m /\
      AP !! (decl_id ClassDecl, 0) = Some AddressPoint /\
      trace m
      = earlier
        ++ [EvStore (wrap (env_bits E) this)
              (RAddrConst (GVtable (decl_id ClassDecl)) 0 AddressPoint)].
Proof.
  intros CGM ClassDecl s E bb rs this AP Hdyn Hpresent Hthis.
  pose proof (InitializeVtablePtrs_stores CGM ClassDecl s) as Hemit.
  cbv zeta in Hemit. fold AP in Hemit. rewrite Hpresent in Hemit.
  destruct (exec_vtable_stores E (GVtable (decl_id ClassDecl)) AP this
              (vtable_pointer_plan CGM ClassDecl) (NextReg s) []
              (start bb rs) eq_refl Hthis) as (fuel & m & Hexec & Htrace).
  cbn [app trace start] in Hexec, Htrace.
  assert (Hplan : exists pre,
             vtable_pointer_plan CGM ClassDecl
             = pre ++ [(decl_id ClassDecl, 0)]).
  { unfold vtable_pointer_plan. rewrite vtable_visits_unfold, Hdyn.
    cbn [negb]. eexists. rewrite app_assoc. reflexivity. }
  destruct Hplan as (pre & Hplan).
  assert (Hown : exists AddressPoint,
             AP !! (decl_id ClassDecl, 0) = Some AddressPoint).
  { rewrite Hplan, address_points_present_app in Hpresent.
    apply andb_true_iff in Hpresent as [_ Hlast]. cbn in Hlast.
    destruct (AP !! (decl_id ClassDecl, 0)) as [a|];
      [exists a; reflexivity|discriminate Hlast]. }
  destruct Hown as (AddressPoint & Hown).
  do 4 eexists.
  exists (map (vtable_store_event E (GVtable (decl_id ClassDecl)) AP this) pre),
    AddressPoint.
  split; [exact Hemit|]. split; [exact Hexec|]. split; [exact Hown|].
  rewrite Htrace, Hplan, map_app. cbn [map].
  unfold vtable_store_event at 2. cbn [snd]. rewrite Hown. cbn [default].
  change (0 / 8) with 0. rewrite Z.add_0_r. reflexivity.
Qed.

Lemma own_vtable_pointer_is_stored_last_witness :
  exists s' out fuel m earlier,
    InitializeVtablePtrs ex_CGM ex_C ex_s = Ok tt s' out /\
    exec ex_E fuel out (start 0 ex_regs) = Some m /\
    trace m = earlier ++ [EvStore 4096 (RAddrConst (GVtable 3) 0 2)].
Proof.
  destruct (own_vtable_pointer_is_stored_last ex_CGM ex_C ex_s ex_E 0%nat
              ex_regs 4096 eq_refl eq_refl eq_refl)
    as (s' & out & fuel & m & earlier & a & H1 & H2 & H3 & H4).
  exists s', out, fuel, m, earlier. split; [exact H1|]. split; [exact H2|].
  rewrite H4. vm_compute in H3. inversion H3. reflexivity.
Defined.

(* --------------------------------------------------------------------- *)
(** ** Exception cleanups in the constructor prologue                     *)

Lemma EHCleanupBlock_inv {A} (m : M A) s a s' out :
  EHCleanupBlock m s = Ok a s' out ->
  exists body, m s = Ok a s' body /\ out = [IEHCleanupBlock body].
Proof.
  unfold EHCleanupBlock. destruct (m s) as [a0 s0 body|msg]; [|discriminate].
  intros H. inversion H; subst. exists body. split; reflexivity.
Qed.

(** As [emit_inv], keeping what the cleanup blocks hold. *)
Ltac emit_inv_cleanup H :=
  repeat first
    [ discriminate H
    | progress cbn in H
    | progress unfold assert in H
    | match type of H with
      | ret _ _ = _ => unfold ret in H
      | abort _ _ = _ => unfold abort in H
      end
    | match type of H with
      | Ok _ _ _ = Ok _ _ _ => inversion H; subst; clear H; pose proof I as H
      | context [EHCleanupBlock ?m ?s] =>
          let E := fresh "Hcleanup" in
          destruct (EHCleanupBlock m s) eqn:E;
          [ apply EHCleanupBlock_inv in E; destruct E as (? & E & ->) | ]
      | context [bind ?m ?f ?s] => rewrite (bind_unfold m f s) in H
      | context [if ?b then _ else _] =>
          let E := fresh "Hif" in destruct b eqn:E
      | context [match ?x with _ => _ end] =>
          lazymatch x with
          | context [Ok] => fail
          | context [match _ with _ => _ end] => fail
          | _ => let E := fresh "Hm" in destruct x eqn:E
          end
      end ].

Lemma cleanup_destructor_calls_app a b :
  cleanup_destructor_calls (a ++ b)
  = cleanup_destructor_calls a ++ cleanup_destructor_calls b.
Proof.
  unfold cleanup_destructor_calls. rewrite omap_app, concat_app. reflexivity.
Qed.

Section CleanupShapes.

#[local] Arguments EmitCXXDestructorCall : simpl never.

Lemma EmitBaseInitializer_cleanup CGM CGF ClassDecl BaseInit CtorType s s' out :
  EmitBaseInitializer CGM CGF ClassDecl BaseInit CtorType s = Ok tt s' out ->
  calls out = [] /\
  cleanup_destructor_calls out
  = base_initializer_cleanup CGF ClassDecl CtorType BaseInit /\
  existsb is_cleanup out
  = negb (Nat.eqb (length (base_initializer_cleanup CGF ClassDecl CtorType
                             BaseInit)) 0).
Proof.
  unfold EmitBaseInitializer, GetAddressOfBaseOfCompleteClass,
    base_initializer_cleanup, base_initializer_skipped.
  intros H. emit_inv_cleanup H; emit_facts; subst.
  all: repeat match goal with
         | Hd : _ && _ = true |- _ => apply andb_true_iff in Hd; destruct Hd
         | Hd : negb _ = true |- _ => apply negb_true_iff in Hd
         | Hd : negb _ = false |- _ => apply negb_false_iff in Hd
         end.
  all: repeat match goal with
         | Hd : ?x = _ |- context [?x] => rewrite Hd
         end.
  all: cbn; unfold cleanup_destructor_calls; cbn;
       rewrite ?andb_true_r, ?andb_false_r;
       repeat match goal with
         | Hd : ?x = _ |- context [?x] => rewrite Hd
         end;
       cbn; repeat split; reflexivity.
Qed.

Lemma EmitMemberInitializer_cleanup CGM CGF ClassDecl MemberInit s s' out :
  EmitMemberInitializer CGM CGF ClassDecl MemberInit s = Ok tt s' out ->
  calls out = [] /\
  (Exceptions CGF = false ->
   existsb is_cleanup out = false /\ cleanup_destructor_calls out = []).
Proof.
  unfold EmitMemberInitializer.
  intros H. emit_inv_cleanup H; emit_facts; subst.
  all: repeat match goal with
         | Hd : negb _ = true |- _ => apply negb_true_iff in Hd
         | Hd : negb _ = false |- _ => apply negb_false_iff in Hd
         end.
  all: cbn; unfold cleanup_destructor_calls; cbn;
       repeat match goal with
         | Hd : destructor_calls ?l = _ |- context [destructor_calls ?l] =>
             rewrite Hd
         end;
       cbn; repeat split; try lia; try congruence.
Qed.

End CleanupShapes.

Lemma vtable_stores_code_no_calls Vtable AP plan : forall r,
  calls (vtable_stores_code Vtable AP r plan) = [] /\
  existsb is_cleanup (vtable_stores_code Vtable AP r plan) = false /\
  cleanup_destructor_calls (vtable_stores_code Vtable AP r plan) = [].
Proof.
  induction plan as [|key plan IH]; intros r; [repeat split|].
  destruct (IH (3 + r)%nat) as (H1 & H2 & H3).
  cbn [vtable_stores_code vtable_store_code app].
  repeat split; assumption.
Qed.

Lemma chain_existsb_false {A} (f : A -> M unit) (P : instr -> bool) l s s' os :
  chain f l s s' os ->
  (forall x s1 s2 o, f x s1 = Ok tt s2 o -> existsb P o = false) ->
  existsb P (concat os) = false.
Proof.
  intros Hc HP. induction Hc as [|x l s s1 s2 o os Hx Hc IH]; [reflexivity|].
  cbn. rewrite existsb_app, (HP _ _ _ _ Hx), IH. reflexivity.
Qed.

Lemma chain_concat_nil {A B} (f : A -> M unit) (g : list instr -> list B)
    l s s' os :
  (forall a b, g (a ++ b) = g a ++ g b) -> g [] = [] ->
  chain f l s s' os ->
  (forall x s1 s2 o, f x s1 = Ok tt s2 o -> g o = []) ->
  g (concat os) = [].
Proof.
  intros Happ Hnil Hc Hg.
  induction Hc as [|x l s s1 s2 o os Hx Hc IH]; [exact Hnil|].
  cbn. rewrite Happ, (Hg _ _ _ _ Hx), IH. reflexivity.
Qed.

(** X13.  With exceptions disabled, the constructor prologue contains no
    exception cleanup and no call at all: no destructor is called or
    registered while the bases and members are initialized. *)
Theorem prologue_without_exceptions_has_no_cleanup :
  forall CGM CGF CD CtorType s s' out,
    EmitCtorPrologue CGM CGF CD CtorType s = Ok tt s' out ->
    Exceptions CGF = false ->
    calls out = [] /\
    existsb is_cleanup out = false /\
    cleanup_destructor_calls out = [].
Proof.
  intros CGM CGF CD CtorType s s' out H Hexc.
  destruct (EmitCtorPrologue_decomposes _ _ _ _ _ _ _ H)
    as (s1 & s2 & osB & outV & osM & HcB & HV & HcM & ->).
  rewrite (InitializeVtablePtrs_Ok _ _ _ _ _ HV).
  destruct (vtable_stores_code_no_calls (GVtable (decl_id (ctor_parent CD)))
              (AddressPoints CGM (decl_id (ctor_parent CD)))
              (vtable_pointer_plan CGM (ctor_parent CD)) (NextReg s1))
    as (HV1 & HV2 & HV3).
  assert (HB : forall I a b o,
             EmitBaseInitializer CGM CGF (ctor_parent CD) I CtorType a
             = Ok tt b o ->
             calls o = [] /\ existsb is_cleanup o = false /\
             cleanup_destructor_calls o = []).
  { intros I a b o Ho.
    destruct (EmitBaseInitializer_cleanup _ _ _ _ _ _ _ _ Ho) as (Hc & Hd & He).
    assert (Hnone : base_initializer_cleanup CGF (ctor_parent CD) CtorType I
                    = []).
    { unfold base_initializer_cleanup. rewrite Hexc.
      destruct (init_target I); reflexivity. }
    rewrite Hnone in Hd, He. repeat split; assumption. }
  assert (HM : forall I a b o,
             EmitMemberInitializer CGM CGF (ctor_parent CD) I a = Ok tt b o ->
             calls o = [] /\ existsb is_cleanup o = false /\
             cleanup_destructor_calls o = []).
  { intros I a b o Ho.
    destruct (EmitMemberInitializer_cleanup _ _ _ _ _ _ _ Ho) as (Hc & He).
    destruct (He Hexc). repeat split; assumption. }
  rewrite !calls_app, !existsb_app, !cleanup_destructor_calls_app.
  rewrite HV1, HV2, HV3.
  rewrite (chain_concat_nil _ calls _ _ _ _ calls_app eq_refl HcB)
    by (intros; eapply HB; eassumption).
  rewrite (chain_concat_nil _ calls _ _ _ _ calls_app eq_refl HcM)
    by (intros; eapply HM; eassumption).
  rewrite (chain_concat_nil _ cleanup_destructor_calls _ _ _ _
             cleanup_destructor_calls_app eq_refl HcB)
    by (intros; eapply HB; eassumption).
  rewrite (chain_concat_nil _ cleanup_destructor_calls _ _ _ _
             cleanup_destructor_calls_app eq_refl HcM)
    by (intros; eapply HM; eassumption).
  rewrite (chain_existsb_false _ is_cleanup _ _ _ _ HcB)
    by (intros; eapply HB; eassumption).
  rewrite (chain_existsb_false _ is_cleanup _ _ _ _ HcM)
    by (intros; eapply HM; eassumption).
  repeat split; reflexivity.
Qed.

Lemma prologue_without_exceptions_has_no_cleanup_witness :
  exists s' out,
    EmitCtorPrologue ex_CGM ex_CGF_noexc
      (ex_ctor [ex_init_A; ex_init_B; ex_init_fa; ex_init_fb])
      Ctor_Complete ex_s = Ok tt s' out /\
    calls out = [] /\
    existsb is_cleanup out = false /\
    cleanup_destructor_calls out = [].
Proof.
  destruct (EmitCtorPrologue ex_CGM ex_CGF_noexc
              (ex_ctor [ex_init_A; ex_init_B; ex_init_fa; ex_init_fb])
              Ctor_Complete ex_s) as [[] s' out|msg] eqn:Hrun;
    [|vm_compute in Hrun; discriminate Hrun].
  exists s', out. split; [reflexivity|].
  exact (prologue_without_exceptions_has_no_cleanup _ _ _ _ _ _ _ Hrun
           eq_refl).
Defined.

(** X14.  On its normal path the constructor prologue calls nothing, and
    each base initializer of the constructor's list registers as
    exception cleanup exactly the base-object destructor of its base,
    when exceptions are enabled, the initializer is not skipped as a
    virtual base of a base-object constructor and the destructor of the
    base is not trivial, and no cleanup otherwise. *)
Theorem base_initializers_register_their_cleanup :
  forall CGM CGF CD CtorType s s' out,
    EmitCtorPrologue CGM CGF CD CtorType s = Ok tt s' out ->
    exists osB rest,
      out = concat osB ++ rest /\
      Forall2
        (fun I o =>
           calls o = [] /\
           cleanup_destructor_calls o
           = base_initializer_cleanup CGF (ctor_parent CD) CtorType I)
        (List.filter isBaseInitializer (ctor_inits CD)) osB /\
      cleanup_destructor_calls (concat osB)
      = concat (map (base_initializer_cleanup CGF (ctor_parent CD) CtorType)
                  (List.filter isBaseInitializer (ctor_inits CD))).
Proof.
  intros CGM CGF CD CtorType s s' out H.
  destruct (EmitCtorPrologue_decomposes _ _ _ _ _ _ _ H)
    as (s1 & s2 & osB & outV & osM & HcB & HV & HcM & ->).
  exists osB, (outV ++ concat osM). split; [reflexivity|]. split.
  - apply (chain_Forall2 _ _ _ _ _ _ HcB).
    intros I a b o Ho.
    destruct (EmitBaseInitializer_cleanup _ _ _ _ _ _ _ _ Ho) as (Hc & Hd & _).
    split; assumption.
  - clear HV HcM H.
    induction HcB as [|I l a b c o os Ho Hc IH]; [reflexivity|].
    cbn [concat map]. rewrite cleanup_destructor_calls_app, IH.
    destruct (EmitBaseInitializer_cleanup _ _ _ _ _ _ _ _ Ho) as (_ & Hd & _).
    rewrite Hd. reflexivity.
Qed.

Lemma base_initializers_register_their_cleanup_witness :
  exists s' out osB rest,
    EmitCtorPrologue ex_CGM ex_CGF
      (ex_ctor [ex_init_A; ex_init_B; ex_init_fa; ex_init_fb])
      Ctor_Complete ex_s = Ok tt s' out /\
    out = concat osB ++ rest /\
    cleanup_destructor_calls (concat osB)
    = [(ex_method 13 1, Dtor_Base); (ex_method 23 2, Dtor_Base)].
Proof.
  destruct (EmitCtorPrologue ex_CGM ex_CGF
              (ex_ctor [ex_init_A; ex_init_B; ex_init_fa; ex_init_fb])
              Ctor_Complete ex_s) as [[] s' out|msg] eqn:Hrun;
    [|vm_compute in Hrun; discriminate Hrun].
  destruct (base_initializers_register_their_cleanup _ _ _ _ _ _ _ Hrun)
    as (osB & rest & H1 & _ & H3).
  exists s', out, osB, rest. split; [reflexivity|]. split; [exact H1|].
  exact H3.
Defined.

(* ===================================================================== *)
(** * Copy members that are not found                                     *)
(* ===================================================================== *)

(** X15.  For a sub-object (a base of [ClassDecl] reached by a path, or a
    field when [ClassDecl] is null) whose class has a copy constructor
    that is not trivial and is not found, [EmitClassMemberwiseCopy]
    succeeds and emits address computations only: the sub-object is
    neither copied bitwise nor by a call.  For an assignment operator that
    is not trivial and is not found, [EmitClassCopyAssignment] stops with
    a failed assertion instead. *)
Theorem missing_copy_constructor_is_skipped_missing_assignment_aborts :
  forall CGM CGF Dest Src ClassDecl BaseClassDecl Ty s,
    match ClassDecl with
    | Some Class =>
        same_decl Class BaseClassDecl
        || isSome (isDerivedFrom CGM Class BaseClassDecl) = true
    | None => True
    end ->
    (hasTrivialCopyConstructor BaseClassDecl = false ->
     getCopyConstructor BaseClassDecl = None ->
     exists s' out,
       EmitClassMemberwiseCopy CGM CGF Dest Src ClassDecl BaseClassDecl Ty s
       = Ok tt s' out /\
       forallb is_plain_address_instr out = true /\
       calls out = [] /\ aggregate_copies out = [] /\
       (ClassDecl = None -> out = [])) /\
    (hasTrivialCopyAssignment BaseClassDecl = false ->
     hasConstCopyAssignment BaseClassDecl = None ->
     EmitClassCopyAssignment CGM Dest Src ClassDecl BaseClassDecl Ty s
     = Abort "EmitClassCopyAssignment - missing copy assign").
Proof.
  intros CGM CGF Dest Src ClassDecl B Ty s Hpath.
  split.
  - intros Htriv Hnone. unfold EmitClassMemberwiseCopy.
    rewrite Htriv, Hnone.
    destruct ClassDecl as [Class|].
    + destruct (GetAddressOfBaseClass_succeeds CGM Dest Class B false s Hpath)
        as (r1 & s1 & o1 & H1 & _).
      destruct (GetAddressOfBaseClass_succeeds CGM Src Class B false s1 Hpath)
        as (r2 & s2 & o2 & H2 & _).
      rewrite !bind_unfold, H1. cbn. rewrite !bind_unfold, H2. cbn.
      exists s2, ((o1 ++ o2 ++ []) ++ []).
      split; [reflexivity|].
      apply GetAddressOfBaseClass_plain in H1, H2.
      assert (Hplain : forallb is_plain_address_instr ((o1 ++ o2 ++ []) ++ [])
                       = true)
        by (rewrite !forallb_app, H1, H2; reflexivity).
      split; [exact Hplain|].
      destruct (plain_address_observations _ Hplain)
        as (_ & _ & _ & _ & Hc & Ha & _).
      repeat split; [exact Hc|exact Ha|discriminate].
    + exists s, []. repeat split; reflexivity.
  - intros Htriv Hnone. unfold EmitClassCopyAssignment.
    rewrite Htriv, Hnone.
    destruct ClassDecl as [Class|].
    + destruct (GetAddressOfBaseClass_succeeds CGM Dest Class B false s Hpath)
        as (r1 & s1 & o1 & H1 & _).
      destruct (GetAddressOfBaseClass_succeeds CGM Src Class B false s1 Hpath)
        as (r2 & s2 & o2 & H2 & _).
      rewrite !bind_unfold, H1. cbn. rewrite !bind_unfold, H2. reflexivity.
    + reflexivity.
Qed.

Lemma missing_copy_constructor_is_skipped_missing_assignment_aborts_witness :
  (exists s' out,
      EmitClassMemberwiseCopy ex_CGM_H ex_CGF (OArg 0) (OArg 1) (Some ex_H)
        ex_N (TRecord ex_N) ex_s = Ok tt s' out /\
      forallb is_plain_address_instr out = true /\
      calls out = [] /\ aggregate_copies out = [] /\
      (Some ex_H = None -> out = [])) /\
  EmitClassCopyAssignment ex_CGM_H (OArg 0) (OArg 1) (Some ex_H) ex_N
    (TRecord ex_N) ex_s
  = Abort "EmitClassCopyAssignment - missing copy assign".
Proof.
  destruct (missing_copy_constructor_is_skipped_missing_assignment_aborts
              ex_CGM_H ex_CGF (OArg 0) (OArg 1) (Some ex_H) ex_N
              (TRecord ex_N) ex_s eq_refl) as [Hcopy Hassign].
  split.
  - apply Hcopy; reflexivity.
  - apply Hassign; reflexivity.
Defined.

(** X16.  For an array of objects of a class whose copy constructor is
    not trivial and is not found, the loop of
    [EmitClassAggrMemberwiseCopy] is emitted and runs to its end without
    performing any operation: no element is copied.  For an assignment
    operator that is not trivial and is not found,
    [EmitClassAggrCopyAssignment] stops with a failed assertion while
    emitting the loop body, whatever the number of elements, zero
    included. *)
Theorem array_copy_without_constructor_copies_nothing :
  forall Dest Src elem size BaseClassDecl Ty s E bb rs d0 s0,
    let Array := TConstantArray elem size in
    fresh_for s Dest -> fresh_for s Src ->
    eval E rs Dest = Some (RInt d0) ->
    eval E rs Src = Some (RInt s0) ->
    (hasTrivialCopyConstructor BaseClassDecl = false ->
     getCopyConstructor BaseClassDecl = None ->
     exists s' out fuel m,
       EmitClassAggrMemberwiseCopy Dest Src Array BaseClassDecl Ty s
       = Ok tt s' out /\
       exec E fuel out (start bb rs) = Some m /\
       trace m = [] /\
       calls out = [] /\ aggregate_copies out = []) /\
    (hasTrivialCopyAssignment BaseClassDecl = false ->
     hasConstCopyAssignment BaseClassDecl = None ->
     EmitClassAggrCopyAssignment Dest Src Array BaseClassDecl Ty s
     = Abort "EmitClassAggrCopyAssignment - No user assign").
Proof.
  intros Dest Src elem size B Ty s E bb rs d0 s0 Array HfD HfS HD HS.
  split.
  - intros Htriv Hnone.
    destruct (array_copy_loop_runs Dest Src elem size B Ty s E bb rs d0 s0
                HfD HfS HD HS) as (s' & out & fuel & m & Hemit & Hexec & Htrace).
    exists s', out, fuel, m.
    split; [exact Hemit|]. split; [exact Hexec|]. split.
    + rewrite Htrace. unfold element_copy. rewrite Htriv, Hnone.
      clear Htrace.
      induction (seqZ 0 (getConstantArrayElementCount (TConstantArray elem size)))
        as [|i l IH]; [reflexivity|exact IH].
    + unfold EmitClassAggrMemberwiseCopy in Hemit.
      rewrite Htriv, Hnone in Hemit. cbn in Hemit.
      inversion Hemit. split; reflexivity.
  - intros Htriv Hnone. unfold EmitClassAggrCopyAssignment.
    rewrite Htriv, Hnone. reflexivity.
Qed.

Lemma array_copy_without_constructor_copies_nothing_witness :
  (exists s' out fuel m,
      EmitClassAggrMemberwiseCopy (OArg 0) (OArg 1)
        (TConstantArray (TRecord ex_N) 3) ex_N (TRecord ex_N) ex_s
      = Ok tt s' out /\
      exec ex_E fuel out (start 0%nat ex_regs) = Some m /\
      trace m = [] /\
      calls out = [] /\ aggregate_copies out = []) /\
  EmitClassAggrCopyAssignment (OArg 0) (OArg 1)
    (TConstantArray (TRecord ex_N) 0) ex_N (TRecord ex_N) ex_s
  = Abort "EmitClassAggrCopyAssignment - No user assign".
Proof.
  split.
  - apply (array_copy_without_constructor_copies_nothing (OArg 0) (OArg 1)
             (TRecord ex_N) 3 ex_N (TRecord ex_N) ex_s ex_E 0%nat ex_regs
             4096 8192); reflexivity.
  - apply (array_copy_without_constructor_copies_nothing (OArg 0) (OArg 1)
             (TRecord ex_N) 0 ex_N (TRecord ex_N) ex_s ex_E 0%nat ex_regs
             4096 8192); reflexivity.
Defined.

(* ===================================================================== *)
(** * The operations of the implicitly-defined copy members               *)
(* ===================================================================== *)

Lemma copy_operations_app a b :
  copy_operations (a ++ b) = copy_operations a ++ copy_operations b.
Proof. apply omap_app. Qed.

Lemma plain_address_copy_operations out :
  forallb is_plain_address_instr out = true -> copy_operations out = [].
Proof.
  apply (omap_forallb_nil _ is_plain_address_instr).
  intros [] Hi; try reflexivity; discriminate Hi.
Qed.

Lemma chain_concat_map {A B} (f : A -> M unit) (g : list instr -> list B)
    (h : A -> list B) l s s' os :
  (forall a b, g (a ++ b) = g a ++ g b) -> g [] = [] ->
  chain f l s s' os ->
  (forall x s1 s2 o, f x s1 = Ok tt s2 o -> g o = h x) ->
  g (concat os) = concat (map h l).
Proof.
  intros Happ Hnil Hc Hg.
  induction Hc as [|x l s s1 s2 o os Hx Hc IH]; [exact Hnil|].
  cbn. rewrite Happ, (Hg _ _ _ _ Hx), IH. reflexivity.
Qed.

Section CopyOperations.

#[local] Arguments GetAddressOfBaseClass : simpl never.

Ltac address_facts :=
  repeat match goal with
  | u : unit |- _ => destruct u
  | Hc : GetAddressOfBaseClass _ _ _ _ _ _ = Ok _ _ _ |- _ =>
      apply GetAddressOfBaseClass_plain in Hc;
      apply plain_address_copy_operations in Hc
  end.

Ltac operations_done :=
  subst; rewrite ?copy_operations_app;
  repeat match goal with
  | Hd : copy_operations ?l = _ |- context [copy_operations ?l] => rewrite Hd
  end;
  reflexivity.

Lemma EmitClassMemberwiseCopy_operations CGM CGF Dest Src ClassDecl
    BaseClassDecl Ty s s' out :
  EmitClassMemberwiseCopy CGM CGF Dest Src ClassDecl BaseClassDecl Ty s
  = Ok tt s' out ->
  copy_operations out
  = class_copy_operation
      (if isSome ClassDecl then Ctor_Base else Ctor_Complete) BaseClassDecl.
Proof.
  unfold EmitClassMemberwiseCopy, GetVTTParameter, class_copy_operation.
  intros H. emit_inv H; address_facts; operations_done.
Qed.

Lemma EmitClassAggrMemberwiseCopy_operations Dest Src Array BaseClassDecl Ty
    s s' out :
  EmitClassAggrMemberwiseCopy Dest Src Array BaseClassDecl Ty s
  = Ok tt s' out ->
  copy_operations out = class_copy_operation Ctor_Complete BaseClassDecl.
Proof.
  unfold EmitClassAggrMemberwiseCopy, class_copy_operation.
  intros H. emit_inv H; operations_done.
Qed.

Lemma EmitClassCopyAssignment_operations CGM Dest Src ClassDecl BaseClassDecl
    Ty s s' out :
  EmitClassCopyAssignment CGM Dest Src ClassDecl BaseClassDecl Ty s
  = Ok tt s' out ->
  copy_operations out = class_assignment_operation BaseClassDecl.
Proof.
  unfold EmitClassCopyAssignment, class_assignment_operation.
  intros H. emit_inv H; address_facts; operations_done.
Qed.

Lemma EmitClassAggrCopyAssignment_operations Dest Src Array BaseClassDecl Ty
    s s' out :
  EmitClassAggrCopyAssignment Dest Src Array BaseClassDecl Ty s
  = Ok tt s' out ->
  copy_operations out = class_assignment_operation BaseClassDecl.
Proof.
  unfold EmitClassAggrCopyAssignment, class_assignment_operation.
  intros H. emit_inv H; operations_done.
Qed.

#[local] Arguments EmitClassMemberwiseCopy : simpl never.
#[local] Arguments EmitClassAggrMemberwiseCopy : simpl never.
#[local] Arguments EmitClassCopyAssignment : simpl never.
#[local] Arguments EmitClassAggrCopyAssignment : simpl never.

Ltac class_facts :=
  repeat match goal with
  | u : unit |- _ => destruct u
  | Hc : EmitClassMemberwiseCopy _ _ _ _ _ _ _ _ = Ok _ _ _ |- _ =>
      apply EmitClassMemberwiseCopy_operations in Hc
  | Hc : EmitClassAggrMemberwiseCopy _ _ _ _ _ _ = Ok _ _ _ |- _ =>
      apply EmitClassAggrMemberwiseCopy_operations in Hc
  | Hc : EmitClassCopyAssignment _ _ _ _ _ _ _ = Ok _ _ _ |- _ =>
      apply EmitClassCopyAssignment_operations in Hc
  | Hc : EmitClassAggrCopyAssignment _ _ _ _ _ _ = Ok _ _ _ |- _ =>
      apply EmitClassAggrCopyAssignment_operations in Hc
  end.

Lemma CopyConstructor_base_operations CGM CGF ClassDecl LoadOfThis LoadOfSrc
    Base s s' out :
  CopyConstructor_base CGM CGF ClassDecl LoadOfThis LoadOfSrc Base s
  = Ok tt s' out ->
  copy_operations out
  = base_operations (class_copy_operation Ctor_Base) Base.
Proof.
  unfold CopyConstructor_base, base_operations. intros H.
  destruct (isVirtual Base).
  - inversion H. reflexivity.
  - exact (EmitClassMemberwiseCopy_operations _ _ _ _ _ _ _ _ _ _ H).
Qed.

Lemma CopyAssignment_base_operations CGM ClassDecl LoadOfThis LoadOfSrc
    Base s s' out :
  CopyAssignment_base CGM ClassDecl LoadOfThis LoadOfSrc Base s
  = Ok tt s' out ->
  copy_operations out = base_operations class_assignment_operation Base.
Proof.
  unfold CopyAssignment_base, base_operations. intros H.
  destruct (isVirtual Base).
  - inversion H. reflexivity.
  - exact (EmitClassCopyAssignment_operations _ _ _ _ _ _ _ _ _ H).
Qed.

Lemma CopyConstructor_field_operations CGM CGF LoadOfThis LoadOfSrc Field
    s s' out :
  CopyConstructor_field CGM CGF LoadOfThis LoadOfSrc Field s = Ok tt s' out ->
  copy_operations out
  = field_operations (class_copy_operation Ctor_Complete) Field.
Proof.
  unfold CopyConstructor_field, field_operations, field_class. intros H.
  emit_inv H; class_facts; subst; cbn [negb andb];
    repeat match goal with
    | |- context [copy_operations (?i :: ?l)] =>
        lazymatch l with
        | [] => fail
        | _ => change (copy_operations (i :: l))
                 with (copy_operations [i] ++ copy_operations l)
        end
    end;
    repeat match goal with
    | Hd : copy_operations ?l = _ |- context [copy_operations ?l] => rewrite Hd
    | Hd : negb _ = true |- _ => apply negb_true_iff in Hd
    | Hd : negb _ = false |- _ => apply negb_false_iff in Hd
    | Hd : ?x = _ |- context [?x] => rewrite Hd
    end;
    reflexivity.
Qed.

Lemma CopyAssignment_field_operations CGM LoadOfThis LoadOfSrc Field
    s s' out :
  CopyAssignment_field CGM LoadOfThis LoadOfSrc Field s = Ok tt s' out ->
  copy_operations out = field_operations class_assignment_operation Field.
Proof.
  unfold CopyAssignment_field, field_operations, field_class. intros H.
  emit_inv H; class_facts; subst; cbn [negb andb];
    repeat match goal with
    | |- context [copy_operations (?i :: ?l)] =>
        lazymatch l with
        | [] => fail
        | _ => change (copy_operations (i :: l))
                 with (copy_operations [i] ++ copy_operations l)
        end
    end;
    repeat match goal with
    | Hd : copy_operations ?l = _ |- context [copy_operations ?l] => rewrite Hd
    | Hd : negb _ = true |- _ => apply negb_true_iff in Hd
    | Hd : negb _ = false |- _ => apply negb_false_iff in Hd
    | Hd : ?x = _ |- context [?x] => rewrite Hd
    end;
    reflexivity.
Qed.

End CopyOperations.

Lemma SynthesizeCXXCopyConstructor_code CGM CGF Ctor Type_ Args s s' out :
  SynthesizeCXXCopyConstructor CGM CGF Ctor Type_ Args s = Ok tt s' out ->
  exists ThisArg SrcArg rest s1 s2 osB osF outV,
    Args = ThisArg :: SrcArg :: rest /\
    out = [ILoad (NextReg s) (OLocalVar ThisArg);
           ILoad (S (NextReg s)) (OLocalVar SrcArg)]
          ++ concat osB ++ concat osF ++ outV /\
    chain (CopyConstructor_base CGM CGF (ctor_parent Ctor)
             (OReg (NextReg s)) (OReg (S (NextReg s))))
      (bases (ctor_parent Ctor))
      {| NextReg := S (S (NextReg s)); NextBlock := NextBlock s |} s1 osB /\
    chain (CopyConstructor_field CGM CGF
             (OReg (NextReg s)) (OReg (S (NextReg s))))
      (fields (ctor_parent Ctor)) s1 s2 osF /\
    InitializeVtablePtrs CGM (ctor_parent Ctor) s2 = Ok tt s' outV.
Proof.
  unfold SynthesizeCXXCopyConstructor, assert. intros H.
  destruct (negb (hasUserDeclaredCopyConstructor (ctor_parent Ctor)));
    [|discriminate H].
  destruct (negb (ctor_isTrivial Ctor)); [|discriminate H].
  destruct Args as [|ThisArg [|SrcArg Args]]; try discriminate H.
  cbn in H. rewrite bind_unfold in H.
  destruct (forM_ (bases (ctor_parent Ctor)) _ _) as [[] s1 oB|msg] eqn:HB;
    [|cbn in H; discriminate H].
  rewrite bind_unfold in H.
  destruct (forM_ (fields (ctor_parent Ctor)) _ _) as [[] s2 oF|msg] eqn:HF;
    [|cbn in H; discriminate H].
  destruct (InitializeVtablePtrs CGM (ctor_parent Ctor) s2)
    as [[] s3 oV|msg] eqn:HV; [|cbn in H; discriminate H].
  cbn in H.
  inversion H; subst.
  apply forM__chain in HB. destruct HB as (osB & HcB & ->).
  apply forM__chain in HF. destruct HF as (osF & HcF & ->).
  exists ThisArg, SrcArg, Args, s1, s2, osB, osF, oV.
  split; [reflexivity|]. split; [reflexivity|].
  repeat split; assumption.
Qed.

Lemma SynthesizeCXXCopyAssignment_code CGM ClassDecl Args s s' out :
  SynthesizeCXXCopyAssignment CGM ClassDecl Args s = Ok tt s' out ->
  exists ThisArg SrcArg rest s1 osB osF,
    Args = ThisArg :: SrcArg :: rest /\
    out = [ILoad (NextReg s) (OLocalVar ThisArg);
           ILoad (S (NextReg s)) (OLocalVar SrcArg)]
          ++ concat osB ++ concat osF
          ++ [IStore (OReg (NextReg s)) ReturnValue] /\
    chain (CopyAssignment_base CGM ClassDecl
             (OReg (NextReg s)) (OReg (S (NextReg s))))
      (bases ClassDecl)
      {| NextReg := S (S (NextReg s)); NextBlock := NextBlock s |} s1 osB /\
    chain (CopyAssignment_field CGM
             (OReg (NextReg s)) (OReg (S (NextReg s))))
      (fields ClassDecl) s1 s' osF.
Proof.
  unfold SynthesizeCXXCopyAssignment, assert. intros H.
  destruct (negb (hasUserDeclaredCopyAssignment ClassDecl));
    [|discriminate H].
  destruct Args as [|ThisArg [|SrcArg Args]]; try discriminate H.
  cbn in H. rewrite bind_unfold in H.
  destruct (forM_ (bases ClassDecl) _ _) as [[] s1 oB|msg] eqn:HB;
    [|cbn in H; discriminate H].
  rewrite bind_unfold in H.
  destruct (forM_ (fields ClassDecl) _ _) as [[] s2 oF|msg] eqn:HF;
    [|cbn in H; discriminate H].
  cbn in H.
  inversion H; subst.
  apply forM__chain in HB. destruct HB as (osB & HcB & ->).
  apply forM__chain in HF. destruct HF as (osF & HcF & ->).
  exists ThisArg, SrcArg, Args, s1, osB, osF.
  split; [reflexivity|]. split; [reflexivity|].
  split; assumption.
Qed.

Lemma vtable_stores_code_copy_operations Vtable AP plan : forall r,
  copy_operations (vtable_stores_code Vtable AP r plan) = [].
Proof.
  induction plan as [|key plan IH]; intros r; [reflexivity|].
  cbn [vtable_stores_code vtable_store_code app].
  exact (IH (3 + r)%nat).
Qed.

(** X17.  The implicitly-defined copy constructor copies the direct bases
    in declaration order and then the fields in declaration order, and
    performs no other call or bitwise copy: a virtual base is skipped, a
    non-virtual base is copied by the base-object variant of its copy
    constructor, a field of class type (or the element of an array field)
    by the complete-object variant, either of them bitwise if the copy
    constructor of its class is trivial, and an aggregate field that is no
    class bitwise; scalar and complex fields take no such operation. *)
Theorem copy_constructor_copies_bases_then_fields :
  forall CGM CGF Ctor Type_ Args s s' out,
    SynthesizeCXXCopyConstructor CGM CGF Ctor Type_ Args s = Ok tt s' out ->
    copy_operations out
    = concat (map (base_operations (class_copy_operation Ctor_Base))
                (bases (ctor_parent Ctor)))
      ++ concat (map (field_operations (class_copy_operation Ctor_Complete))
                   (fields (ctor_parent Ctor))).
Proof.
  intros CGM CGF Ctor Type_ Args s s' out H.
  destruct (SynthesizeCXXCopyConstructor_code _ _ _ _ _ _ _ _ H)
    as (ThisArg & SrcArg & rest & s1 & s2 & osB & osF & outV
        & -> & -> & HcB & HcF & HV).
  rewrite (InitializeVtablePtrs_Ok _ _ _ _ _ HV).
  rewrite !copy_operations_app, vtable_stores_code_copy_operations.
  rewrite (chain_concat_map _ copy_operations _ _ _ _ _
             copy_operations_app eq_refl HcB
             (CopyConstructor_base_operations CGM CGF (ctor_parent Ctor) _ _)).
  rewrite (chain_concat_map _ copy_operations _ _ _ _ _
             copy_operations_app eq_refl HcF
             (CopyConstructor_field_operations CGM CGF _ _)).
  rewrite app_nil_r. reflexivity.
Qed.

Lemma copy_constructor_copies_bases_then_fields_witness :
  exists s' out,
    SynthesizeCXXCopyConstructor ex_CGM_K ex_CGF_copy ex_copy_ctor_K
      Ctor_Complete [0; 1]%nat ex_s = Ok tt s' out /\
    copy_operations out
    = [Some (GCtor (ex_method 11 1) Ctor_Base);
       Some (GCtor (ex_method 11 1) Ctor_Complete);
       Some (GCtor (ex_method 21 2) Ctor_Complete)].
Proof.
  destruct (SynthesizeCXXCopyConstructor ex_CGM_K ex_CGF_copy ex_copy_ctor_K
              Ctor_Complete [0; 1]%nat ex_s) as [[] s' out|msg] eqn:Hrun;
    [|vm_compute in Hrun; discriminate Hrun].
  exists s', out. split; [reflexivity|].
  exact (copy_constructor_copies_bases_then_fields _ _ _ _ _ _ _ _ Hrun).
Defined.

(** X18.  The implicitly-defined copy assignment operator loads [this]
    and the source, assigns the direct bases in declaration order and
    then the fields in declaration order, and ends by storing [this] in
    the return slot.  A virtual base is skipped; any other base, and a
    field of class type (or the element of an array field), is assigned
    by the copy assignment operator of its class, or bitwise if that
    operator is trivial; an aggregate field that is no class is copied
    bitwise.  No other call or bitwise copy is made. *)
Theorem copy_assignment_assigns_bases_then_fields_and_returns_this :
  forall CGM ClassDecl Args s s' out,
    SynthesizeCXXCopyAssignment CGM ClassDecl Args s = Ok tt s' out ->
    exists ThisArg SrcArg rest body,
      Args = ThisArg :: SrcArg :: rest /\
      out = [ILoad (NextReg s) (OLocalVar ThisArg);
             ILoad (S (NextReg s)) (OLocalVar SrcArg)]
            ++ body ++ [IStore (OReg (NextReg s)) ReturnValue] /\
      copy_operations out
      = concat (map (base_operations class_assignment_operation)
                  (bases ClassDecl))
        ++ concat (map (field_operations class_assignment_operation)
                     (fields ClassDecl)).
Proof.
  intros CGM ClassDecl Args s s' out H.
  destruct (SynthesizeCXXCopyAssignment_code _ _ _ _ _ _ H)
    as (ThisArg & SrcArg & rest & s1 & osB & osF & -> & -> & HcB & HcF).
  exists ThisArg, SrcArg, rest, (concat osB ++ concat osF).
  split; [reflexivity|]. split; [rewrite <- !app_assoc; reflexivity|].
  rewrite !copy_operations_app.
  rewrite (chain_concat_map _ copy_operations _ _ _ _ _
             copy_operations_app eq_refl HcB
             (CopyAssignment_base_operations CGM ClassDecl _ _)).
  rewrite (chain_concat_map _ copy_operations _ _ _ _ _
             copy_operations_app eq_refl HcF
             (CopyAssignment_field_operations CGM _ _)).
  rewrite app_nil_r. reflexivity.
Qed.

Lemma copy_assignment_assigns_bases_then_fields_and_returns_this_witness :
  exists s' out body,
    SynthesizeCXXCopyAssignment ex_CGM_K ex_K [0; 1]%nat ex_s = Ok tt s' out /\
    out = [ILoad 0 (OLocalVar 0); ILoad 1 (OLocalVar 1)]
          ++ body ++ [IStore (OReg 0) ReturnValue] /\
    copy_operations out
    = [Some (GFunction (ex_method 12 1));
       Some (GFunction (ex_method 12 1));
       Some (GFunction (ex_method 22 2))].
Proof.
  destruct (SynthesizeCXXCopyAssignment ex_CGM_K ex_K [0; 1]%nat ex_s)
    as [[] s' out|msg] eqn:Hrun;
    [|vm_compute in Hrun; discriminate Hrun].
  destruct (copy_assignment_assigns_bases_then_fields_and_returns_this
              _ _ _ _ _ _ Hrun)
    as (ThisArg & SrcArg & rest & body & HArgs & Hout & Hops).
  inversion HArgs; subst ThisArg SrcArg rest.
  exists s', out, body. split; [reflexivity|]. split; [exact Hout|].
  exact Hops.
Defined.
